(** * TV1D_denoise: exact 1-D total-variation denoising

    A shallow embedding of [TV1D_denoise]
    (src/waffles/utils/denoising/tv1d_cpp/tv1ddenoise.c) and the
    verification of its specification.

    Modelling choices.
    - Samples ([float]) and running values ([double]) are rationals [Q]:
      the arithmetic of the routine is read over exact numbers.  Equality of
      computed values is [Qeq] ([==]).  The routine in the arithmetic of the
      program (IEEE 754 [double], rounded into [float] at every store) is
      [FP.TV1D_denoise], further down: the same blocks over another
      arithmetic.
    - [unsigned int] values are [nat]; every [+] and [-] the routine performs
      on them is reduced modulo [2^32] ([uadd], [usub]).
    - The three buffers ([output], [indstart_low], [indstart_up]) are lists
      of cells; a cell is [None] until it is first written.  Reading or
      writing past the end of a buffer, and reading a cell never written,
      are errors of the model.
    - Every loop carries a fuel counter; running out of fuel is an error of
      the model, so that a result [Ok _] is a run that finished. *)

From Stdlib Require Import QArith Qabs Qminmax Lqa Lia List Arith ZArith Bool SpecFloat.
Import ListNotations.

Local Open Scope Q_scope.

(** ** Results and errors *)

Inductive error : Set :=
| OutOfBounds
| Uninitialised
| OutOfFuel.

Inductive result (A : Type) : Type :=
| Ok (a : A)
| Err (e : error).

Arguments Ok {A} a.
Arguments Err {A} e.

Definition bind {A B : Type} (r : result A) (k : A -> result B) : result B :=
  match r with
  | Ok a => k a
  | Err e => Err e
  end.

Notation "x <- r ;; k" := (bind r (fun x => k))
  (at level 61, r at next level, right associativity).
Notation "' p <- r ;; k" := (bind r (fun p => k))
  (at level 61, p pattern, r at next level, right associativity).

(** ** Unsigned 32-bit arithmetic *)

Definition u32 (z : Z) : nat := Z.to_nat (z mod 2 ^ 32).
Definition uadd (a b : nat) : nat := u32 (Z.of_nat a + Z.of_nat b).
Definition usub (a b : nat) : nat := u32 (Z.of_nat a - Z.of_nat b).

(** An unsigned value converted to [double]. *)
Definition dbl (n : nat) : Q := inject_Z (Z.of_nat n).

(** ** Buffers *)

(** [rd a k] is the read [a[k]]. *)
Definition rd {A : Type} (a : list (option A)) (k : nat) : result A :=
  match nth_error a k with
  | None => Err OutOfBounds
  | Some None => Err Uninitialised
  | Some (Some v) => Ok v
  end.

(** The caller's [input] buffer is fully initialised. *)
Definition rd_in (input : list Q) (k : nat) : result Q :=
  match nth_error input k with
  | None => Err OutOfBounds
  | Some v => Ok v
  end.

Fixpoint put {A : Type} (a : list A) (k : nat) (v : A) : list A :=
  match a, k with
  | [], _ => []
  | _ :: t, O => v :: t
  | h :: t, S k' => h :: put t k' v
  end.

(** [wr a k v] is the write [a[k] = v]. *)
Definition wr {A : Type} (a : list (option A)) (k : nat) (v : A)
  : result (list (option A)) :=
  if k <? length a then Ok (put a k (Some v)) else Err OutOfBounds.

(** The buffer handed back to the caller: every cell must hold a value. *)
Fixpoint collect (a : list (option Q)) : result (list Q) :=
  match a with
  | [] => Ok []
  | None :: _ => Err Uninitialised
  | Some v :: t => l <- collect t ;; Ok (v :: l)
  end.

(** ** Program state

    The routine keeps two envelopes, [low] and [up]; each has its array of
    segment starts [indstart_*], the index [j_*] of its last segment, and
    the values [output_*_first] and [output_*_curr] of its first and last
    segment.  The blocks of the routine come in mirrored pairs (one per
    envelope), so the blocks are written once, for a direction [d]. *)

Inductive dir : Set := Low | Up.

Definition flip (d : dir) : dir :=
  match d with Low => Up | Up => Low end.

Record env : Type := mkEnv {
  indstart : list (option nat);  (* indstart_low / indstart_up *)
  j : nat;                       (* j_low / j_up *)
  first : Q;                     (* output_low_first / output_up_first *)
  curr : Q                       (* output_low_curr / output_up_curr *)
}.

Record state : Type := mkState {
  output : list (option Q);
  low : env;
  up : env;
  jseg : nat;
  indjseg : nat
}.

Definition set_indstart (a : list (option nat)) (e : env) : env :=
  mkEnv a (j e) (first e) (curr e).
Definition set_j (n : nat) (e : env) : env :=
  mkEnv (indstart e) n (first e) (curr e).
Definition set_first (v : Q) (e : env) : env :=
  mkEnv (indstart e) (j e) v (curr e).
Definition set_curr (v : Q) (e : env) : env :=
  mkEnv (indstart e) (j e) (first e) v.

Definition side (d : dir) (s : state) : env :=
  match d with Low => low s | Up => up s end.

Definition set_side (d : dir) (e : env) (s : state) : state :=
  match d with
  | Low => mkState (output s) e (up s) (jseg s) (indjseg s)
  | Up => mkState (output s) (low s) e (jseg s) (indjseg s)
  end.

Definition set_output (o : list (option Q)) (s : state) : state :=
  mkState o (low s) (up s) (jseg s) (indjseg s).
Definition set_jseg (n : nat) (s : state) : state :=
  mkState (output s) (low s) (up s) n (indjseg s).
Definition set_indjseg (n : nat) (s : state) : state :=
  mkState (output s) (low s) (up s) (jseg s) n.

(** The comparison that drives the envelope [d]: [a <= b] for the upper
    envelope, [a >= b] for the lower one. *)
Definition cmp (d : dir) (a b : Q) : bool :=
  match d with
  | Up => Qle_bool a b
  | Low => Qle_bool b a
  end.

(** ** The blocks of the routine *)

(** [while (indjseg < indjseg2) output[indjseg++] = v;] *)
Fixpoint fill (fuel : nat) (out : list (option Q)) (k k2 : nat) (v : Q)
  : result (list (option Q) * nat) :=
  if k <? k2 then
    match fuel with
    | O => Err OutOfFuel
    | S f => out' <- wr out k v ;; fill f out' (uadd k 1) k2 v
    end
  else Ok (out, k).

(** Lines 31-33, 49-51, 67-69, 103-105 and 112-114:
[[
  while ((j>jseg) && (curr <= output[ind=indstart[j-1]]))     // >= for low
      curr += (output[ind]-curr) * ((double)(indstart[j--]-ind)/(i-ind+1));
]] *)
Fixpoint unwind (d : dir) (fuel : nat) (i jseg0 : nat)
    (out : list (option Q)) (e : env) : result env :=
  if jseg0 <? j e then
    ind <- rd (indstart e) (usub (j e) 1) ;;
    v <- rd out ind ;;
    if cmp d (curr e) v then
      match fuel with
      | O => Err OutOfFuel
      | S f =>
          a <- rd (indstart e) (j e) ;;
          let c := curr e + (v - curr e)
                     * (dbl (usub a ind) / dbl (uadd (usub i ind) 1)) in
          unwind d f i jseg0 out (set_j (usub (j e) 1) (set_curr c e))
      end
    else Ok e
  else Ok e.

(** Lines 35-41, 53-59 and 71-77, for the envelope [d] being updated; the
    segments closed are those of the other envelope:
[[
  while ((curr <= other_first) && (jseg < j_other)) {          // >= for low
      indjseg2 = indstart_other[++jseg];
      curr += (curr-other_first) * ((double)(indjseg2-indjseg)/(i-indjseg2+1));
      while (indjseg<indjseg2) output[indjseg++] = other_first;
      other_first = output[indjseg];
  }
]] *)
Fixpoint close (d : dir) (fuel W : nat) (i : nat) (s : state) : result state :=
  let me := side d s in
  let ot := side (flip d) s in
  if cmp d (curr me) (first ot) && (jseg s <? j ot) then
    match fuel with
    | O => Err OutOfFuel
    | S f =>
        let jseg' := uadd (jseg s) 1 in
        indjseg2 <- rd (indstart ot) jseg' ;;
        let c := curr me + (curr me - first ot)
                   * (dbl (usub indjseg2 (indjseg s))
                      / dbl (uadd (usub i indjseg2) 1)) in
        ' (out', k) <- fill W (output s) (indjseg s) indjseg2 (first ot) ;;
        v <- rd out' k ;;
        close d f W i
          (set_indjseg k
             (set_jseg jseg'
                (set_side (flip d) (set_first v ot)
                   (set_side d (set_curr c me) (set_output out' s)))))
    end
  else Ok s.

(** Lines 85-89, 93-97, 115-119 and 124-128, for the envelope [d] whose
    segments are written out:
[[
  while (jseg < j) {
      indjseg2 = indstart[++jseg];
      while (indjseg<indjseg2) output[indjseg++] = first;
      first = output[indjseg];
  }
]] *)
Fixpoint flush (d : dir) (fuel W : nat) (s : state) : result state :=
  let me := side d s in
  if jseg s <? j me then
    match fuel with
    | O => Err OutOfFuel
    | S f =>
        let jseg' := uadd (jseg s) 1 in
        indjseg2 <- rd (indstart me) jseg' ;;
        ' (out', k) <- fill W (output s) (indjseg s) indjseg2 (first me) ;;
        v <- rd out' k ;;
        flush d f W
          (set_indjseg k
             (set_jseg jseg'
                (set_side d (set_first v me) (set_output out' s))))
    end
  else Ok s.

(** [while (indjseg <= i) output[indjseg++] = v;] *)
Fixpoint fill_le (fuel : nat) (out : list (option Q)) (k i : nat) (v : Q)
  : result (list (option Q)) :=
  if k <=? i then
    match fuel with
    | O => Err OutOfFuel
    | S f => out' <- wr out k v ;; fill_le f out' (uadd k 1) i v
    end
  else Ok out.

(** Lines 29-33 (and 47-51, 64-69, 101-105, 110-114): the last segment of
    the envelope [d] takes in the value [x], and is merged with the
    segments before it as long as the order of the values asks for it:
[[
  curr += (x-curr)/(i-indstart[j]+1);
  output[indjseg] = first;
  while (...) ...                                              // unwind
]] *)
Definition extend (d : dir) (W i : nat) (x : Q) (s : state) : result state :=
  let me := side d s in
  a <- rd (indstart me) (j me) ;;
  let c := curr me + (x - curr me) / dbl (uadd (usub i a) 1) in
  out1 <- wr (output s) (indjseg s) (first me) ;;
  me2 <- unwind d W i (jseg s) out1 (set_curr c me) ;;
  Ok (set_side d me2 (set_output out1 s)).

(** Lines 34-44 ([checked = false]) and 52-62, 70-80 ([checked = true]):
[[
  if (j==jseg) {
      while (...) {...}                                        // close
      if ((indstart[j=jseg]=indjseg)==i) first = other_first -+ twolambda;
      else first = curr;
  } else output[indstart[j]] = curr;
]]
    In lines 42-43 the test against [i] is absent and [first = curr]. *)
Definition settle (d : dir) (checked : bool) (W i : nat) (twolambda : Q)
    (s : state) : result state :=
  if j (side d s) =? jseg s then
    s3 <- close d W W i s ;;
    let me := side d s3 in
    let ot := side (flip d) s3 in
    ist <- wr (indstart me) (jseg s3) (indjseg s3) ;;
    let f :=
      if checked && (indjseg s3 =? i) then
        match d with
        | Low => first ot - twolambda
        | Up => first ot + twolambda
        end
      else curr me in
    Ok (set_side d (set_first f (set_j (jseg s3) (set_indstart ist me))) s3)
  else
    a <- rd (indstart (side d s)) (j (side d s)) ;;
    out' <- wr (output s) a (curr (side d s)) ;;
    Ok (set_output out' s).

Definition update (d : dir) (checked : bool) (W i : nat) (x twolambda : Q)
    (s : state) : result state :=
  s1 <- extend d W i x s ;;
  settle d checked W i twolambda s1.

(** Lines 46 and 64: a new segment of the envelope [d] starts at [i]:
[[
  curr = output[i] = input[indstart[++j] = i];
]] *)
Definition reset (d : dir) (input : list Q) (i : nat) (s : state)
  : result state :=
  let me := side d s in
  let j' := uadd (j me) 1 in
  ist <- wr (indstart me) j' i ;;
  x <- rd_in input i ;;
  out' <- wr (output s) i x ;;
  Ok (set_side d (set_curr x (set_j j' (set_indstart ist me)))
        (set_output out' s)).

(** Lines 27-81: the body of the main loop. *)
Definition step (input : list Q) (W i : nat) (twolambda : Q) (s : state)
  : result state :=
  x <- rd_in input i ;;
  if Qle_bool (curr (low s)) x then
    s1 <- (if Qle_bool x (curr (up s))
           then update Up false W i x twolambda s
           else reset Up input i s) ;;
    update Low true W i x twolambda s1
  else
    s1 <- reset Low input i s ;;
    update Up true W i (curr (low s1)) twolambda s1.

(** Line 26: [for (; i<width; i++) {...}]. *)
Fixpoint main_loop (fuel : nat) (input : list Q) (W i width : nat)
    (twolambda : Q) (s : state) : result (state * nat) :=
  if i <? width then
    match fuel with
    | O => Err OutOfFuel
    | S f =>
        s' <- step input W i twolambda s ;;
        main_loop f input W (uadd i 1) width twolambda s'
    end
  else Ok (s, i).

(** Lines 85-91 ([d = Low], [x = input[i]+lambda]) and 93-99 ([d = Up],
    [x = input[i]-lambda]). *)
Definition finish_all (d : dir) (W i : nat) (x : Q) (s : state)
  : result (list (option Q)) :=
  s1 <- flush d W W s ;;
  ' (out, k) <- fill W (output s1) (indjseg s1) i (first (side d s1)) ;;
  wr out k x.

(** Lines 115-121 and 124-130: the segments of [d] are written out, the
    last one up to the end of the buffer. *)
Definition finish_tail (d : dir) (W i : nat) (s : state)
  : result (list (option Q)) :=
  s1 <- flush d W W s ;;
  k <- rd (indstart (side d s1)) (j (side d s1)) ;;
  fill_le W (output s1) k i (curr (side d s1)).

(** Lines 84-132: the right edge. *)
Definition finish (input : list Q) (W i : nat) (lambda : Q) (s : state)
  : result (list (option Q)) :=
  x <- rd_in input i ;;
  if Qle_bool (x + lambda) (curr (low s)) then
    finish_all Low W i (x + lambda) s
  else if Qle_bool (curr (up s)) (x - lambda) then
    finish_all Up W i (x - lambda) s
  else
    s1 <- extend Low W i (x + lambda) s ;;
    if j (low s1) =? jseg s1 then
      if Qle_bool (curr (low s1)) (first (up s1)) then
        fill_le W (output s1) (indjseg s1) i (curr (low s1))
      else
        s2 <- extend Up W i (x - lambda) s1 ;;
        finish_tail Up W i s2
    else finish_tail Low W i s1.

(** Lines 8-10: [for (i = 0; i < width; i++) output[i] = input[i];] *)
Fixpoint copy (fuel : nat) (input : list Q) (out : list (option Q))
    (i width : nat) : result (list (option Q)) :=
  if i <? width then
    match fuel with
    | O => Err OutOfFuel
    | S f =>
        x <- rd_in input i ;;
        out' <- wr out i x ;;
        copy f input out' (uadd i 1) width
    end
  else Ok out.

(** ** The routine *)

Definition TV1D_denoise (input : list Q) (width : nat) (lambda : Q)
  : result (list Q) :=
  let output0 : list (option Q) := repeat None width in
  if Qeq_bool lambda 0 then
    out <- copy width input output0 0%nat width ;;
    collect out
  else
    let indstart_low : list (option nat) := repeat None width in
    let indstart_up : list (option nat) := repeat None width in
    x0 <- rd_in input 0%nat ;;
    let output_low_first := x0 - lambda in
    let output_up_first := x0 + lambda in
    let twolambda := 2 * lambda in
    if (width =? 1)%nat then
      out <- wr output0 0%nat x0 ;;
      collect out
    else
      il <- wr indstart_low 0%nat 0%nat ;;
      iu <- wr indstart_up 0%nat 0%nat ;;
      let width' := usub width 1 in
      let s0 := mkState output0
                  (mkEnv il 0%nat output_low_first output_low_first)
                  (mkEnv iu 0%nat output_up_first output_up_first)
                  0%nat 0%nat in
      ' (s, i) <- main_loop width input width 1%nat width' twolambda s0 ;;
      out <- finish input width i lambda s ;;
      collect out.

(** The denoiser on a sequence: [width] is the number of samples. *)
Definition denoise (input : list Q) (lambda : Q) : result (list Q) :=
  TV1D_denoise input (length input) lambda.

(** * The routine on segment lists

    The same computation, with the buffers replaced by what they hold: the
    finished prefix [done] of the output (the cells below [indjseg]) and,
    for each envelope, the list [mids] of its segments after the first one,
    each with its start and the value stored in [output] at that start.
    The first segment of both envelopes starts at [indjseg = length done].
    The routine is shown below to compute exactly this. *)

Record aenv : Type := mkA {
  mids : list (nat * Q);
  afirst : Q;
  acurr : Q
}.

Record astate : Type := mkAS {
  done : list Q;
  alow : aenv;
  aup : aenv
}.

Definition aside (d : dir) (a : astate) : aenv :=
  match d with Low => alow a | Up => aup a end.

Definition set_aside (d : dir) (e : aenv) (a : astate) : astate :=
  match d with
  | Low => mkAS (done a) e (aup a)
  | Up => mkAS (done a) (alow a) e
  end.

(** Start of the last segment of an envelope whose first segment starts
    at [s]. *)
Definition last_start (s : nat) (m : list (nat * Q)) : nat :=
  fst (last m (s, 0)).

(** [unwind] on the reversed list of segments. *)
Fixpoint unwind_a (d : dir) (i s : nat) (f : Q) (rm : list (nat * Q)) (c : Q)
  : list (nat * Q) * Q :=
  match rm with
  | [] => ([], c)
  | (a, _) :: rest =>
      let '(ind, v) := match rest with [] => (s, f) | p :: _ => p end in
      if cmp d c v
      then unwind_a d i s f rest
             (c + (v - c) * (dbl (a - ind) / dbl (i - ind + 1)))
      else (rm, c)
  end.

Definition extend_a (d : dir) (i : nat) (x : Q) (a : astate) : astate :=
  let me := aside d a in
  let s := length (done a) in
  let c := acurr me + (x - acurr me) / dbl (i - last_start s (mids me) + 1) in
  let '(rm, c') := unwind_a d i s (afirst me) (rev (mids me)) c in
  set_aside d (mkA (rev rm) (afirst me) c') a.

(** [close]: [m] is the value of the envelope being updated, [fo] and [om]
    the first value and the later segments of the other one. *)
Fixpoint close_a (d : dir) (i : nat) (dn : list Q) (m fo : Q)
    (om : list (nat * Q)) : list Q * Q * Q * list (nat * Q) :=
  match om with
  | [] => (dn, m, fo, om)
  | (a1, v1) :: om' =>
      if cmp d m fo
      then close_a d i (dn ++ repeat fo (a1 - length dn))
             (m + (m - fo) * (dbl (a1 - length dn) / dbl (i - a1 + 1)))
             v1 om'
      else (dn, m, fo, om)
  end.

(** The last segment gets the value [c] stored at its start. *)
Definition store_last (m : list (nat * Q)) (c : Q) : list (nat * Q) :=
  match rev m with
  | [] => []
  | (a, _) :: rest => rev ((a, c) :: rest)
  end.

Definition settle_a (d : dir) (checked : bool) (i : nat) (twolambda : Q)
    (a : astate) : astate :=
  let me := aside d a in
  let ot := aside (flip d) a in
  match mids me with
  | [] =>
      let '(dn, m, fo, om) :=
        close_a d i (done a) (acurr me) (afirst ot) (mids ot) in
      let f :=
        if checked && (length dn =? i) then
          match d with
          | Low => fo - twolambda
          | Up => fo + twolambda
          end
        else m in
      set_aside d (mkA [] f m)
        (set_aside (flip d) (mkA om fo (acurr ot)) (mkAS dn (alow a) (aup a)))
  | _ :: _ =>
      set_aside d (mkA (store_last (mids me) (acurr me)) (afirst me) (acurr me)) a
  end.

Definition update_a (d : dir) (checked : bool) (i : nat) (x twolambda : Q)
    (a : astate) : astate :=
  settle_a d checked i twolambda (extend_a d i x a).

Definition reset_a (d : dir) (i : nat) (x : Q) (a : astate) : astate :=
  let me := aside d a in
  set_aside d (mkA (mids me ++ [(i, x)]) (afirst me) x) a.

Definition step_a (i : nat) (x twolambda : Q) (a : astate) : astate :=
  if Qle_bool (acurr (alow a)) x then
    update_a Low true i x twolambda
      (if Qle_bool x (acurr (aup a))
       then update_a Up false i x twolambda a
       else reset_a Up i x a)
  else
    update_a Up true i x twolambda (reset_a Low i x a).

(** The main loop over the samples [input[i]], [input[i+1]], ... given as the
    list [xs]. *)
Fixpoint main_a (xs : list Q) (i : nat) (twolambda : Q) (a : astate)
  : astate :=
  match xs with
  | [] => a
  | x :: xs' => main_a xs' (S i) twolambda (step_a i x twolambda a)
  end.

(** [flush]: the segments [(length dn, f) :: m] but the last are written
    out; the result is the finished prefix, and the start offset is where the
    last segment begins. *)
Fixpoint flush_a (dn : list Q) (f : Q) (m : list (nat * Q))
  : list Q * Q :=
  match m with
  | [] => (dn, f)
  | (a1, v1) :: m' => flush_a (dn ++ repeat f (a1 - length dn)) v1 m'
  end.

Definition finish_all_a (d : dir) (i : nat) (x : Q) (a : astate) : list Q :=
  let '(dn, f) := flush_a (done a) (afirst (aside d a)) (mids (aside d a)) in
  dn ++ repeat f (i - length dn) ++ [x].

Definition finish_tail_a (d : dir) (i : nat) (a : astate) : list Q :=
  let '(dn, _) := flush_a (done a) (afirst (aside d a)) (mids (aside d a)) in
  dn ++ repeat (acurr (aside d a)) (S i - length dn).

Definition finish_a (i : nat) (x lambda : Q) (a : astate) : list Q :=
  if Qle_bool (x + lambda) (acurr (alow a)) then
    finish_all_a Low i (x + lambda) a
  else if Qle_bool (acurr (aup a)) (x - lambda) then
    finish_all_a Up i (x - lambda) a
  else
    let a1 := extend_a Low i (x + lambda) a in
    match mids (alow a1) with
    | [] =>
        if Qle_bool (acurr (alow a1)) (afirst (aup a1)) then
          done a1 ++ repeat (acurr (alow a1)) (S i - length (done a1))
        else finish_tail_a Up i (extend_a Up i (x - lambda) a1)
    | _ :: _ => finish_tail_a Low i a1
    end.

(** The routine for [lambda <> 0] on an input [x0 :: xs ++ [xl]] of at least
    two samples. *)
Definition init_a (x0 lambda : Q) : astate :=
  mkAS [] (mkA [] (x0 - lambda) (x0 - lambda))
          (mkA [] (x0 + lambda) (x0 + lambda)).

Definition denoise_a (x0 : Q) (xs : list Q) (xl : Q) (lambda : Q) : list Q :=
  finish_a (S (length xs)) xl lambda
    (main_a xs 1%nat (2 * lambda) (init_a x0 lambda)).

(** A value that an [unsigned int] can hold. *)
Definition fits (n : nat) : Prop := (Z.of_nat n < 2 ^ 32)%Z.

(** * How the buffers hold the segment lists *)

(** [inc lo l hi]: the indices [l] increase strictly and lie strictly
    between [lo] and [hi]. *)
Fixpoint inc (lo : nat) (l : list nat) (hi : nat) : Prop :=
  match l with
  | [] => (lo < hi)%nat
  | a :: t => (lo < a)%nat /\ inc a t hi
  end.

(** The segment starts of [m] sit in [ist] from index [jseg0 + 1] on, and
    their values in [out] at these starts. *)
Definition holds (ist : list (option nat)) (out : list (option Q))
    (jseg0 : nat) (m : list (nat * Q)) : Prop :=
  forall k a v, nth_error m k = Some (a, v) ->
    nth_error ist (jseg0 + 1 + k) = Some (Some a) /\
    nth_error out a = Some (Some v).

(** One envelope [e] of the state holds [ae]; [h] bounds its segment
    starts. *)
Record RepEnv (W jseg0 indjseg0 : nat) (out : list (option Q)) (h : nat)
    (e : env) (ae : aenv) : Prop := mkRepEnv {
  re_len : length (indstart e) = W;
  re_j : j e = (jseg0 + length (mids ae))%nat;
  re_first : first e = afirst ae;
  re_curr : curr e = acurr ae;
  re_start : nth_error (indstart e) jseg0 = Some (Some indjseg0);
  re_holds : holds (indstart e) out jseg0 (mids ae);
  re_inc : inc indjseg0 (map fst (mids ae)) h
}.

(** The finished prefix. *)
Record RepCore (W : nat) (out : list (option Q)) (jseg0 indjseg0 : nat)
    (dn : list Q) : Prop := mkRepCore {
  rc_len : length out = W;
  rc_ind : indjseg0 = length dn;
  rc_jseg : (jseg0 <= indjseg0)%nat;
  rc_done : forall k x, nth_error dn k = Some x ->
              nth_error out k = Some (Some x)
}.

(** The state [s] holds [a]; the segment starts of the lower envelope are
    below [hl], those of the upper one below [hu]. *)
Record Rep (W hl hu : nat) (s : state) (a : astate) : Prop := mkRep {
  rp_core : RepCore W (output s) (jseg s) (indjseg s) (done a);
  rp_low : RepEnv W (jseg s) (indjseg s) (output s) hl (low s) (alow a);
  rp_up : RepEnv W (jseg s) (indjseg s) (output s) hu (up s) (aup a);
  rp_disj : forall x, In x (map fst (mids (alow a))) ->
              In x (map fst (mids (aup a))) -> False;
  rp_hl : (hl <= W)%nat;
  rp_hu : (hu <= W)%nat
}.

(** The bound of the envelope [d]. *)
Definition hside (d : dir) (hl hu : nat) : nat :=
  match d with Low => hl | Up => hu end.

(** The bounds after the bound of [d] has become [h]. *)
Definition set_h (d : dir) (h hl hu : nat) : nat * nat :=
  match d with Low => (h, hu) | Up => (hl, h) end.

(** The buffer [out] with the cells [k, k+n) set to [v]. *)
Fixpoint fill_cells (out : list (option Q)) (k n : nat) (v : Q)
  : list (option Q) :=
  match n with
  | O => out
  | S n' => fill_cells (put out k (Some v)) (S k) n' v
  end.

(** * The objective *)

Fixpoint sumQ (l : list Q) : Q :=
  match l with
  | [] => 0
  | x :: l' => x + sumQ l'
  end.

(** [sq_dist x y] is [Sum_i (x_i - y_i)^2]. *)
Fixpoint sq_dist (x y : list Q) : Q :=
  match x, y with
  | a :: x', b :: y' => (a - b) * (a - b) + sq_dist x' y'
  | _, _ => 0
  end.

(** [total_variation x] is [Sum_i |x_{i+1} - x_i|]. *)
Fixpoint total_variation (x : list Q) : Q :=
  match x with
  | [] => 0
  | a :: x' =>
      match x' with
      | [] => 0
      | b :: _ => Qabs (b - a) + total_variation x'
      end
  end.

(** The objective as the specification writes it:
    [Sum_i (x_i - input_i)^2 + lambda * Sum_i |x_{i+1} - x_i|]. *)
Definition spec_objective (input : list Q) (lambda : Q) (x : list Q) : Q :=
  sq_dist x input + lambda * total_variation x.

(** The objective that the routine minimises:
    [1/2 * Sum_i (x_i - input_i)^2 + lambda * Sum_i |x_{i+1} - x_i|]. *)
Definition objective (input : list Q) (lambda : Q) (x : list Q) : Q :=
  (1 # 2) * sq_dist x input + lambda * total_variation x.

(** Element-wise equality of values. *)
Definition eqlist (x y : list Q) : Prop := Forall2 Qeq x y.

(** * Certificates of optimality

    With [y] the samples, [G y k] is the sum of the samples below [k].  For
    an output [x], the offset at [k] is [Sum_{j<k} (x_j - y_j)].  The output
    is optimal when every offset lies in [[-lambda, lambda]], the offset is
    [lambda] where the output steps up and [-lambda] where it steps down,
    and the last offset is [0]. *)

Fixpoint G (y : nat -> Q) (k : nat) : Q :=
  match k with
  | O => 0
  | S k' => G y k' + y k'
  end.

(** [cert y lambda k u prev l]: the values [l] lie at the indices [k],
    [k+1], ...; [prev] is the value at [k-1] and [u] the offset at [k]. *)
Fixpoint cert (y : nat -> Q) (lambda : Q) (k : nat) (u prev : Q) (l : list Q)
  : Prop :=
  match l with
  | [] => True
  | x :: l' =>
      - lambda <= u /\ u <= lambda /\
      (prev < x -> u == lambda) /\ (x < prev -> u == - lambda) /\
      cert y lambda (S k) (u + (x - y k)) x l'
  end.

Definition cert_list (y : nat -> Q) (lambda : Q) (l : list Q) : Prop :=
  match l with
  | [] => True
  | x0 :: l' => cert y lambda 1 (x0 - y 0%nat) x0 l'
  end.

(** The samples of an input as a function of the index. *)
Definition samples (input : list Q) (k : nat) : Q := nth k input 0.

(** * Envelopes as chains of segments *)

Definition sg (d : dir) : Q :=
  match d with Up => 1 | Low => - (1) end.

(** The offset at [k] of the line that starts at [a] with offset [c] and
    has the value [v]. *)
Definition off (y : nat -> Q) (c : Q) (a : nat) (v : Q) (k : nat) : Q :=
  c + v * (dbl k - dbl a) - (G y k - G y a).

(** The line stays on the inner side of the bound of [d] on [(a, e]]. *)
Definition seg_ok (d : dir) (y : nat -> Q) (lambda c : Q) (a : nat) (v : Q)
    (e : nat) : Prop :=
  forall k, (a < k <= e)%nat -> sg d * off y c a v k <= lambda.

(** [geo d y lambda c segs e t]: the segments [segs], given by start and
    value, start with offset [c], meet the bound of [d] where one ends and
    the next begins, stay on the inner side of this bound, and end at [e]
    with offset [t]. *)
Fixpoint geo (d : dir) (y : nat -> Q) (lambda c : Q) (segs : list (nat * Q))
    (e : nat) (t : Q) : Prop :=
  match segs with
  | [] => False
  | (a, v) :: rest =>
      match rest with
      | [] => (a < e)%nat /\ seg_ok d y lambda c a v e /\ off y c a v e == t
      | (a', _) :: _ =>
          (a < a')%nat /\ seg_ok d y lambda c a v a' /\
          off y c a v a' == sg d * lambda /\
          geo d y lambda (sg d * lambda) rest e t
      end
  end.

(** The values increase strictly along the upper envelope and decrease
    strictly along the lower one. *)
Fixpoint mono (d : dir) (l : list Q) : Prop :=
  match l with
  | [] => True
  | v :: rest =>
      match rest with
      | [] => True
      | v' :: _ => sg d * v < sg d * v' /\ mono d rest
      end
  end.

Definition chain (d : dir) (y : nat -> Q) (lambda c : Q)
    (segs : list (nat * Q)) (e : nat) (t : Q) : Prop :=
  geo d y lambda c segs e t /\ mono d (map snd segs).

(** A chain whose last value may break the order. *)
Definition prechain (d : dir) (y : nat -> Q) (lambda c : Q)
    (segs : list (nat * Q)) (e : nat) (t : Q) : Prop :=
  geo d y lambda c segs e t /\ mono d (map snd (removelast segs)).

(** The segments of an envelope: the first one starts at [s] with the
    value [f], the last one has the value [c]; [rm] are the segments after
    the first, the last one first. *)
Definition effr (s : nat) (f : Q) (rm : list (nat * Q)) (c : Q)
  : list (nat * Q) :=
  match rm with
  | [] => [(s, c)]
  | (a, _) :: rest => (s, f) :: rev rest ++ [(a, c)]
  end.

Definition eff (s : nat) (e : aenv) : list (nat * Q) :=
  effr s (afirst e) (rev (mids e)) (acurr e).

(** Between two passes of the main loop, the value of the last segment is
    also the one stored for it. *)
Definition normal (e : aenv) : Prop :=
  match rev (mids e) with
  | [] => afirst e == acurr e
  | (_, v) :: _ => v == acurr e
  end.

(** The offset where the finished prefix ends, and its last value. *)
Definition knot (y : nat -> Q) (dn : list Q) : Q :=
  sumQ dn - G y (length dn).

Definition lastv (dn : list Q) : Q := last dn 0.

(** The invariant of the main loop: [el] and [eu] are the indices where the
    lower and the upper envelope end. *)
Record Inv (y : nat -> Q) (lambda : Q) (el eu : nat) (a : astate) : Prop :=
  mkInv {
  iv_cert : cert_list y lambda (done a);
  iv_low : chain Low y lambda (knot y (done a))
             (eff (length (done a)) (alow a)) el (sg Low * lambda);
  iv_up : chain Up y lambda (knot y (done a))
            (eff (length (done a)) (aup a)) eu (sg Up * lambda);
  iv_nlow : normal (alow a);
  iv_nup : normal (aup a);
  iv_first : afirst (alow a) <= afirst (aup a);
  iv_knot : done a = [] \/
            (knot y (done a) == - lambda /\ afirst (aup a) <= lastv (done a)) \/
            (knot y (done a) == lambda /\ lastv (done a) <= afirst (alow a))
}.

(** The end of the envelope [d]. *)
Definition eside (d : dir) (el eu : nat) : nat :=
  match d with Low => el | Up => eu end.

(** [m] is the value of the segment from [ind] to [e] that replaces a
    segment of value [v] from [ind] to [a] and one of value [c] from [a] to
    [e]. *)
Definition merged (m v c : Q) (ind a e : nat) : Prop :=
  m * (dbl e - dbl ind) == v * (dbl a - dbl ind) + c * (dbl e - dbl a).

(** The segments of an envelope but the last, and the start of the last. *)
Definition eff_init (s : nat) (f : Q) (rm : list (nat * Q)) : list (nat * Q) :=
  match rm with
  | [] => []
  | _ :: rest => (s, f) :: rev rest
  end.

Definition eff_last (s : nat) (rm : list (nat * Q)) : nat :=
  match rm with
  | [] => s
  | (a, _) :: _ => a
  end.

(** The value of the first segment of an envelope. *)
Definition eff_first (e : aenv) : Q :=
  match mids e with
  | [] => acurr e
  | _ :: _ => afirst e
  end.

(** The value [v] may follow the finished prefix [dn]. *)
Definition jump_ok (y : nat -> Q) (lambda : Q) (dn : list Q) (v : Q) : Prop :=
  dn = [] \/
  (knot y dn == - lambda /\ v <= lastv dn) \/
  (knot y dn == lambda /\ lastv dn <= v).

(** The invariant of the loop [close] for the envelope [d]: [m] is the
    value of its only segment, [fo] and [om] are the first value and the
    later segments of the other envelope, which ends at [eo] with the
    value [co]. *)
Record CloseInv (d : dir) (y : nat -> Q) (lambda : Q) (i eo : nat) (co : Q)
    (dn : list Q) (m fo : Q) (om : list (nat * Q)) : Prop := mkCloseInv {
  ci_cert : cert_list y lambda dn;
  ci_me : geo d y lambda (knot y dn) [(length dn, m)] (S i) (sg d * lambda);
  ci_ot : chain (flip d) y lambda (knot y dn)
            (eff (length dn) (mkA om fo co)) eo (sg (flip d) * lambda);
  ci_not : normal (mkA om fo co);
  ci_tb : seg_ok d y lambda (knot y dn) (length dn) fo i;
  ci_jfo : jump_ok y lambda dn fo;
  ci_jm : dn <> [] -> knot y dn == - (sg d * lambda) ->
          sg d * m <= sg d * lastv dn;
  ci_s : (length dn < i)%nat \/ knot y dn == - (sg d * lambda)
}.

(** The ends of the lower and of the upper envelope, when the envelope [d]
    ends at [ed] and the other one at [eo]. *)
Definition ends (d : dir) (ed eo : nat) : nat * nat :=
  match d with Low => (ed, eo) | Up => (eo, ed) end.

(** The invariant of the main loop, seen from the envelope [d]. *)
Record InvD (d : dir) (y : nat -> Q) (lambda : Q) (ed eo : nat) (a : astate)
  : Prop := mkInvD {
  id_cert : cert_list y lambda (done a);
  id_me : chain d y lambda (knot y (done a))
            (eff (length (done a)) (aside d a)) ed (sg d * lambda);
  id_ot : chain (flip d) y lambda (knot y (done a))
            (eff (length (done a)) (aside (flip d) a)) eo
            (sg (flip d) * lambda);
  id_nme : normal (aside d a);
  id_not : normal (aside (flip d) a);
  id_first : sg d * afirst (aside (flip d) a) <= sg d * afirst (aside d a);
  id_knot : done a = [] \/
            (knot y (done a) == - (sg d * lambda) /\
             sg d * afirst (aside d a) <= sg d * lastv (done a)) \/
            (knot y (done a) == sg d * lambda /\
             sg d * lastv (done a) <= sg d * afirst (aside (flip d) a))
}.

(** A call that is refused: the result is an error. *)
Definition rejected {A : Type} (r : result A) : Prop :=
  match r with
  | Err _ => True
  | Ok _ => False
  end.

(** * The offsets of an output, sample by sample *)

(** [offset input out k] is [Sum_{j<k} (out_j - input_j)]. *)
Definition offset (input out : list Q) (k : nat) : Q :=
  sumQ (firstn k out) - sumQ (firstn k input).

(** The certificate of [cert_list], read index by index: the offsets stay
    in [[-lambda, lambda]], the offset is [lambda] where the output steps
    up and [-lambda] where it steps down, and the last offset is [0]. *)
Definition certified (input : list Q) (lambda : Q) (out : list Q) : Prop :=
  length out = length input /\
  (forall k, (k <= length input)%nat ->
     - lambda <= offset input out k /\ offset input out k <= lambda) /\
  (forall k, (S k < length input)%nat ->
     (nth k out 0 < nth (S k) out 0 -> offset input out (S k) == lambda) /\
     (nth (S k) out 0 < nth k out 0 -> offset input out (S k) == - lambda)) /\
  offset input out (length input) == 0.

(** The samples never decrease. *)
Definition nondecreasing (l : list Q) : Prop :=
  forall k, (S k < length l)%nat -> nth k l 0 <= nth (S k) l 0.

(** The mean of the samples. *)
Definition mean (l : list Q) : Q := sumQ l / dbl (length l).

(** * The routine over an arithmetic

    [TV1D_denoise] above reads the arithmetic of the routine over exact
    numbers.  The program computes in [double] and stores into [float]
    cells.  [Gen] is the routine once more, block by block and under the
    same names, with its arithmetic left open: an [arith] gives the type
    of the cells of [input] and [output] ([float]), the type of the
    running values ([double]), the conversions between them and the
    operations the routine uses.  Buffers, indices, errors and fuel are
    those of the model above. *)

Module Gen.

Record arith : Type := mkArith {
  sample : Type;                    (* float *)
  real : Type;                      (* double *)
  promote : sample -> real;         (* a float used in double arithmetic *)
  store : real -> sample;           (* a double stored into a float cell *)
  add : real -> real -> real;
  sub : real -> real -> real;
  mul : real -> real -> real;
  div : real -> real -> real;
  of_uint : nat -> real;            (* an unsigned int converted to double *)
  le : real -> real -> bool;        (* a <= b *)
  is_zero : real -> bool;           (* a == 0 *)
  two : real                        (* 2.0 *)
}.

Section Routine.

Variable A : arith.

Local Notation "x +! y" := (add A x y) (at level 50, left associativity).
Local Notation "x -! y" := (sub A x y) (at level 50, left associativity).
Local Notation "x *! y" := (mul A x y) (at level 40, left associativity).
Local Notation "x /! y" := (div A x y) (at level 40, left associativity).

Record env : Type := mkEnv {
  indstart : list (option nat);  (* indstart_low / indstart_up *)
  j : nat;                       (* j_low / j_up *)
  first : real A;                (* output_low_first / output_up_first *)
  curr : real A                  (* output_low_curr / output_up_curr *)
}.

Record state : Type := mkState {
  output : list (option (sample A));
  low : env;
  up : env;
  jseg : nat;
  indjseg : nat
}.

Definition set_indstart (a : list (option nat)) (e : env) : env :=
  mkEnv a (j e) (first e) (curr e).
Definition set_j (n : nat) (e : env) : env :=
  mkEnv (indstart e) n (first e) (curr e).
Definition set_first (v : real A) (e : env) : env :=
  mkEnv (indstart e) (j e) v (curr e).
Definition set_curr (v : real A) (e : env) : env :=
  mkEnv (indstart e) (j e) (first e) v.

Definition side (d : dir) (s : state) : env :=
  match d with Low => low s | Up => up s end.

Definition set_side (d : dir) (e : env) (s : state) : state :=
  match d with
  | Low => mkState (output s) e (up s) (jseg s) (indjseg s)
  | Up => mkState (output s) (low s) e (jseg s) (indjseg s)
  end.

Definition set_output (o : list (option (sample A))) (s : state) : state :=
  mkState o (low s) (up s) (jseg s) (indjseg s).
Definition set_jseg (n : nat) (s : state) : state :=
  mkState (output s) (low s) (up s) n (indjseg s).
Definition set_indjseg (n : nat) (s : state) : state :=
  mkState (output s) (low s) (up s) (jseg s) n.

(** [input[k]], a [float]. *)
Definition rd_in (input : list (sample A)) (k : nat) : result (sample A) :=
  match nth_error input k with
  | None => Err OutOfBounds
  | Some v => Ok v
  end.

(** The buffer handed back to the caller. *)
Fixpoint collect (a : list (option (sample A))) : result (list (sample A)) :=
  match a with
  | [] => Ok []
  | None :: _ => Err Uninitialised
  | Some v :: t => l <- collect t ;; Ok (v :: l)
  end.

(** [a <= b] for the upper envelope, [a >= b] for the lower one. *)
Definition cmp (d : dir) (a b : real A) : bool :=
  match d with
  | Up => le A a b
  | Low => le A b a
  end.

(** [while (indjseg < indjseg2) output[indjseg++] = v;] with [v] a
    [double]: every store converts it to [float]. *)
Fixpoint fill (fuel : nat) (out : list (option (sample A))) (k k2 : nat)
    (v : real A) : result (list (option (sample A)) * nat) :=
  if k <? k2 then
    match fuel with
    | O => Err OutOfFuel
    | S f => out' <- wr out k (store A v) ;; fill f out' (uadd k 1) k2 v
    end
  else Ok (out, k).

(** Lines 31-33, 49-51, 67-69, 103-105 and 112-114; [output[ind]] is a
    [float] read into [double] arithmetic. *)
Fixpoint unwind (d : dir) (fuel : nat) (i jseg0 : nat)
    (out : list (option (sample A))) (e : env) : result env :=
  if jseg0 <? j e then
    ind <- rd (indstart e) (usub (j e) 1) ;;
    v <- rd out ind ;;
    if cmp d (curr e) (promote A v) then
      match fuel with
      | O => Err OutOfFuel
      | S f =>
          a <- rd (indstart e) (j e) ;;
          let c := curr e +! (promote A v -! curr e)
                     *! (of_uint A (usub a ind)
                         /! of_uint A (uadd (usub i ind) 1)) in
          unwind d f i jseg0 out (set_j (usub (j e) 1) (set_curr c e))
      end
    else Ok e
  else Ok e.

(** Lines 35-41, 53-59 and 71-77. *)
Fixpoint close (d : dir) (fuel W : nat) (i : nat) (s : state) : result state :=
  let me := side d s in
  let ot := side (flip d) s in
  if cmp d (curr me) (first ot) && (jseg s <? j ot) then
    match fuel with
    | O => Err OutOfFuel
    | S f =>
        let jseg' := uadd (jseg s) 1 in
        indjseg2 <- rd (indstart ot) jseg' ;;
        let c := curr me +! (curr me -! first ot)
                   *! (of_uint A (usub indjseg2 (indjseg s))
                       /! of_uint A (uadd (usub i indjseg2) 1)) in
        ' (out', k) <- fill W (output s) (indjseg s) indjseg2 (first ot) ;;
        v <- rd out' k ;;
        close d f W i
          (set_indjseg k
             (set_jseg jseg'
                (set_side (flip d) (set_first (promote A v) ot)
                   (set_side d (set_curr c me) (set_output out' s)))))
    end
  else Ok s.

(** Lines 85-89, 93-97, 115-119 and 124-128. *)
Fixpoint flush (d : dir) (fuel W : nat) (s : state) : result state :=
  let me := side d s in
  if jseg s <? j me then
    match fuel with
    | O => Err OutOfFuel
    | S f =>
        let jseg' := uadd (jseg s) 1 in
        indjseg2 <- rd (indstart me) jseg' ;;
        ' (out', k) <- fill W (output s) (indjseg s) indjseg2 (first me) ;;
        v <- rd out' k ;;
        flush d f W
          (set_indjseg k
             (set_jseg jseg'
                (set_side d (set_first (promote A v) me)
                   (set_output out' s))))
    end
  else Ok s.

(** [while (indjseg <= i) output[indjseg++] = v;] *)
Fixpoint fill_le (fuel : nat) (out : list (option (sample A))) (k i : nat)
    (v : real A) : result (list (option (sample A))) :=
  if k <=? i then
    match fuel with
    | O => Err OutOfFuel
    | S f => out' <- wr out k (store A v) ;; fill_le f out' (uadd k 1) i v
    end
  else Ok out.

(** Lines 29-33 (and 47-51, 64-69, 101-105, 110-114). *)
Definition extend (d : dir) (W i : nat) (x : real A) (s : state)
  : result state :=
  let me := side d s in
  a <- rd (indstart me) (j me) ;;
  let c := curr me +! (x -! curr me) /! of_uint A (uadd (usub i a) 1) in
  out1 <- wr (output s) (indjseg s) (store A (first me)) ;;
  me2 <- unwind d W i (jseg s) out1 (set_curr c me) ;;
  Ok (set_side d me2 (set_output out1 s)).

(** Lines 34-44 ([checked = false]) and 52-62, 70-80 ([checked = true]). *)
Definition settle (d : dir) (checked : bool) (W i : nat) (twolambda : real A)
    (s : state) : result state :=
  if j (side d s) =? jseg s then
    s3 <- close d W W i s ;;
    let me := side d s3 in
    let ot := side (flip d) s3 in
    ist <- wr (indstart me) (jseg s3) (indjseg s3) ;;
    let f :=
      if checked && (indjseg s3 =? i) then
        match d with
        | Low => first ot -! twolambda
        | Up => first ot +! twolambda
        end
      else curr me in
    Ok (set_side d (set_first f (set_j (jseg s3) (set_indstart ist me))) s3)
  else
    a <- rd (indstart (side d s)) (j (side d s)) ;;
    out' <- wr (output s) a (store A (curr (side d s))) ;;
    Ok (set_output out' s).

Definition update (d : dir) (checked : bool) (W i : nat)
    (x twolambda : real A) (s : state) : result state :=
  s1 <- extend d W i x s ;;
  settle d checked W i twolambda s1.

(** Lines 46 and 64: [curr = output[i] = input[indstart[++j] = i];] the
    value given to [curr] is that of the [float] cell. *)
Definition reset (d : dir) (input : list (sample A)) (i : nat) (s : state)
  : result state :=
  let me := side d s in
  let j' := uadd (j me) 1 in
  ist <- wr (indstart me) j' i ;;
  x <- rd_in input i ;;
  out' <- wr (output s) i x ;;
  Ok (set_side d (set_curr (promote A x) (set_j j' (set_indstart ist me)))
        (set_output out' s)).

(** Lines 27-81: the body of the main loop. *)
Definition step (input : list (sample A)) (W i : nat) (twolambda : real A)
    (s : state) : result state :=
  x <- rd_in input i ;;
  if le A (curr (low s)) (promote A x) then
    s1 <- (if le A (promote A x) (curr (up s))
           then update Up false W i (promote A x) twolambda s
           else reset Up input i s) ;;
    update Low true W i (promote A x) twolambda s1
  else
    s1 <- reset Low input i s ;;
    update Up true W i (curr (low s1)) twolambda s1.

(** Line 26: [for (; i<width; i++) {...}]. *)
Fixpoint main_loop (fuel : nat) (input : list (sample A)) (W i width : nat)
    (twolambda : real A) (s : state) : result (state * nat) :=
  if i <? width then
    match fuel with
    | O => Err OutOfFuel
    | S f =>
        s' <- step input W i twolambda s ;;
        main_loop f input W (uadd i 1) width twolambda s'
    end
  else Ok (s, i).

(** Lines 85-91 and 93-99. *)
Definition finish_all (d : dir) (W i : nat) (x : real A) (s : state)
  : result (list (option (sample A))) :=
  s1 <- flush d W W s ;;
  ' (out, k) <- fill W (output s1) (indjseg s1) i (first (side d s1)) ;;
  wr out k (store A x).

(** Lines 115-121 and 124-130. *)
Definition finish_tail (d : dir) (W i : nat) (s : state)
  : result (list (option (sample A))) :=
  s1 <- flush d W W s ;;
  k <- rd (indstart (side d s1)) (j (side d s1)) ;;
  fill_le W (output s1) k i (curr (side d s1)).

(** Lines 84-132: the right edge. *)
Definition finish (input : list (sample A)) (W i : nat) (lambda : real A)
    (s : state) : result (list (option (sample A))) :=
  x <- rd_in input i ;;
  if le A (promote A x +! lambda) (curr (low s)) then
    finish_all Low W i (promote A x +! lambda) s
  else if le A (curr (up s)) (promote A x -! lambda) then
    finish_all Up W i (promote A x -! lambda) s
  else
    s1 <- extend Low W i (promote A x +! lambda) s ;;
    if j (low s1) =? jseg s1 then
      if le A (curr (low s1)) (first (up s1)) then
        fill_le W (output s1) (indjseg s1) i (curr (low s1))
      else
        s2 <- extend Up W i (promote A x -! lambda) s1 ;;
        finish_tail Up W i s2
    else finish_tail Low W i s1.

(** Lines 8-10: [for (i = 0; i < width; i++) output[i] = input[i];] *)
Fixpoint copy (fuel : nat) (input : list (sample A))
    (out : list (option (sample A))) (i width : nat)
  : result (list (option (sample A))) :=
  if i <? width then
    match fuel with
    | O => Err OutOfFuel
    | S f =>
        x <- rd_in input i ;;
        out' <- wr out i x ;;
        copy f input out' (uadd i 1) width
    end
  else Ok out.

Definition TV1D_denoise (input : list (sample A)) (width : nat)
    (lambda : real A) : result (list (sample A)) :=
  let output0 : list (option (sample A)) := repeat None width in
  if is_zero A lambda then
    out <- copy width input output0 0%nat width ;;
    collect out
  else
    let indstart_low : list (option nat) := repeat None width in
    let indstart_up : list (option nat) := repeat None width in
    x0 <- rd_in input 0%nat ;;
    let output_low_first := promote A x0 -! lambda in
    let output_up_first := promote A x0 +! lambda in
    let twolambda := two A *! lambda in
    if (width =? 1)%nat then
      out <- wr output0 0%nat x0 ;;
      collect out
    else
      il <- wr indstart_low 0%nat 0%nat ;;
      iu <- wr indstart_up 0%nat 0%nat ;;
      let width' := usub width 1 in
      let s0 := mkState output0
                  (mkEnv il 0%nat output_low_first output_low_first)
                  (mkEnv iu 0%nat output_up_first output_up_first)
                  0%nat 0%nat in
      ' (s, i) <- main_loop width input width 1%nat width' twolambda s0 ;;
      out <- finish input width i lambda s ;;
      collect out.

Definition denoise (input : list (sample A)) (lambda : real A)
  : result (list (sample A)) :=
  TV1D_denoise input (length input) lambda.

End Routine.

End Gen.

(** ** The arithmetic of the program

    IEEE 754 arithmetic as [SpecFloat] defines it: [float] is binary32,
    [double] is binary64, every operation rounds once, to nearest with
    ties to even.  A value is kept in the canonical form of its format, so
    that [SFcompare] compares values. *)

Module FP.

Definition float : Type := spec_float.
Definition double : Type := spec_float.

(** [float] to [double]: exact. *)
Definition to_double (x : float) : double :=
  match x with
  | S754_finite s m e => binary_round 53 1024 s m e
  | _ => x
  end.

(** [double] to [float]: rounded. *)
Definition to_float (x : double) : float :=
  match x with
  | S754_finite s m e => binary_round 24 128 s m e
  | _ => x
  end.

(** [unsigned int] to [double]: exact. *)
Definition of_uint (n : nat) : double :=
  binary_normalize 53 1024 (Z.of_nat n) 0 false.

Definition binary64 : Gen.arith :=
  Gen.mkArith float double to_double to_float
    (SFadd 53 1024) (SFsub 53 1024) (SFmul 53 1024) (SFdiv 53 1024)
    of_uint SFleb (fun a => SFeqb a (S754_zero false))
    (binary_normalize 53 1024 2 0 false).

(** The program. *)
Definition TV1D_denoise (input : list float) (width : nat) (lambda : double)
  : result (list float) :=
  Gen.TV1D_denoise binary64 input width lambda.

Definition denoise (input : list float) (lambda : double)
  : result (list float) :=
  TV1D_denoise input (length input) lambda.

(** The [float] and the [double] of value [m * 2^e]. *)
Definition float_of (m e : Z) : float := binary_normalize 24 128 m e false.
Definition double_of (m e : Z) : double := binary_normalize 53 1024 m e false.

(** The number that a finite [float] or [double] stands for. *)
Definition value (x : spec_float) : Q :=
  match x with
  | S754_finite s m e =>
      (if s then - inject_Z (Zpos m) else inject_Z (Zpos m)) * Qpower 2 e
  | _ => 0
  end.

Definition finite (x : spec_float) : bool :=
  match x with
  | S754_finite _ _ _ | S754_zero _ => true
  | _ => false
  end.

End FP.

(** ** The arithmetic of exact numbers *)

Definition exact : Gen.arith :=
  Gen.mkArith Q Q (fun x => x) (fun x => x) Qplus Qminus Qmult Qdiv
    dbl Qle_bool (fun a => Qeq_bool a 0) 2.

(** A state of [Gen] over exact numbers, as a state of the model above. *)
Definition exact_env (e : Gen.env exact) : env :=
  mkEnv (Gen.indstart exact e) (Gen.j exact e) (Gen.first exact e)
    (Gen.curr exact e).

Definition exact_state (s : Gen.state exact) : state :=
  mkState (Gen.output exact s) (exact_env (Gen.low exact s))
    (exact_env (Gen.up exact s)) (Gen.jseg exact s) (Gen.indjseg exact s).

Definition rmap {X Y : Type} (f : X -> Y) (r : result X) : result Y :=
  match r with
  | Ok a => Ok (f a)
  | Err e => Err e
  end.

(** * Unsigned arithmetic without wrap-around *)

Lemma uadd_small (a b : nat) : fits (a + b) -> uadd a b = (a + b)%nat.
Proof.
  unfold fits, uadd, u32. intros H.
  rewrite Z.mod_small by lia. lia.
Qed.

Lemma usub_small (a b : nat) : (b <= a)%nat -> fits a -> usub a b = (a - b)%nat.
Proof.
  unfold fits, usub, u32. intros H H0.
  rewrite Z.mod_small by lia. lia.
Qed.

Lemma fits_le (a b : nat) : (a <= b)%nat -> fits b -> fits a.
Proof. unfold fits. lia. Qed.

(** * Buffers *)

Lemma length_put {A : Type} (a : list A) (k : nat) (v : A) :
  length (put a k v) = length a.
Proof.
  revert k. induction a as [|h t IH]; intros [|k]; simpl; auto.
Qed.

Lemma nth_error_put_eq {A : Type} (a : list A) (k : nat) (v : A) :
  (k < length a)%nat -> nth_error (put a k v) k = Some v.
Proof.
  revert k. induction a as [|h t IH]; intros [|k] H; simpl in *;
    try lia; auto. apply IH. lia.
Qed.

Lemma nth_error_put_neq {A : Type} (a : list A) (k n : nat) (v : A) :
  n <> k -> nth_error (put a k v) n = nth_error a n.
Proof.
  revert k n. induction a as [|h t IH]; intros [|k] [|n] H; simpl;
    auto; try congruence.
Qed.

Lemma rd_ok {A : Type} (a : list (option A)) (k : nat) (v : A) :
  nth_error a k = Some (Some v) -> rd a k = Ok v.
Proof. unfold rd. intros ->. reflexivity. Qed.

Lemma wr_ok {A : Type} (a : list (option A)) (k : nat) (v : A) :
  (k < length a)%nat -> wr a k v = Ok (put a k (Some v)).
Proof.
  unfold wr. intros H. apply Nat.ltb_lt in H. rewrite H. reflexivity.
Qed.

Lemma rd_in_ok (input : list Q) (k : nat) (v : Q) :
  nth_error input k = Some v -> rd_in input k = Ok v.
Proof. unfold rd_in. intros ->. reflexivity. Qed.

Lemma length_fill_cells (out : list (option Q)) (k n : nat) (v : Q) :
  length (fill_cells out k n v) = length out.
Proof.
  revert out k. induction n as [|n IH]; intros out k; simpl; auto.
  rewrite IH. apply length_put.
Qed.

Lemma nth_fill_cells_out (out : list (option Q)) (k n x : nat) (v : Q) :
  (x < k \/ k + n <= x)%nat ->
  nth_error (fill_cells out k n v) x = nth_error out x.
Proof.
  revert out k. induction n as [|n IH]; intros out k H; simpl; auto.
  rewrite IH by lia. apply nth_error_put_neq. lia.
Qed.

Lemma nth_fill_cells_in (out : list (option Q)) (k n x : nat) (v : Q) :
  (k <= x < k + n)%nat -> (k + n <= length out)%nat ->
  nth_error (fill_cells out k n v) x = Some (Some v).
Proof.
  revert out k. induction n as [|n IH]; intros out k H H0; simpl.
  - lia.
  - destruct (Nat.eq_dec x k) as [->|Hne].
    + rewrite nth_fill_cells_out by lia. apply nth_error_put_eq. lia.
    + apply IH; [lia | rewrite length_put; lia].
Qed.

Lemma fill_ok_n (fuel : nat) (out : list (option Q)) (k n : nat) (v : Q) :
  (k + n <= length out)%nat -> fits (k + n) -> (n <= fuel)%nat ->
  fill fuel out k (k + n) v = Ok (fill_cells out k n v, (k + n)%nat).
Proof.
  revert out k n. induction fuel as [|f IH]; intros out k n Hl Hf Hfu.
  - assert (n = 0%nat) by lia. subst. simpl. rewrite Nat.add_0_r.
    rewrite Nat.ltb_irrefl. reflexivity.
  - destruct n as [|n].
    + simpl. rewrite Nat.add_0_r. rewrite Nat.ltb_irrefl. reflexivity.
    + cbn [fill]. replace (k <? k + S n)%nat with true
        by (symmetry; apply Nat.ltb_lt; lia).
      rewrite wr_ok by lia. cbn [bind].
      rewrite uadd_small by (apply fits_le with (k + S n)%nat; [lia | assumption]).
      replace (k + 1)%nat with (S k) by lia.
      replace (k + S n)%nat with (S k + n)%nat by lia.
      rewrite IH; try lia.
      * reflexivity.
      * rewrite length_put. lia.
      * replace (S k + n)%nat with (k + S n)%nat by lia. assumption.
Qed.

Lemma fill_ok (fuel : nat) (out : list (option Q)) (k k2 : nat) (v : Q) :
  (k <= k2)%nat -> (k2 <= length out)%nat -> fits k2 ->
  (k2 - k <= fuel)%nat ->
  fill fuel out k k2 v = Ok (fill_cells out k (k2 - k) v, k2).
Proof.
  intros Hk Hl Hf Hfu.
  replace k2 with (k + (k2 - k))%nat at 1 3 by lia.
  apply fill_ok_n; try lia.
  replace (k + (k2 - k))%nat with k2 by lia. assumption.
Qed.

Lemma fill_le_ok_n (fuel : nat) (out : list (option Q)) (k n i : nat) (v : Q) :
  (k + n = S i)%nat -> (S i <= length out)%nat -> fits (S i) ->
  (n <= fuel)%nat ->
  fill_le fuel out k i v = Ok (fill_cells out k n v).
Proof.
  revert out k n. induction fuel as [|f IH]; intros out k n He Hl Hf Hfu.
  - assert (n = 0%nat) by lia. subst. simpl.
    replace (k <=? i)%nat with false by (symmetry; apply Nat.leb_gt; lia).
    reflexivity.
  - destruct n as [|n].
    + simpl.
      replace (k <=? i)%nat with false by (symmetry; apply Nat.leb_gt; lia).
      reflexivity.
    + cbn [fill_le]. replace (k <=? i)%nat with true
        by (symmetry; apply Nat.leb_le; lia).
      rewrite wr_ok by lia. cbn [bind].
      rewrite uadd_small by (apply fits_le with (S i); [lia | assumption]).
      replace (k + 1)%nat with (S k) by lia.
      rewrite (IH _ _ n); try lia; try assumption.
      * reflexivity.
      * rewrite length_put. lia.
Qed.

(** * Increasing indices *)

Lemma inc_lt (lo : nat) (l : list nat) (hi : nat) :
  inc lo l hi -> (lo < hi)%nat.
Proof.
  revert lo. induction l as [|a t IH]; simpl; intros lo H; auto.
  destruct H as [H1 H2]. apply IH in H2. lia.
Qed.

Lemma inc_length (lo : nat) (l : list nat) (hi : nat) :
  inc lo l hi -> (lo + length l < hi)%nat.
Proof.
  revert lo. induction l as [|a t IH]; simpl; intros lo H.
  - lia.
  - destruct H as [H1 H2]. apply IH in H2. lia.
Qed.

Lemma inc_In (lo : nat) (l : list nat) (hi x : nat) :
  inc lo l hi -> In x l -> (lo < x < hi)%nat.
Proof.
  revert lo. induction l as [|a t IH]; simpl; intros lo H Hx; [tauto|].
  destruct H as [H1 H2]. destruct Hx as [->|Hx].
  - apply inc_lt in H2. lia.
  - apply IH with (lo := a) in Hx; auto. lia.
Qed.

Lemma inc_weaken (lo : nat) (l : list nat) (hi hi' : nat) :
  inc lo l hi -> (hi <= hi')%nat -> inc lo l hi'.
Proof.
  revert lo. induction l as [|a t IH]; simpl; intros lo H Hh.
  - lia.
  - destruct H; split; auto.
Qed.

Lemma inc_prefix (lo : nat) (l1 l2 : list nat) (hi : nat) :
  inc lo (l1 ++ l2) hi -> inc lo l1 hi.
Proof.
  revert lo. induction l1 as [|a t IH]; simpl; intros lo H.
  - apply inc_lt in H. exact H.
  - destruct H; split; auto.
Qed.

Lemma inc_snoc (lo : nat) (l : list nat) (x : nat) :
  inc lo l x -> inc lo (l ++ [x]) (S x).
Proof.
  revert lo. induction l as [|a t IH]; simpl; intros lo H.
  - lia.
  - destruct H; split; auto.
Qed.

(** * The routine computes the segment lists *)

Ltac solve_fits :=
  match goal with
  | H : fits ?W |- fits _ => apply fits_le with W; [lia | exact H]
  end.

Ltac idx := first [lia | solve_fits].

Ltac conjs := repeat match goal with |- _ /\ _ => split end.

Lemma hd_rev_last {A : Type} (l : list A) (d : A) :
  match rev l with [] => d | p :: _ => p end = last l d.
Proof.
  destruct l as [|x l] using rev_ind; [reflexivity|].
  rewrite rev_app_distr, last_last. reflexivity.
Qed.

Lemma holds_prefix ist out jseg0 (m1 m2 : list (nat * Q)) :
  holds ist out jseg0 (m1 ++ m2) -> holds ist out jseg0 m1.
Proof.
  intros H k a v Hk. apply H. rewrite nth_error_app1; auto.
  apply nth_error_Some. congruence.
Qed.

(** The segment before the last one, seen through the buffers. *)
Lemma holds_last ist (out : list (option Q)) jseg0 s0 f (m : list (nat * Q)) :
  nth_error ist jseg0 = Some (Some s0) ->
  nth_error out s0 = Some (Some f) ->
  holds ist out jseg0 m ->
  nth_error ist (jseg0 + length m) = Some (Some (fst (last m (s0, f)))) /\
  nth_error out (fst (last m (s0, f))) = Some (Some (snd (last m (s0, f)))).
Proof.
  intros Hs Hf H.
  destruct m as [|[a v] m] using rev_ind.
  - simpl. rewrite Nat.add_0_r. auto.
  - rewrite last_last. simpl. rewrite length_app. simpl.
    replace (jseg0 + (length m + 1))%nat with (jseg0 + 1 + length m)%nat by lia.
    apply H. rewrite nth_error_app2 by lia. rewrite Nat.sub_diag. reflexivity.
Qed.

Lemma inc_last_le s0 (m : list (nat * Q)) hi d :
  inc s0 (map fst m) hi ->
  (s0 <= fst (last m (s0, d)) < hi)%nat.
Proof.
  intros H. destruct m as [|[a v] m] using rev_ind.
  - simpl. apply inc_lt in H. lia.
  - rewrite last_last. simpl.
    assert (In a (map fst (m ++ [(a, v)]))).
    { rewrite map_app. apply in_or_app. right. simpl. auto. }
    apply (inc_In _ _ _ _ H) in H0. lia.
Qed.

Lemma last_cons_default {A : Type} (l : list A) (x d : A) :
  last (x :: l) d = last l x.
Proof.
  revert x d. induction l as [|y l IH]; intros x d; [reflexivity|].
  change (last (x :: y :: l) d) with (last (y :: l) d).
  rewrite (IH y d), (IH y x). reflexivity.
Qed.

Lemma inc_last_lt s0 (m : list (nat * Q)) a v hi d :
  inc s0 (map fst (m ++ [(a, v)])) hi ->
  (fst (last m (s0, d)) < a < hi)%nat.
Proof.
  revert s0. induction m as [|[b w] m IH]; intros s0 H.
  - simpl in *. lia.
  - simpl in H. destruct H as [H1 H2].
    specialize (IH b H2). rewrite last_cons_default.
    destruct m as [|x m]; [exact IH|].
    rewrite (last_cons_default m x (b, w)).
    rewrite (last_cons_default m x (b, d)) in IH. exact IH.
Qed.

Lemma unwind_sim (d : dir) (W i jseg0 s0 : nat) (out : list (option Q)) (f : Q) :
  fits W -> (i < W)%nat ->
  nth_error out s0 = Some (Some f) ->
  forall (m : list (nat * Q)) (e : env) (fuel : nat),
    j e = (jseg0 + length m)%nat ->
    nth_error (indstart e) jseg0 = Some (Some s0) ->
    holds (indstart e) out jseg0 m ->
    inc s0 (map fst m) (S i) ->
    (jseg0 + length m < W)%nat ->
    (length m <= fuel)%nat ->
    exists e',
      unwind d fuel i jseg0 out e = Ok e' /\
      indstart e' = indstart e /\ first e' = first e /\
      j e' = (jseg0 + length (fst (unwind_a d i s0 f (rev m) (curr e))))%nat /\
      curr e' = snd (unwind_a d i s0 f (rev m) (curr e)) /\
      exists rest, m = rev (fst (unwind_a d i s0 f (rev m) (curr e))) ++ rest.
Proof.
  intros HW Hi Hf m.
  induction m as [|[a v0] m IH] using rev_ind; intros e fuel Hj Hs Hh Hinc Hb Hfu.
  - exists e. simpl in *. rewrite Nat.add_0_r in *.
    split.
    { destruct fuel; simpl; rewrite Hj, Nat.ltb_irrefl; reflexivity. }
    repeat split; auto. exists []. reflexivity.
  - rewrite rev_app_distr. cbn [rev app unwind_a].
    rewrite hd_rev_last.
    rewrite length_app in *. cbn [length] in *.
    pose proof (holds_prefix _ _ _ _ _ Hh) as Hh'.
    destruct (holds_last _ _ _ _ _ _ Hs Hf Hh') as [Hind Hv].
    pose proof (inc_last_lt _ _ _ _ _ f Hinc) as Hlt.
    assert (Hinc' : inc s0 (map fst m) (S i)).
    { rewrite map_app in Hinc. apply inc_prefix in Hinc. exact Hinc. }
    pose proof (inc_last_le _ _ _ f Hinc') as Hle.
    destruct (last m (s0, f)) as [ind v] eqn:El. cbn [fst snd] in *.
    assert (Hu : usub (j e) 1 = (jseg0 + length m)%nat).
    { rewrite usub_small by idx. lia. }
    assert (Hstep : forall fu, unwind d fu i jseg0 out e =
      if cmp d (curr e) v then
        match fu with
        | O => Err OutOfFuel
        | S f' =>
            a' <- rd (indstart e) (j e) ;;
            unwind d f' i jseg0 out
              (set_j (usub (j e) 1)
                 (set_curr (curr e + (v - curr e)
                      * (dbl (usub a' ind) / dbl (uadd (usub i ind) 1))) e))
        end
      else Ok e).
    { intros fu. destruct fu; cbn [unwind];
        (replace (jseg0 <? j e)%nat with true by (symmetry; apply Nat.ltb_lt; lia));
        rewrite Hu, (rd_ok _ _ _ Hind); cbn [bind]; rewrite (rd_ok _ _ _ Hv);
        reflexivity. }
    rewrite Hstep. destruct (cmp d (curr e) v) eqn:Ec.
    + destruct fuel as [|fuel]; [lia|].
      assert (Ha : nth_error (indstart e) (j e) = Some (Some a)).
      { rewrite Hj. replace (jseg0 + (length m + 1))%nat
          with (jseg0 + 1 + length m)%nat by lia.
        apply (proj1 (Hh (length m) a v0
          ltac:(rewrite nth_error_app2 by lia; rewrite Nat.sub_diag; reflexivity))). }
      rewrite (rd_ok _ _ _ Ha). cbn [bind].
      rewrite Hu.
      rewrite (usub_small a ind) by idx.
      rewrite (usub_small i ind) by idx.
      rewrite uadd_small by idx.
      set (c := curr e + (v - curr e) * (dbl (a - ind) / dbl (i - ind + 1))).
      destruct (IH (set_j (jseg0 + length m) (set_curr c e)) fuel)
        as (e' & He' & E1 & E2 & E3 & E4 & rest & E5); simpl; auto; try lia.
      exists e'. split; [exact He'|]. simpl in E3, E4, E5.
      repeat split; auto.
      exists (rest ++ [(a, v0)]). rewrite app_assoc. rewrite <- E5. reflexivity.
    + exists e. cbn [fst snd]. split; [reflexivity|].
      repeat split; auto.
      * cbn [length]. rewrite length_rev. lia.
      * exists []. rewrite app_nil_r.
        change ((a, v0) :: rev m) with (rev [(a, v0)] ++ rev m).
        rewrite <- rev_app_distr, rev_involutive. reflexivity.
Qed.

Lemma fst_last_default (m : list (nat * Q)) (s0 : nat) (f g : Q) :
  fst (last m (s0, f)) = fst (last m (s0, g)).
Proof.
  destruct m as [|x m] using rev_ind; [reflexivity|].
  rewrite !last_last. reflexivity.
Qed.

Lemma holds_out_change ist (out out' : list (option Q)) jseg0 m :
  holds ist out jseg0 m ->
  (forall a, In a (map fst m) -> nth_error out' a = nth_error out a) ->
  holds ist out' jseg0 m.
Proof.
  intros H Hc k a v Hk. destruct (H k a v Hk) as [H1 H2]. split; auto.
  rewrite Hc; auto. apply nth_error_In in Hk.
  change a with (fst (a, v)). apply in_map. exact Hk.
Qed.

Lemma RepEnv_out_change W jseg0 s0 (out out' : list (option Q)) h e ae :
  RepEnv W jseg0 s0 out h e ae ->
  (forall a, In a (map fst (mids ae)) -> nth_error out' a = nth_error out a) ->
  RepEnv W jseg0 s0 out' h e ae.
Proof.
  intros [] Hc. constructor; auto. eapply holds_out_change; eauto.
Qed.

Lemma RepCore_out_change W (out out' : list (option Q)) jseg0 s0 dn :
  RepCore W out jseg0 s0 dn ->
  length out' = length out ->
  (forall k, (k < s0)%nat -> nth_error out' k = nth_error out k) ->
  RepCore W out' jseg0 s0 dn.
Proof.
  intros [] Hl Hc. constructor; auto; try congruence.
  intros k x Hk. rewrite Hc; auto.
  assert (k < length dn)%nat by (apply nth_error_Some; congruence). lia.
Qed.

Lemma RepEnv_j_bound W jseg0 s0 out h e ae :
  RepEnv W jseg0 s0 out h e ae -> (jseg0 <= s0)%nat -> (j e < h)%nat.
Proof.
  intros [R1 R2 R3 R4 R5 R6 R7] Hle. apply inc_length in R7.
  rewrite length_map in R7. lia.
Qed.

(** ** Access to the two envelopes by direction *)

Lemma side_set_same d e s : side d (set_side d e s) = e.
Proof. destruct d; reflexivity. Qed.
Lemma side_set_flip d e s : side (flip d) (set_side d e s) = side (flip d) s.
Proof. destruct d; reflexivity. Qed.
Lemma side_set_flip' d e s : side d (set_side (flip d) e s) = side d s.
Proof. destruct d; reflexivity. Qed.
Lemma output_set_side d e s : output (set_side d e s) = output s.
Proof. destruct d; reflexivity. Qed.
Lemma jseg_set_side d e s : jseg (set_side d e s) = jseg s.
Proof. destruct d; reflexivity. Qed.
Lemma indjseg_set_side d e s : indjseg (set_side d e s) = indjseg s.
Proof. destruct d; reflexivity. Qed.
Lemma side_set_output d o s : side d (set_output o s) = side d s.
Proof. destruct d; reflexivity. Qed.
Lemma side_set_jseg d n s : side d (set_jseg n s) = side d s.
Proof. destruct d; reflexivity. Qed.
Lemma side_set_indjseg d n s : side d (set_indjseg n s) = side d s.
Proof. destruct d; reflexivity. Qed.
Lemma flip_flip d : flip (flip d) = d.
Proof. destruct d; reflexivity. Qed.

Lemma aside_set_same d e a : aside d (set_aside d e a) = e.
Proof. destruct d; reflexivity. Qed.
Lemma aside_set_flip d e a :
  aside (flip d) (set_aside d e a) = aside (flip d) a.
Proof. destruct d; reflexivity. Qed.
Lemma aside_set_flip' d e a :
  aside d (set_aside (flip d) e a) = aside d a.
Proof. destruct d; reflexivity. Qed.
Lemma done_set_aside d e a : done (set_aside d e a) = done a.
Proof. destruct d; reflexivity. Qed.

Create Rewrite HintDb st.

#[export] Hint Rewrite side_set_same side_set_flip side_set_flip'
  output_set_side jseg_set_side indjseg_set_side side_set_output
  side_set_jseg side_set_indjseg flip_flip
  aside_set_same aside_set_flip aside_set_flip' done_set_aside : st.

Ltac st1 := cbn [output jseg indjseg set_output set_jseg
  set_indjseg done indstart j first curr set_indstart set_j set_first set_curr
  mids afirst acurr low up alow aup]; autorewrite with st.
Ltac st := repeat (progress st1).
Ltac st_in H := repeat (progress (cbn [output jseg indjseg set_output set_jseg
  set_indjseg done indstart j first curr set_indstart set_j set_first set_curr
  mids afirst acurr low up alow aup] in H; autorewrite with st in H)).

Lemma hside_flip_set d h hl hu :
  hside (flip d) (fst (set_h d h hl hu)) (snd (set_h d h hl hu))
  = hside (flip d) hl hu.
Proof. destruct d; reflexivity. Qed.

Lemma hside_set d h hl hu :
  hside d (fst (set_h d h hl hu)) (snd (set_h d h hl hu)) = h.
Proof. destruct d; reflexivity. Qed.

Lemma Rep_elim (d : dir) W hl hu s a :
  Rep W hl hu s a ->
  RepCore W (output s) (jseg s) (indjseg s) (done a) /\
  RepEnv W (jseg s) (indjseg s) (output s) (hside d hl hu)
    (side d s) (aside d a) /\
  RepEnv W (jseg s) (indjseg s) (output s) (hside (flip d) hl hu)
    (side (flip d) s) (aside (flip d) a) /\
  (forall x, In x (map fst (mids (aside d a))) ->
             In x (map fst (mids (aside (flip d) a))) -> False) /\
  (hside d hl hu <= W)%nat /\ (hside (flip d) hl hu <= W)%nat.
Proof.
  intros [RC RL RU RD Hl Hu].
  destruct d; cbn; (split; [|split; [|split; [|split; [|split]]]]); auto.
  intros x H1 H2. eapply RD; eauto.
Qed.

Lemma Rep_intro (d : dir) W hl hu s a :
  RepCore W (output s) (jseg s) (indjseg s) (done a) ->
  RepEnv W (jseg s) (indjseg s) (output s) (hside d hl hu)
    (side d s) (aside d a) ->
  RepEnv W (jseg s) (indjseg s) (output s) (hside (flip d) hl hu)
    (side (flip d) s) (aside (flip d) a) ->
  (forall x, In x (map fst (mids (aside d a))) ->
             In x (map fst (mids (aside (flip d) a))) -> False) ->
  (hside d hl hu <= W)%nat -> (hside (flip d) hl hu <= W)%nat ->
  Rep W hl hu s a.
Proof.
  intros RC R1 R2 RD H1 H2. destruct d; cbn in *; constructor; auto.
  intros x Hx Hy. eapply RD; eauto.
Qed.

Lemma extend_env_sim (d : dir) (W i : nat) (x : Q) jseg0 s0
    (out : list (option Q)) h e ae :
  fits W -> (i < W)%nat -> RepEnv W jseg0 s0 out h e ae -> (h <= S i)%nat ->
  length out = W -> (jseg0 <= s0)%nat ->
  let out1 := put out s0 (Some (first e)) in
  let c := acurr ae + (x - acurr ae) / dbl (i - last_start s0 (mids ae) + 1) in
  let r := unwind_a d i s0 (afirst ae) (rev (mids ae)) c in
  rd (indstart e) (j e) = Ok (last_start s0 (mids ae)) /\
  uadd (usub i (last_start s0 (mids ae))) 1
    = (i - last_start s0 (mids ae) + 1)%nat /\
  exists e',
    unwind d W i jseg0 out1
      (set_curr (curr e + (x - curr e) / dbl (i - last_start s0 (mids ae) + 1)) e)
      = Ok e' /\
    RepEnv W jseg0 s0 out1 h e' (mkA (rev (fst r)) (afirst ae) (snd r)) /\
    exists rest, mids ae = rev (fst r) ++ rest.
Proof.
  intros HW Hi HR Hh Hlen Hle out1 c r.
  pose proof (RepEnv_j_bound _ _ _ _ _ _ _ HR Hle) as Hjb.
  destruct HR as [R1 R2 R3 R4 R5 R6 R7].
  pose proof (inc_lt _ _ _ R7) as Hs0.
  assert (Hout1 : nth_error out1 s0 = Some (Some (afirst ae))).
  { unfold out1. rewrite R3. apply nth_error_put_eq. lia. }
  assert (Hh1 : holds (indstart e) out1 jseg0 (mids ae)).
  { eapply holds_out_change; eauto. intros a Ha.
    unfold out1. apply nth_error_put_neq.
    apply (inc_In _ _ _ _ R7) in Ha. lia. }
  destruct (holds_last _ _ _ _ _ _ R5 Hout1 Hh1) as [Hl1 _].
  pose proof (inc_last_le _ _ _ (afirst ae) R7) as Hll.
  rewrite (fst_last_default _ _ _ 0) in Hl1, Hll.
  fold (last_start s0 (mids ae)) in Hl1, Hll.
  split; [|split].
  - apply rd_ok. rewrite R2. exact Hl1.
  - rewrite usub_small by idx. rewrite uadd_small by idx. reflexivity.
  - rewrite R4. fold c.
    destruct (unwind_sim d W i jseg0 s0 out1 (afirst ae) HW Hi Hout1
                (mids ae) (set_curr c e) W)
      as (e' & He' & E1 & E2 & E3 & E4 & rest & E5); simpl; auto; try lia.
    + eapply inc_weaken; eauto.
    + exists e'. split; [exact He'|].
      simpl in *. fold r in E3, E4, E5.
      split; [|exists rest; exact E5].
      constructor; simpl; try congruence.
      * rewrite length_rev. exact E3.
      * rewrite E1. rewrite E5 in Hh1. apply holds_prefix in Hh1. exact Hh1.
      * rewrite E5 in R7. rewrite map_app in R7. apply inc_prefix in R7.
        exact R7.
Qed.

Lemma extend_sim (d : dir) (W hl hu i : nat) (x : Q) (s : state) (a : astate) :
  fits W -> (i < W)%nat -> Rep W hl hu s a -> (hside d hl hu <= S i)%nat ->
  exists s', extend d W i x s = Ok s' /\ Rep W hl hu s' (extend_a d i x a).
Proof.
  intros HW Hi HR Hh.
  destruct (Rep_elim d _ _ _ _ _ HR) as (RC & R1 & R2 & RD & H1 & H2).
  assert (Hind := rc_ind _ _ _ _ _ RC).
  assert (Hlen := rc_len _ _ _ _ _ RC).
  assert (Hjs := rc_jseg _ _ _ _ _ RC).
  assert (Hs0 : (indjseg s < W)%nat).
  { pose proof (re_inc _ _ _ _ _ _ _ R1) as H. apply inc_lt in H. lia. }
  unfold extend, extend_a. rewrite <- Hind.
  destruct (extend_env_sim d W i x _ _ _ _ _ _ HW Hi R1 Hh Hlen Hjs)
    as (E1 & E2 & e' & E3 & E4 & rest & E5).
  rewrite E1. cbn [bind]. rewrite E2. rewrite wr_ok by lia. cbn [bind].
  rewrite E3. cbn [bind].
  eexists. split; [reflexivity|].
  destruct (unwind_a d i (indjseg s) (afirst (aside d a)) (rev (mids (aside d a))) _)
    as [rm c'] eqn:Er. cbn [fst snd] in E4, E5.
  apply (Rep_intro d); st; auto.
  - eapply RepCore_out_change; eauto; [apply length_put|].
    intros k Hk. apply nth_error_put_neq. lia.
  - eapply RepEnv_out_change; eauto. intros b Hb.
    apply nth_error_put_neq. pose proof (re_inc _ _ _ _ _ _ _ R2) as H.
    apply (inc_In _ _ _ _ H) in Hb. lia.
  - intros y Hy. apply RD. rewrite E5.
    rewrite map_app. apply in_or_app. left. exact Hy.
Qed.

Lemma nth_error_app_repeat (dn : list Q) (v : Q) (n k : nat) (x : Q) :
  nth_error (dn ++ repeat v n) k = Some x ->
  ((k < length dn)%nat /\ nth_error dn k = Some x) \/
  ((length dn <= k < length dn + n)%nat /\ x = v).
Proof.
  intros H. destruct (Nat.lt_ge_cases k (length dn)) as [Hk|Hk].
  - left. rewrite nth_error_app1 in H by assumption. auto.
  - right. rewrite nth_error_app2 in H by assumption.
    assert (Hn : (k - length dn < n)%nat).
    { rewrite <- (repeat_length v n). apply nth_error_Some. congruence. }
    split; [lia|]. apply nth_error_In in H. apply repeat_spec in H. exact H.
Qed.

(** One segment written out: the finished prefix grows up to [a1]. *)
Lemma RepCore_fill W (out : list (option Q)) jseg0 s0 dn (a1 : nat) (v : Q) :
  RepCore W out jseg0 s0 dn -> (s0 < a1)%nat -> (a1 <= W)%nat ->
  RepCore W (fill_cells out s0 (a1 - s0) v) (jseg0 + 1) a1
    (dn ++ repeat v (a1 - length dn)).
Proof.
  intros [C1 C2 C3 C4] Hlt Hle. constructor.
  - rewrite length_fill_cells. exact C1.
  - rewrite length_app, repeat_length. lia.
  - lia.
  - intros k x Hk. apply nth_error_app_repeat in Hk.
    destruct Hk as [[Hk1 Hk2]|[Hk1 ->]].
    + rewrite nth_fill_cells_out by lia. auto.
    + apply nth_fill_cells_in; lia.
Qed.

(** The other envelope after its first segment was written out. *)
Lemma RepEnv_pop W (out : list (option Q)) jseg0 s0 h e a1 v1 om fo co (v : Q) :
  RepEnv W jseg0 s0 out h e (mkA ((a1, v1) :: om) fo co) ->
  RepEnv W (jseg0 + 1) a1 (fill_cells out s0 (a1 - s0) v) h
    (set_first v1 e) (mkA om v1 co) /\
  nth_error (indstart e) (jseg0 + 1) = Some (Some a1) /\
  nth_error (fill_cells out s0 (a1 - s0) v) a1 = Some (Some v1) /\
  (s0 < a1 < h)%nat.
Proof.
  intros [R1 R2 R3 R4 R5 R6 R7]. cbn in *.
  destruct R7 as [R7 R8].
  destruct (R6 0%nat a1 v1 eq_refl) as [H1 H2].
  rewrite Nat.add_0_r in H1.
  pose proof (inc_lt _ _ _ R8) as Hlt.
  split; [|split; [exact H1|split]].
  - constructor; cbn; auto.
    + lia.
    + intros k b w Hk. destruct (R6 (S k) b w Hk) as [H3 H4].
      split.
      * replace (jseg0 + 1 + 1 + k)%nat with (jseg0 + 1 + S k)%nat by lia.
        exact H3.
      * rewrite nth_fill_cells_out; auto.
        apply nth_error_In in Hk.
        apply (in_map fst) in Hk. apply (inc_In _ _ _ _ R8) in Hk.
        cbn in Hk. lia.
  - rewrite nth_fill_cells_out by lia. exact H2.
  - lia.
Qed.

Lemma close_sim (d : dir) (W i h : nat) (co : Q) :
  fits W -> (i < W)%nat -> (h <= S i)%nat -> (h <= W)%nat ->
  forall (om : list (nat * Q)) (s : state) (dn : list Q) (fo : Q) (fuel : nat),
    RepCore W (output s) (jseg s) (indjseg s) dn ->
    RepEnv W (jseg s) (indjseg s) (output s) h (side (flip d) s) (mkA om fo co) ->
    (length om <= fuel)%nat ->
    exists s',
      close d fuel W i s = Ok s' /\
      RepCore W (output s') (jseg s') (indjseg s')
        (fst (fst (fst (close_a d i dn (curr (side d s)) fo om)))) /\
      RepEnv W (jseg s') (indjseg s') (output s') h (side (flip d) s')
        (mkA (snd (close_a d i dn (curr (side d s)) fo om))
             (snd (fst (close_a d i dn (curr (side d s)) fo om))) co) /\
      curr (side d s') = snd (fst (fst (close_a d i dn (curr (side d s)) fo om))) /\
      indstart (side d s') = indstart (side d s) /\
      j (side d s') = j (side d s) /\ first (side d s') = first (side d s).
Proof.
  intros HW Hi Hh HhW om.
  induction om as [|[a1 v1] om IH]; intros s dn fo fuel RC RE Hfu.
  - exists s. cbn [close_a fst snd].
    split; [|conjs; auto].
    pose proof (re_j _ _ _ _ _ _ _ RE) as Hj. cbn in Hj.
    rewrite Nat.add_0_r in Hj.
    destruct fuel; cbn [close]; rewrite Hj, Nat.ltb_irrefl, andb_false_r;
      reflexivity.
  - pose proof (re_j _ _ _ _ _ _ _ RE) as Hj.
    pose proof (re_first _ _ _ _ _ _ _ RE) as Hf. cbn in Hj, Hf.
    assert (Hlt : (jseg s <? j (side (flip d) s))%nat = true)
      by (apply Nat.ltb_lt; lia).
    cbn [close_a]. destruct (cmp d (curr (side d s)) fo) eqn:Ec.
    + destruct fuel as [|fuel]; [cbn in Hfu; lia|].
      cbn [close]. rewrite Hf, Ec, Hlt. cbn [andb].
      destruct (RepEnv_pop _ _ _ _ _ _ _ _ _ _ _ fo RE) as (RE' & Hi1 & Hv & Hb).
      pose proof (rc_jseg _ _ _ _ _ RC) as Hjs.
      pose proof (rc_ind _ _ _ _ _ RC) as Hind.
      pose proof (rc_len _ _ _ _ _ RC) as Hlen.
      rewrite uadd_small by idx.
      rewrite (rd_ok _ _ _ Hi1). cbn [bind].
      rewrite fill_ok by idx. cbn [bind].
      rewrite (rd_ok _ _ _ Hv). cbn [bind].
      rewrite (usub_small a1) by idx. rewrite (usub_small i) by idx.
      rewrite uadd_small by idx.
      match goal with |- context [close d fuel W i ?t] => set (s1 := t) end.
      destruct (IH s1 (dn ++ repeat fo (a1 - length dn)) v1 fuel)
        as (s' & E1 & E2 & E3 & E4 & E5 & E6 & E7).
      * unfold s1; st. apply RepCore_fill; auto; lia.
      * unfold s1; st. exact RE'.
      * cbn in Hfu. lia.
      * exists s'. split; [exact E1|].
        unfold s1 in E2, E3, E4, E5, E6, E7.
        st_in E2; st_in E3; st_in E4; st_in E5; st_in E6; st_in E7.
        rewrite <- Hind in E2, E3, E4 |- *.
        conjs; auto.
    + exists s. cbn [fst snd]. split; [|conjs; auto].
      destruct fuel; cbn [close]; rewrite Hf, Ec; reflexivity.
Qed.

Lemma store_last_snoc (m : list (nat * Q)) (a : nat) (v c : Q) :
  store_last (m ++ [(a, v)]) c = m ++ [(a, c)].
Proof.
  unfold store_last. rewrite rev_app_distr. cbn [rev app].
  rewrite rev_involutive. reflexivity.
Qed.

Lemma map_fst_store_last (m : list (nat * Q)) (c : Q) :
  map fst (store_last m c) = map fst m.
Proof.
  destruct m as [|[a v] m] using rev_ind; [reflexivity|].
  rewrite store_last_snoc, !map_app. reflexivity.
Qed.

Lemma last_start_snoc s0 (m : list (nat * Q)) a v :
  last_start s0 (m ++ [(a, v)]) = a.
Proof. unfold last_start. rewrite last_last. reflexivity. Qed.

(** The value of the last segment is stored at its start. *)
Lemma RepEnv_store W jseg0 s0 (out : list (option Q)) h e ae :
  RepEnv W jseg0 s0 out h e ae -> mids ae <> [] ->
  let a := last_start s0 (mids ae) in
  (s0 < a < h)%nat /\ (a < length out)%nat /\ In a (map fst (mids ae)) /\
  nth_error (indstart e) (j e) = Some (Some a) /\
  RepEnv W jseg0 s0 (put out a (Some (curr e))) h e
    (mkA (store_last (mids ae) (acurr ae)) (afirst ae) (acurr ae)).
Proof.
  intros [R1 R2 R3 R4 R5 R6 R7] Hne a.
  destruct (exists_last Hne) as (m & [b v] & Em).
  unfold a. clear a. rewrite Em in *. rewrite last_start_snoc.
  assert (Hin : In b (map fst (m ++ [(b, v)]))).
  { rewrite map_app. apply in_or_app. right. left. reflexivity. }
  pose proof (inc_In _ _ _ _ R7 Hin) as Hb.
  destruct (R6 (length m) b v) as [H1 H2].
  { rewrite nth_error_app2 by lia. rewrite Nat.sub_diag. reflexivity. }
  assert (Hbl : (b < length out)%nat) by (apply nth_error_Some; congruence).
  rewrite length_app in R2. cbn in R2.
  conjs; auto; try lia.
  - rewrite R2. replace (jseg0 + (length m + 1))%nat
      with (jseg0 + 1 + length m)%nat by lia. exact H1.
  - rewrite store_last_snoc. constructor; cbn; auto.
    + rewrite length_app. cbn. exact R2.
    + intros k x w Hk.
      destruct (Nat.lt_ge_cases k (length m)) as [Hlt|Hge].
      * rewrite nth_error_app1 in Hk by assumption.
        destruct (R6 k x w) as [H3 H4].
        { rewrite nth_error_app1 by assumption. exact Hk. }
        split; [exact H3|].
        rewrite nth_error_put_neq; [exact H4|].
        apply nth_error_In in Hk. apply (in_map fst) in Hk. cbn in Hk.
        rewrite map_app in R7.
        assert (inc s0 (map fst m) b).
        { clear -R7. revert s0 R7. induction m as [|[c u] m IH]; cbn; intros s0 H.
          - lia.
          - destruct H; split; auto. }
        apply (inc_In _ _ _ _ H) in Hk. lia.
      * rewrite nth_error_app2 in Hk by assumption.
        destruct (k - length m)%nat as [|n] eqn:En; cbn in Hk;
          [|destruct n; discriminate].
        injection Hk as <- <-.
        replace k with (length m) by lia. split; [exact H1|].
        rewrite R4. apply nth_error_put_eq. exact Hbl.
    + rewrite map_app in *. exact R7.
Qed.

Lemma settle_sim (d : dir) (checked : bool) (W hl hu i : nat) (twolambda : Q)
    (s : state) (a : astate) :
  fits W -> (i < W)%nat -> Rep W hl hu s a ->
  (hside d hl hu <= S i)%nat -> (hside (flip d) hl hu <= S i)%nat ->
  exists s',
    settle d checked W i twolambda s = Ok s' /\
    Rep W (fst (set_h d (S i) hl hu)) (snd (set_h d (S i) hl hu)) s'
      (settle_a d checked i twolambda a).
Proof.
  intros HW Hi HR Hh1 Hh2.
  destruct (Rep_elim d _ _ _ _ _ HR) as (RC & R1 & R2 & RD & H1 & H2).
  pose proof (re_j _ _ _ _ _ _ _ R1) as Hj.
  unfold settle, settle_a.
  destruct (mids (aside d a)) as [|p m] eqn:Em.
  - cbn in Hj. rewrite Nat.add_0_r in Hj. rewrite Hj, Nat.eqb_refl.
    destruct (aside (flip d) a) as [om fo co] eqn:Eo.
    destruct (close_sim d W i _ co HW Hi Hh2 H2 om s (done a) fo W RC R2)
      as (s3 & E1 & E2 & E3 & E4 & E5 & E6 & E7).
    { pose proof (re_inc _ _ _ _ _ _ _ R2) as Hinc. cbn in Hinc.
      apply inc_length in Hinc. rewrite length_map in Hinc. lia. }
    rewrite E1. cbn [bind].
    rewrite (re_curr _ _ _ _ _ _ _ R1) in E2, E3, E4.
    cbn [mids afirst acurr].
    destruct (close_a d i (done a) (acurr (aside d a)) fo om)
      as [[[dn m'] fo'] om'] eqn:Ec.
    cbn [fst snd] in E2, E3, E4.
    pose proof (re_inc _ _ _ _ _ _ _ E3) as Hinc3. apply inc_lt in Hinc3.
    pose proof (rc_jseg _ _ _ _ _ E2) as Hjs3.
    rewrite wr_ok by (rewrite E5, (re_len _ _ _ _ _ _ _ R1); lia).
    cbn [bind]. eexists. split; [reflexivity|].
    apply (Rep_intro d); st; rewrite ?hside_set, ?hside_flip_set; auto; try lia.
    + constructor; st.
      * rewrite length_put, E5. apply (re_len _ _ _ _ _ _ _ R1).
      * cbn. lia.
      * rewrite (rc_ind _ _ _ _ _ E2), (re_first _ _ _ _ _ _ _ E3), E4.
        reflexivity.
      * exact E4.
      * apply nth_error_put_eq. rewrite E5, (re_len _ _ _ _ _ _ _ R1). lia.
      * intros k x v Hk. destruct k; discriminate.
      * cbn. lia.
  - assert (Hne : (j (side d s) =? jseg s)%nat = false).
    { apply Nat.eqb_neq. cbn in Hj. lia. }
    rewrite Hne.
    assert (Hm : mids (aside d a) <> []) by (rewrite Em; discriminate).
    destruct (RepEnv_store _ _ _ _ _ _ _ R1 Hm) as (Hb & Hbl & Hin & E1 & E2).
    rewrite (rd_ok _ _ _ E1). cbn [bind].
    rewrite wr_ok by assumption. cbn [bind].
    eexists. split; [reflexivity|].
    rewrite <- Em.
    apply (Rep_intro d); st; rewrite ?hside_set, ?hside_flip_set; auto; try lia.
    + eapply RepCore_out_change; eauto; [apply length_put|].
      intros k Hk. apply nth_error_put_neq. lia.
    + destruct E2 as [Q1 Q2 Q3 Q4 Q5 Q6 Q7]. constructor; auto.
      eapply inc_weaken; eauto.
    + eapply RepEnv_out_change; eauto. intros b Hb'.
      apply nth_error_put_neq. intros ->. rewrite <- Em in RD.
      eapply RD; eauto.
    + intros x Hx. rewrite map_fst_store_last in Hx. apply RD.
      rewrite <- Em. exact Hx.
Qed.

Lemma update_sim (d : dir) (checked : bool) (W hl hu i : nat) (x twolambda : Q)
    (s : state) (a : astate) :
  fits W -> (i < W)%nat -> Rep W hl hu s a ->
  (hside d hl hu <= S i)%nat -> (hside (flip d) hl hu <= S i)%nat ->
  exists s',
    update d checked W i x twolambda s = Ok s' /\
    Rep W (fst (set_h d (S i) hl hu)) (snd (set_h d (S i) hl hu)) s'
      (update_a d checked i x twolambda a).
Proof.
  intros HW Hi HR H1 H2. unfold update, update_a.
  destruct (extend_sim d W hl hu i x s a HW Hi HR H1) as (s1 & E1 & R1).
  rewrite E1. cbn [bind].
  apply settle_sim; auto.
Qed.

Lemma holds_snoc ist (out : list (option Q)) jseg0 (m : list (nat * Q)) a v :
  holds ist out jseg0 m ->
  nth_error ist (jseg0 + 1 + length m) = Some (Some a) ->
  nth_error out a = Some (Some v) ->
  holds ist out jseg0 (m ++ [(a, v)]).
Proof.
  intros H H1 H2 k b w Hk.
  destruct (Nat.lt_ge_cases k (length m)) as [Hlt|Hge].
  - rewrite nth_error_app1 in Hk by assumption. apply H. exact Hk.
  - rewrite nth_error_app2 in Hk by assumption.
    destruct (k - length m)%nat as [|n] eqn:En; cbn in Hk;
      [|destruct n; discriminate].
    injection Hk as <- <-. replace k with (length m) by lia. auto.
Qed.

Lemma holds_ist_change (ist ist' : list (option nat)) (out : list (option Q))
    jseg0 (m : list (nat * Q)) :
  holds ist out jseg0 m ->
  (forall k, (k < length m)%nat ->
     nth_error ist' (jseg0 + 1 + k) = nth_error ist (jseg0 + 1 + k)) ->
  holds ist' out jseg0 m.
Proof.
  intros H Hc k a v Hk. destruct (H k a v Hk) as [H1 H2]. split; auto.
  rewrite Hc; auto. apply nth_error_Some. congruence.
Qed.

Lemma reset_sim (d : dir) (W hl hu i : nat) (input : list Q) (x : Q)
    (s : state) (a : astate) :
  fits W -> (i < W)%nat -> nth_error input i = Some x ->
  Rep W hl hu s a ->
  (hside d hl hu <= i)%nat -> (hside (flip d) hl hu <= i)%nat ->
  exists s',
    reset d input i s = Ok s' /\
    Rep W (fst (set_h d (S i) hl hu)) (snd (set_h d (S i) hl hu)) s'
      (reset_a d i x a).
Proof.
  intros HW Hi Hx HR Hh1 Hh2.
  destruct (Rep_elim d _ _ _ _ _ HR) as (RC & R1 & R2 & RD & H1 & H2).
  pose proof (rc_jseg _ _ _ _ _ RC) as Hjs.
  pose proof (rc_len _ _ _ _ _ RC) as Hlen.
  pose proof (RepEnv_j_bound _ _ _ _ _ _ _ R1 Hjs) as Hjb.
  destruct R1 as [Q1 Q2 Q3 Q4 Q5 Q6 Q7].
  unfold reset, reset_a.
  rewrite uadd_small by idx.
  rewrite wr_ok by lia. cbn [bind].
  rewrite (rd_in_ok _ _ _ Hx). cbn [bind].
  rewrite wr_ok by lia. cbn [bind].
  eexists. split; [reflexivity|].
  apply (Rep_intro d); st; rewrite ?hside_set, ?hside_flip_set; auto; try lia.
  - eapply RepCore_out_change; eauto; [apply length_put|].
    intros k Hk. apply nth_error_put_neq.
    apply inc_lt in Q7. lia.
  - constructor; st.
    + rewrite length_put. exact Q1.
    + rewrite length_app. cbn. lia.
    + exact Q3.
    + reflexivity.
    + rewrite nth_error_put_neq by lia. exact Q5.
    + apply holds_snoc.
      * eapply holds_ist_change; [eapply holds_out_change; [exact Q6|]|].
        -- intros b Hb. apply nth_error_put_neq.
           apply (inc_In _ _ _ _ Q7) in Hb. lia.
        -- intros k Hk. apply nth_error_put_neq. lia.
      * replace (jseg s + 1 + length (mids (aside d a)))%nat
          with (j (side d s) + 1)%nat by lia.
        apply nth_error_put_eq. lia.
      * apply nth_error_put_eq. lia.
    + rewrite map_app. cbn [map fst]. apply inc_snoc.
      eapply inc_weaken; eauto.
  - eapply RepEnv_out_change; eauto. intros b Hb.
    apply nth_error_put_neq.
    pose proof (re_inc _ _ _ _ _ _ _ R2) as Hinc.
    apply (inc_In _ _ _ _ Hinc) in Hb. lia.
  - intros y Hy Hy'. rewrite map_app in Hy. apply in_app_or in Hy.
    destruct Hy as [Hy|Hy].
    + eapply RD; eauto.
    + cbn in Hy. destruct Hy as [<-|[]].
      pose proof (re_inc _ _ _ _ _ _ _ R2) as Hinc.
      apply (inc_In _ _ _ _ Hinc) in Hy'. lia.
Qed.

Lemma step_sim (W i : nat) (input : list Q) (x twolambda : Q)
    (s : state) (a : astate) :
  fits W -> (i < W)%nat -> nth_error input i = Some x ->
  Rep W i i s a ->
  exists s',
    step input W i twolambda s = Ok s' /\
    Rep W (S i) (S i) s' (step_a i x twolambda a).
Proof.
  intros HW Hi Hx HR. unfold step, step_a.
  rewrite (rd_in_ok _ _ _ Hx). cbn [bind].
  rewrite (re_curr _ _ _ _ _ _ _ (rp_low _ _ _ _ _ HR)).
  rewrite (re_curr _ _ _ _ _ _ _ (rp_up _ _ _ _ _ HR)).
  destruct (Qle_bool (acurr (alow a)) x).
  - destruct (Qle_bool x (acurr (aup a))).
    + destruct (update_sim Up false W i i i x twolambda s a HW Hi HR)
        as (s1 & E1 & R1); cbn; try lia.
      rewrite E1. cbn [bind]. cbn in R1.
      destruct (update_sim Low true W i (S i) i x twolambda s1 _ HW Hi R1)
        as (s2 & E2 & R2); cbn; try lia.
      exists s2. auto.
    + destruct (reset_sim Up W i i i input x s a HW Hi Hx HR)
        as (s1 & E1 & R1); cbn; try lia.
      rewrite E1. cbn [bind]. cbn in R1.
      destruct (update_sim Low true W i (S i) i x twolambda s1 _ HW Hi R1)
        as (s2 & E2 & R2); cbn; try lia.
      exists s2. auto.
  - destruct (reset_sim Low W i i i input x s a HW Hi Hx HR)
      as (s1 & E1 & R1); cbn; try lia.
    rewrite E1. cbn [bind]. cbn in R1.
    rewrite (re_curr _ _ _ _ _ _ _ (rp_low _ _ _ _ _ R1)). cbn [reset_a aside set_aside alow acurr].
    destruct (update_sim Up true W (S i) i i x twolambda s1 _ HW Hi R1)
      as (s2 & E2 & R2); cbn; try lia.
    exists s2. auto.
Qed.

Lemma main_loop_sim (W : nat) (input : list Q) (twolambda : Q) :
  fits W ->
  forall (xs : list Q) (i : nat) (s : state) (a : astate) (fuel : nat)
         (width' : nat),
    (forall k x, nth_error xs k = Some x -> nth_error input (i + k) = Some x) ->
    width' = (i + length xs)%nat -> (width' < W)%nat ->
    Rep W i i s a -> (length xs <= fuel)%nat ->
    exists s',
      main_loop fuel input W i width' twolambda s = Ok (s', width') /\
      Rep W width' width' s' (main_a xs i twolambda a).
Proof.
  intros HW xs. induction xs as [|x xs IH]; intros i s a fuel w' Hin Hw HwW HR Hfu.
  - cbn in Hw. rewrite Nat.add_0_r in Hw. subst w'. exists s. split; auto.
    destruct fuel; cbn [main_loop]; rewrite Nat.ltb_irrefl; reflexivity.
  - cbn in Hw, Hfu. destruct fuel as [|fuel]; [lia|].
    cbn [main_loop main_a].
    replace (i <? w')%nat with true by (symmetry; apply Nat.ltb_lt; lia).
    assert (Hx : nth_error input i = Some x).
    { specialize (Hin 0%nat x eq_refl). rewrite Nat.add_0_r in Hin. exact Hin. }
    destruct (step_sim W i input x twolambda s a HW ltac:(lia) Hx HR)
      as (s1 & E1 & R1).
    rewrite E1. cbn [bind]. rewrite uadd_small by idx.
    replace (i + 1)%nat with (S i) by lia.
    apply IH; auto; try lia.
    intros k y Hk. replace (S i + k)%nat with (i + S k)%nat by lia.
    apply Hin. exact Hk.
Qed.

Lemma flush_sim (d : dir) (W h : nat) (c : Q) :
  fits W -> (h <= W)%nat ->
  forall (m : list (nat * Q)) (s : state) (dn : list Q) (f : Q) (fuel : nat),
    RepCore W (output s) (jseg s) (indjseg s) dn ->
    RepEnv W (jseg s) (indjseg s) (output s) h (side d s) (mkA m f c) ->
    (length m <= fuel)%nat ->
    exists s',
      flush d fuel W s = Ok s' /\
      RepCore W (output s') (jseg s') (indjseg s') (fst (flush_a dn f m)) /\
      RepEnv W (jseg s') (indjseg s') (output s') h (side d s')
        (mkA [] (snd (flush_a dn f m)) c).
Proof.
  intros HW HhW m.
  induction m as [|[a1 v1] m IH]; intros s dn f fuel RC RE Hfu.
  - exists s. cbn [flush_a fst snd]. split; [|split; auto].
    pose proof (re_j _ _ _ _ _ _ _ RE) as Hj. cbn in Hj.
    rewrite Nat.add_0_r in Hj.
    destruct fuel; cbn [flush]; rewrite Hj, Nat.ltb_irrefl; reflexivity.
  - pose proof (re_j _ _ _ _ _ _ _ RE) as Hj.
    pose proof (re_first _ _ _ _ _ _ _ RE) as Hf. cbn in Hj, Hf.
    destruct fuel as [|fuel]; [cbn in Hfu; lia|].
    cbn [flush flush_a].
    replace (jseg s <? j (side d s))%nat with true
      by (symmetry; apply Nat.ltb_lt; lia).
    destruct (RepEnv_pop _ _ _ _ _ _ _ _ _ _ _ f RE) as (RE' & Hi1 & Hv & Hb).
    pose proof (rc_jseg _ _ _ _ _ RC) as Hjs.
    pose proof (rc_ind _ _ _ _ _ RC) as Hind.
    pose proof (rc_len _ _ _ _ _ RC) as Hlen.
    rewrite uadd_small by idx.
    rewrite (rd_ok _ _ _ Hi1). cbn [bind]. rewrite Hf.
    rewrite fill_ok by idx. cbn [bind].
    rewrite (rd_ok _ _ _ Hv). cbn [bind].
    match goal with |- context [flush d fuel W ?t] => set (s1 := t) end.
    destruct (IH s1 (dn ++ repeat f (a1 - length dn)) v1 fuel)
      as (s' & E1 & E2 & E3).
    + unfold s1; st. apply RepCore_fill; auto; lia.
    + unfold s1; st. exact RE'.
    + cbn in Hfu. lia.
    + exists s'. auto.
Qed.

Lemma collect_spec (out : list (option Q)) (l : list Q) :
  length out = length l ->
  (forall k x, nth_error l k = Some x -> nth_error out k = Some (Some x)) ->
  collect out = Ok l.
Proof.
  revert out. induction l as [|x l IH]; intros out Hl H.
  - destruct out; [reflexivity | discriminate].
  - destruct out as [|c out]; [discriminate|].
    pose proof (H 0%nat x eq_refl) as H0. cbn in H0. injection H0 as ->.
    cbn. rewrite (IH out).
    + reflexivity.
    + cbn in Hl. lia.
    + intros k y Hk. apply (H (S k)). exact Hk.
Qed.

Lemma collect_fill W (out : list (option Q)) jseg0 s0 dn (v : Q) :
  RepCore W out jseg0 s0 dn -> (s0 <= W)%nat ->
  collect (fill_cells out s0 (W - s0) v) = Ok (dn ++ repeat v (W - length dn)).
Proof.
  intros [C1 C2 C3 C4] Hle. apply collect_spec.
  - rewrite length_fill_cells, length_app, repeat_length. lia.
  - intros k x Hk. apply nth_error_app_repeat in Hk.
    destruct Hk as [[Hk1 Hk2]|[Hk1 ->]].
    + rewrite nth_fill_cells_out by lia. auto.
    + apply nth_fill_cells_in; lia.
Qed.

Lemma collect_fill_put W (out : list (option Q)) jseg0 s0 dn i (f x : Q) :
  RepCore W out jseg0 s0 dn -> (s0 <= i)%nat -> S i = W ->
  collect (put (fill_cells out s0 (i - s0) f) i (Some x))
  = Ok (dn ++ repeat f (i - length dn) ++ [x]).
Proof.
  intros [C1 C2 C3 C4] Hle HW. apply collect_spec.
  - rewrite length_put, length_fill_cells, !length_app, repeat_length. cbn. lia.
  - intros k y Hk. rewrite app_assoc in Hk.
    destruct (Nat.eq_dec k i) as [->|Hne].
    + rewrite nth_error_app2 in Hk by (rewrite length_app, repeat_length; lia).
      rewrite length_app, repeat_length in Hk.
      replace (i - (length dn + (i - length dn)))%nat with 0%nat in Hk by lia.
      cbn in Hk. injection Hk as <-.
      apply nth_error_put_eq. rewrite length_fill_cells. lia.
    + rewrite nth_error_put_neq by assumption.
      assert (k < i)%nat.
      { assert (k < length ((dn ++ repeat f (i - length dn)) ++ [x]))%nat
          by (apply nth_error_Some; congruence).
        rewrite !length_app, repeat_length in H. cbn in H. lia. }
      rewrite nth_error_app1 in Hk by (rewrite length_app, repeat_length; lia).
      apply nth_error_app_repeat in Hk.
      destruct Hk as [[Hk1 Hk2]|[Hk1 ->]].
      * rewrite nth_fill_cells_out by lia. auto.
      * apply nth_fill_cells_in; lia.
Qed.

Lemma finish_all_sim (d : dir) (W hl hu i : nat) (x : Q) (s : state) (a : astate) :
  fits W -> S i = W -> Rep W hl hu s a -> (hside d hl hu <= i)%nat ->
  exists out,
    finish_all d W i x s = Ok out /\ length out = W /\
    collect out = Ok (finish_all_a d i x a).
Proof.
  intros HW Hi HR Hh.
  destruct (Rep_elim d _ _ _ _ _ HR) as (RC & R1 & R2 & RD & H1 & H2).
  unfold finish_all, finish_all_a.
  destruct (aside d a) as [m f c] eqn:Ea. cbn [mids afirst].
  destruct (flush_sim d W _ c HW H1 m s (done a) f W RC R1)
    as (s1 & E1 & E2 & E3).
  { pose proof (re_inc _ _ _ _ _ _ _ R1) as Hinc. cbn in Hinc.
    apply inc_length in Hinc. rewrite length_map in Hinc. lia. }
  rewrite E1. cbn [bind].
  destruct (flush_a (done a) f m) as [dn f'] eqn:Ef. cbn [fst snd] in E2, E3.
  pose proof (re_inc _ _ _ _ _ _ _ E3) as Hinc. cbn in Hinc.
  pose proof (rc_len _ _ _ _ _ E2) as Hlen.
  rewrite fill_ok by idx. cbn [bind].
  rewrite wr_ok by (rewrite length_fill_cells; lia).
  eexists. split; [reflexivity|]. split.
  { rewrite length_put, length_fill_cells. exact Hlen. }
  rewrite (re_first _ _ _ _ _ _ _ E3). cbn [afirst].
  eapply collect_fill_put; eauto. lia.
Qed.

Lemma finish_tail_sim (d : dir) (W hl hu i : nat) (s : state) (a : astate) :
  fits W -> S i = W -> Rep W hl hu s a -> (hside d hl hu <= i)%nat ->
  exists out,
    finish_tail d W i s = Ok out /\ length out = W /\
    collect out = Ok (finish_tail_a d i a).
Proof.
  intros HW Hi HR Hh.
  destruct (Rep_elim d _ _ _ _ _ HR) as (RC & R1 & R2 & RD & H1 & H2).
  unfold finish_tail, finish_tail_a.
  pose proof (re_curr _ _ _ _ _ _ _ R1) as Hc.
  destruct (aside d a) as [m f c] eqn:Ea. cbn [mids afirst acurr] in *.
  destruct (flush_sim d W _ c HW H1 m s (done a) f W RC R1)
    as (s1 & E1 & E2 & E3).
  { pose proof (re_inc _ _ _ _ _ _ _ R1) as Hinc. cbn in Hinc.
    apply inc_length in Hinc. rewrite length_map in Hinc. lia. }
  rewrite E1. cbn [bind].
  destruct (flush_a (done a) f m) as [dn f'] eqn:Ef. cbn [fst snd] in E2, E3.
  pose proof (re_inc _ _ _ _ _ _ _ E3) as Hinc. cbn in Hinc.
  pose proof (rc_len _ _ _ _ _ E2) as Hlen.
  pose proof (re_j _ _ _ _ _ _ _ E3) as Hj. cbn in Hj.
  rewrite Nat.add_0_r in Hj. rewrite Hj.
  rewrite (rd_ok _ _ _ (re_start _ _ _ _ _ _ _ E3)). cbn [bind].
  rewrite (fill_le_ok_n _ _ _ (S i - indjseg s1)) by idx.
  eexists. split; [reflexivity|]. split.
  { rewrite length_fill_cells. exact Hlen. }
  rewrite (re_curr _ _ _ _ _ _ _ E3). cbn [acurr].
  rewrite Hi. rewrite (collect_fill W _ _ _ dn c E2) by lia.
  reflexivity.
Qed.

Lemma finish_sim (W i : nat) (input : list Q) (x lambda : Q)
    (s : state) (a : astate) :
  fits W -> S i = W -> nth_error input i = Some x -> Rep W i i s a ->
  exists out,
    finish input W i lambda s = Ok out /\ length out = W /\
    collect out = Ok (finish_a i x lambda a).
Proof.
  intros HW Hi Hx HR. unfold finish, finish_a.
  rewrite (rd_in_ok _ _ _ Hx). cbn [bind].
  rewrite (re_curr _ _ _ _ _ _ _ (rp_low _ _ _ _ _ HR)).
  rewrite (re_curr _ _ _ _ _ _ _ (rp_up _ _ _ _ _ HR)).
  destruct (Qle_bool (x + lambda) (acurr (alow a))).
  { apply finish_all_sim with (hl := i) (hu := i); auto. }
  destruct (Qle_bool (acurr (aup a)) (x - lambda)).
  { apply finish_all_sim with (hl := i) (hu := i); auto. }
  destruct (extend_sim Low W i i i (x + lambda) s a HW ltac:(lia) HR)
    as (s1 & E1 & R1); [cbn; lia|].
  rewrite E1. cbn [bind].
  pose proof (re_j _ _ _ _ _ _ _ (rp_low _ _ _ _ _ R1)) as Hj.
  destruct (mids (alow (extend_a Low i (x + lambda) a))) as [|p m] eqn:Em.
  - cbn in Hj. rewrite Nat.add_0_r in Hj. rewrite Hj, Nat.eqb_refl.
    rewrite (re_curr _ _ _ _ _ _ _ (rp_low _ _ _ _ _ R1)).
    rewrite (re_first _ _ _ _ _ _ _ (rp_up _ _ _ _ _ R1)).
    destruct (Qle_bool _ _).
    + pose proof (rp_core _ _ _ _ _ R1) as RC.
      pose proof (re_inc _ _ _ _ _ _ _ (rp_low _ _ _ _ _ R1)) as Hinc.
      apply inc_lt in Hinc.
      pose proof (rc_len _ _ _ _ _ RC) as Hlen.
      rewrite (fill_le_ok_n _ _ _ (S i - indjseg s1)) by idx.
      eexists. split; [reflexivity|]. split.
      { rewrite length_fill_cells. exact Hlen. }
      rewrite Hi. rewrite (collect_fill W _ _ _ _ _ RC) by lia.
      reflexivity.
    + destruct (extend_sim Up W i i i (x - lambda) s1 _ HW ltac:(lia) R1)
        as (s2 & E2 & R2); [cbn; lia|].
      rewrite E2. cbn [bind].
      apply finish_tail_sim with (hl := i) (hu := i); auto.
  - replace (j (low s1) =? jseg s1)%nat with false
      by (symmetry; apply Nat.eqb_neq; cbn in Hj; lia).
    apply finish_tail_sim with (hl := i) (hu := i); auto.
Qed.

(** * The routine as a whole *)

Lemma collect_map_Some (l : list Q) : collect (map Some l) = Ok l.
Proof.
  induction l as [|x l IH]; cbn; [reflexivity|]. rewrite IH. reflexivity.
Qed.

Lemma put_app_length {A : Type} (l1 l2 : list A) (x v : A) :
  put (l1 ++ x :: l2) (length l1) v = l1 ++ v :: l2.
Proof.
  induction l1 as [|h t IH]; cbn; [reflexivity|]. rewrite IH. reflexivity.
Qed.

Lemma copy_ok (input : list Q) :
  fits (length input) ->
  forall (post pre : list Q) (fuel : nat),
    input = pre ++ post -> (length post <= fuel)%nat ->
    copy fuel input (map Some pre ++ repeat None (length post))
      (length pre) (length input)
    = Ok (map Some input).
Proof.
  intros HW post. induction post as [|x post IH]; intros pre fuel E Hfu.
  - rewrite app_nil_r in E. subst pre. cbn [length repeat].
    rewrite app_nil_r.
    destruct fuel; cbn [copy]; rewrite Nat.ltb_irrefl; reflexivity.
  - destruct fuel as [|fuel]; [cbn in Hfu; lia|].
    cbn [copy].
    assert (Hl : length input = (length pre + S (length post))%nat).
    { rewrite E, length_app. reflexivity. }
    replace (length pre <? length input)%nat with true
      by (symmetry; apply Nat.ltb_lt; lia).
    assert (Hx : nth_error input (length pre) = Some x).
    { rewrite E, nth_error_app2 by lia. rewrite Nat.sub_diag. reflexivity. }
    rewrite (rd_in_ok _ _ _ Hx). cbn [bind].
    rewrite wr_ok
      by (rewrite length_app, length_map, repeat_length; cbn; lia).
    cbn [bind length repeat].
    replace (length pre) with (length (map (@Some Q) pre)) at 1
      by apply length_map.
    rewrite put_app_length.
    rewrite uadd_small by idx.
    specialize (IH (pre ++ [x]) fuel).
    rewrite length_app, map_app in IH. rewrite <- !app_assoc in IH.
    cbn in IH. apply IH.
    + exact E.
    + cbn in Hfu. lia.
Qed.

(** With [lambda == 0] the routine copies its input. *)
Lemma denoise_zero (input : list Q) (lambda : Q) :
  fits (length input) -> Qeq_bool lambda 0 = true ->
  denoise input lambda = Ok input.
Proof.
  intros HW H0. unfold denoise, TV1D_denoise. rewrite H0.
  pose proof (copy_ok input HW input [] (length input) eq_refl (Nat.le_refl _)) as H.
  cbn in H. rewrite H. cbn [bind]. apply collect_map_Some.
Qed.

(** On a single sample the routine copies its input. *)
Lemma denoise_one (v lambda : Q) : denoise [v] lambda = Ok [v].
Proof.
  unfold denoise, TV1D_denoise. destruct (Qeq_bool lambda 0); reflexivity.
Qed.

(** Without samples and with [lambda <> 0], the routine reads [input[0]]. *)
Lemma denoise_nil (lambda : Q) :
  denoise [] lambda =
  if Qeq_bool lambda 0 then Ok [] else Err OutOfBounds.
Proof.
  unfold denoise, TV1D_denoise. destruct (Qeq_bool lambda 0); reflexivity.
Qed.

Lemma Rep_init (W : nat) (x0 lambda : Q) :
  (2 <= W)%nat ->
  Rep W 1 1
    (mkState (repeat None W)
       (mkEnv (put (repeat None W) 0 (Some 0%nat)) 0 (x0 - lambda) (x0 - lambda))
       (mkEnv (put (repeat None W) 0 (Some 0%nat)) 0 (x0 + lambda) (x0 + lambda))
       0 0)
    (init_a x0 lambda).
Proof.
  intros HW.
  assert (Hp : nth_error (put (repeat (@None nat) W) 0 (Some 0%nat)) 0
               = Some (Some 0%nat)).
  { apply nth_error_put_eq. rewrite repeat_length. lia. }
  constructor; cbn; try lia.
  - constructor; cbn; auto.
    + apply repeat_length.
    + intros k x Hk. destruct k; discriminate.
  - constructor; cbn; auto.
    + rewrite length_put. apply repeat_length.
    + intros k a v Hk. destruct k; discriminate.
  - constructor; cbn; auto.
    + rewrite length_put. apply repeat_length.
    + intros k a v Hk. destruct k; discriminate.
Qed.

(** With [lambda <> 0] and at least two samples, the routine runs without
    error and returns what the computation on segment lists returns. *)
Lemma collect_length (out : list (option Q)) (l : list Q) :
  collect out = Ok l -> length l = length out.
Proof.
  revert l. induction out as [|[v|] out IH]; cbn; intros l H.
  - injection H as <-. reflexivity.
  - destruct (collect out) as [l'|] eqn:E; cbn in H; [|discriminate].
    injection H as <-. cbn. rewrite (IH l' eq_refl). reflexivity.
  - discriminate.
Qed.

Lemma denoise_general (x0 : Q) (xs : list Q) (xl lambda : Q) :
  fits (length (x0 :: xs ++ [xl])) -> Qeq_bool lambda 0 = false ->
  denoise (x0 :: xs ++ [xl]) lambda = Ok (denoise_a x0 xs xl lambda) /\
  length (denoise_a x0 xs xl lambda) = length (x0 :: xs ++ [xl]).
Proof.
  intros HW H0. unfold denoise, TV1D_denoise. rewrite H0.
  set (input := x0 :: xs ++ [xl]) in *.
  set (W := length input) in *.
  assert (HWl : W = (length xs + 2)%nat).
  { unfold W, input. cbn. rewrite length_app. cbn. lia. }
  cbn [rd_in nth_error input bind].
  replace (W =? 1)%nat with false by (symmetry; apply Nat.eqb_neq; lia).
  rewrite !wr_ok by (rewrite repeat_length; lia). cbn [bind].
  rewrite usub_small by idx.
  destruct (main_loop_sim W input (2 * lambda) HW xs 1
              (mkState (repeat None W)
                 (mkEnv (put (repeat None W) 0 (Some 0%nat)) 0
                    (x0 - lambda) (x0 - lambda))
                 (mkEnv (put (repeat None W) 0 (Some 0%nat)) 0
                    (x0 + lambda) (x0 + lambda)) 0 0)
              (init_a x0 lambda) W (W - 1)%nat)
    as (s' & E1 & R1); try lia.
  - intros k x Hk. unfold input. change (1 + k)%nat with (S k).
    cbn [nth_error]. rewrite nth_error_app1 by (apply nth_error_Some; congruence). exact Hk.
  - apply Rep_init. lia.
  - rewrite E1. cbn [bind].
    assert (Hxl : nth_error input (W - 1) = Some xl).
    { unfold input. replace (W - 1)%nat with (S (length xs)) by lia.
      cbn [nth_error]. rewrite nth_error_app2 by lia.
      rewrite Nat.sub_diag. reflexivity. }
    destruct (finish_sim W (W - 1) input xl lambda s' _ HW ltac:(lia) Hxl R1)
      as (out & E2 & El & E3).
    rewrite E2. cbn [bind]. rewrite E3.
    unfold denoise_a. replace (W - 1)%nat with (S (length xs)) in * by lia.
    replace (1 + length xs)%nat with (S (length xs)) in * by lia.
    split; [reflexivity|].
    apply collect_length in E3. rewrite E3. exact El.
Qed.

(** * Arithmetic of lines and offsets *)

Lemma dbl_S (n : nat) : dbl (S n) == dbl n + 1.
Proof.
  unfold dbl. rewrite Nat2Z.inj_succ, <- Z.add_1_r, inject_Z_plus. reflexivity.
Qed.

Lemma dbl_add1 (n : nat) : dbl (n + 1) == dbl n + 1.
Proof. rewrite Nat.add_1_r. apply dbl_S. Qed.

Lemma dbl_sub (a b : nat) : (b <= a)%nat -> dbl (a - b) == dbl a - dbl b.
Proof.
  intros H. unfold dbl. rewrite Nat2Z.inj_sub by assumption.
  unfold Zminus. rewrite inject_Z_plus, inject_Z_opp. reflexivity.
Qed.

Lemma dbl_le (a b : nat) : (a <= b)%nat -> dbl a <= dbl b.
Proof. intros H. unfold dbl. rewrite <- Zle_Qle. lia. Qed.

Lemma dbl_lt (a b : nat) : (a < b)%nat -> dbl a + 1 <= dbl b.
Proof.
  intros H. rewrite <- dbl_S. apply dbl_le. lia.
Qed.

Lemma dbl_0 : dbl 0 == 0.
Proof. reflexivity. Qed.

Lemma sg_cases (d : dir) : (sg d = 1 /\ d = Up) \/ (sg d = - (1) /\ d = Low).
Proof. destruct d; auto. Qed.

Lemma sg_flip (d : dir) : sg (flip d) == - sg d.
Proof. destruct d; reflexivity. Qed.

Lemma cmp_true (d : dir) (a b : Q) : cmp d a b = true <-> sg d * a <= sg d * b.
Proof.
  destruct d; unfold cmp, sg; rewrite Qle_bool_iff; split; intros; lra.
Qed.

Lemma cmp_false (d : dir) (a b : Q) : cmp d a b = false <-> sg d * b < sg d * a.
Proof.
  split.
  - intros H. destruct (Qlt_le_dec (sg d * b) (sg d * a)) as [|H1]; auto.
    apply cmp_true in H1. congruence.
  - intros H. destruct (cmp d a b) eqn:E; auto.
    apply cmp_true in E. lra.
Qed.

Section Offsets.

Variable y : nat -> Q.

Lemma G_S (k : nat) : G y (S k) == G y k + y k.
Proof. reflexivity. Qed.

Lemma off_start (c : Q) (a : nat) (v : Q) : off y c a v a == c.
Proof. unfold off. ring. Qed.

Lemma off_S (c : Q) (a : nat) (v : Q) (k : nat) :
  off y c a v (S k) == off y c a v k + v - y k.
Proof. unfold off. rewrite dbl_S, G_S. ring. Qed.

(** The same line, seen from one of its points. *)
Lemma off_rebase (c : Q) (a : nat) (v : Q) (b k : nat) :
  off y (off y c a v b) b v k == off y c a v k.
Proof. unfold off. ring. Qed.

Lemma off_diff (c : Q) (a : nat) (v w : Q) (k : nat) :
  off y c a v k == off y c a w k + (v - w) * (dbl k - dbl a).
Proof. unfold off. ring. Qed.

Lemma off_eq_c (c c' : Q) (a : nat) (v : Q) (k : nat) :
  c == c' -> off y c a v k == off y c' a v k.
Proof. intros H. unfold off. rewrite H. reflexivity. Qed.

Lemma off_eq_v (c : Q) (a : nat) (v v' : Q) (k : nat) :
  v == v' -> off y c a v k == off y c a v' k.
Proof. intros H. unfold off. rewrite H. reflexivity. Qed.

Variable lambda : Q.

Lemma seg_ok_eq (d : dir) (c c' : Q) (a : nat) (v v' : Q) (e : nat) :
  c == c' -> v == v' ->
  seg_ok d y lambda c a v e -> seg_ok d y lambda c' a v' e.
Proof.
  intros Hc Hv H k Hk. specialize (H k Hk).
  rewrite <- (off_eq_c c c'), <- (off_eq_v c a v v'); assumption.
Qed.

Lemma seg_ok_weaken (d : dir) (c : Q) (a : nat) (v : Q) (e e' : nat) :
  (e' <= e)%nat -> seg_ok d y lambda c a v e -> seg_ok d y lambda c a v e'.
Proof. intros He H k Hk. apply H. lia. Qed.

(** A line with a value further inside stays inside. *)
Lemma seg_ok_mono (d : dir) (c : Q) (a : nat) (v w : Q) (e : nat) :
  sg d * w <= sg d * v ->
  seg_ok d y lambda c a v e -> seg_ok d y lambda c a w e.
Proof.
  intros Hw H k Hk. specialize (H k Hk).
  rewrite (off_diff c a v w) in H.
  assert (H1 : 0 <= dbl k - dbl a).
  { pose proof (dbl_lt a k ltac:(lia)). lra. }
  assert (H2 : 0 <= (sg d * v - sg d * w) * (dbl k - dbl a)).
  { apply Qmult_le_0_compat; lra. }
  destruct (sg_cases d) as [[E _]|[E _]]; rewrite E in *; lra.
Qed.

Lemma seg_ok_rebase (d : dir) (c c' : Q) (a : nat) (v : Q) (b e : nat) :
  (a <= b)%nat -> c' == off y c a v b ->
  seg_ok d y lambda c a v e -> seg_ok d y lambda c' b v e.
Proof.
  intros Hab Hc H k Hk. specialize (H k ltac:(lia)).
  rewrite (off_eq_c c' (off y c a v b)) by assumption.
  rewrite off_rebase. exact H.
Qed.

(** A point on a line that is extended by one sample. *)
Lemma seg_ok_S (d : dir) (c : Q) (a : nat) (v : Q) (e : nat) :
  seg_ok d y lambda c a v e ->
  sg d * off y c a v (S e) <= lambda ->
  seg_ok d y lambda c a v (S e).
Proof.
  intros H He k Hk. destruct (Nat.eq_dec k (S e)) as [->|Hne]; auto.
  apply H. lia.
Qed.

End Offsets.

(** ** Merging two segments *)

Lemma merged_unwind (v c : Q) (ind a i : nat) :
  (ind <= a)%nat -> (a <= i)%nat ->
  merged (c + (v - c) * (dbl (a - ind) / dbl (i - ind + 1))) v c ind a (S i).
Proof.
  intros H1 H2. unfold merged.
  rewrite dbl_sub by lia. rewrite dbl_add1, dbl_sub by lia. rewrite dbl_S.
  assert (H : 0 < dbl i - dbl ind + 1).
  { pose proof (dbl_le ind i ltac:(lia)). lra. }
  field. lra.
Qed.

Lemma merged_extend (x c : Q) (a i : nat) :
  (a <= i)%nat ->
  merged (c + (x - c) / dbl (i - a + 1)) c x a i (S i).
Proof.
  intros H1. unfold merged.
  rewrite dbl_add1, dbl_sub by lia. rewrite dbl_S.
  assert (H : 0 < dbl i - dbl a + 1).
  { pose proof (dbl_le a i ltac:(lia)). lra. }
  field. lra.
Qed.

Lemma merged_close (m fo : Q) (s a1 i : nat) :
  (s <= a1)%nat -> (a1 <= i)%nat ->
  merged m fo (m + (m - fo) * (dbl (a1 - s) / dbl (i - a1 + 1))) s a1 (S i).
Proof.
  intros H1 H2. unfold merged.
  rewrite dbl_sub by lia. rewrite dbl_add1, dbl_sub by lia. rewrite dbl_S.
  assert (H : 0 < dbl i - dbl a1 + 1).
  { pose proof (dbl_le a1 i ltac:(lia)). lra. }
  field. lra.
Qed.

(** The merged value lies between the two values. *)
Lemma merged_between (d : dir) (m v c : Q) (ind a e : nat) :
  merged m v c ind a e -> (ind <= a)%nat -> (a < e)%nat ->
  sg d * c <= sg d * v ->
  sg d * c <= sg d * m /\ sg d * m <= sg d * v.
Proof.
  unfold merged. intros Hm H1 H2 Hcv.
  pose proof (dbl_le ind a H1) as D1. pose proof (dbl_lt a e H2) as D2.
  assert (E1 : (m - c) * (dbl e - dbl ind) == (v - c) * (dbl a - dbl ind))
    by (ring_simplify; ring_simplify in Hm; lra).
  assert (E2 : (v - m) * (dbl e - dbl ind) == (v - c) * (dbl e - dbl a))
    by (ring_simplify; ring_simplify in Hm; lra).
  assert (P : 0 < dbl e - dbl ind) by lra.
  destruct (sg_cases d) as [[E _]|[E _]]; rewrite E in *.
  - assert (0 <= (v - c) * (dbl a - dbl ind)) by (apply Qmult_le_0_compat; lra).
    assert (0 <= (v - c) * (dbl e - dbl a)) by (apply Qmult_le_0_compat; lra).
    split.
    + destruct (Qlt_le_dec m c) as [Hlt|]; [|lra].
      assert (0 < (c - m) * (dbl e - dbl ind)) by (apply Qmult_lt_0_compat; lra).
      lra.
    + destruct (Qlt_le_dec v m) as [Hlt|]; [|lra].
      assert (0 < (m - v) * (dbl e - dbl ind)) by (apply Qmult_lt_0_compat; lra).
      lra.
  - assert (0 <= (c - v) * (dbl a - dbl ind)) by (apply Qmult_le_0_compat; lra).
    assert (0 <= (c - v) * (dbl e - dbl a)) by (apply Qmult_le_0_compat; lra).
    split.
    + destruct (Qlt_le_dec c m) as [Hlt|]; [|lra].
      assert (0 < (m - c) * (dbl e - dbl ind)) by (apply Qmult_lt_0_compat; lra).
      lra.
    + destruct (Qlt_le_dec m v) as [Hlt|]; [|lra].
      assert (0 < (v - m) * (dbl e - dbl ind)) by (apply Qmult_lt_0_compat; lra).
      lra.
Qed.

(** * Chains of segments *)

Lemma mono_cons (d : dir) (v w : Q) (l : list Q) :
  mono d (v :: w :: l) <-> sg d * v < sg d * w /\ mono d (w :: l).
Proof. reflexivity. Qed.

Lemma mono_app_l (d : dir) (l1 l2 : list Q) : mono d (l1 ++ l2) -> mono d l1.
Proof.
  induction l1 as [|v l1 IH]; intros H; [exact I|].
  destruct l1 as [|w l1]; [exact I|].
  change (mono d (v :: w :: (l1 ++ l2))) in H.
  rewrite mono_cons in H |- *. destruct H as [H1 H2]. split; auto.
Qed.

Lemma mono_snoc (d : dir) (l : list Q) (v w : Q) :
  mono d (l ++ [v]) -> sg d * v < sg d * w -> mono d (l ++ [v; w]).
Proof.
  induction l as [|u l IH]; intros H Hvw.
  - cbn. auto.
  - destruct l as [|u' l].
    + cbn in *. tauto.
    + change (mono d (u :: u' :: (l ++ [v]))) in H.
      change (mono d (u :: u' :: (l ++ [v; w]))).
      rewrite mono_cons in H |- *. destruct H as [H1 H2]. split; auto.
Qed.

(** The first value of a chain is the innermost. *)
Lemma mono_first_le (d : dir) (v : Q) (l : list Q) (w : Q) :
  mono d (v :: l) -> In w (v :: l) -> sg d * v <= sg d * w.
Proof.
  revert v. induction l as [|u l IH]; intros v H Hin.
  - destruct Hin as [->|[]]. lra.
  - rewrite mono_cons in H. destruct H as [H1 H2].
    destruct Hin as [->|Hin]; [lra|].
    specialize (IH u H2 Hin). lra.
Qed.

Section Chains.

Variable y : nat -> Q.
Variable lambda : Q.

Lemma geo_cons (d : dir) (c : Q) (a : nat) (v : Q) (p : nat * Q)
    (rest : list (nat * Q)) (e : nat) (t : Q) :
  geo d y lambda c ((a, v) :: p :: rest) e t <->
  (a < fst p)%nat /\ seg_ok d y lambda c a v (fst p) /\
  off y c a v (fst p) == sg d * lambda /\
  geo d y lambda (sg d * lambda) (p :: rest) e t.
Proof. destruct p. reflexivity. Qed.

Lemma geo_single (d : dir) (c : Q) (a : nat) (v : Q) (e : nat) (t : Q) :
  geo d y lambda c [(a, v)] e t <->
  (a < e)%nat /\ seg_ok d y lambda c a v e /\ off y c a v e == t.
Proof. reflexivity. Qed.

Lemma geo_eq_c (d : dir) (c c' : Q) (segs : list (nat * Q)) (e : nat) (t : Q) :
  c == c' -> geo d y lambda c segs e t -> geo d y lambda c' segs e t.
Proof.
  intros Hc H. destruct segs as [|[a v] [|p rest]]; [exact H| |].
  - rewrite geo_single in *. destruct H as (H1 & H2 & H3).
    split; [exact H1|]. split.
    + eapply seg_ok_eq; eauto. reflexivity.
    + rewrite <- H3. apply off_eq_c. symmetry. exact Hc.
  - rewrite geo_cons in *. destruct H as (H1 & H2 & H3 & H4).
    split; [exact H1|]. split; [|split; [|exact H4]].
    + eapply seg_ok_eq; eauto. reflexivity.
    + rewrite <- H3. apply off_eq_c. symmetry. exact Hc.
Qed.

Lemma geo_eq_t (d : dir) (c : Q) (segs : list (nat * Q)) (e : nat) (t t' : Q) :
  t == t' -> geo d y lambda c segs e t -> geo d y lambda c segs e t'.
Proof.
  intros Ht. revert c. induction segs as [|[a v] segs IH]; intros c H; [exact H|].
  destruct segs as [|p rest].
  - rewrite geo_single in *. destruct H as (H1 & H2 & H3).
    split; [exact H1|]. split; [exact H2|]. rewrite H3. exact Ht.
  - rewrite geo_cons in *. destruct H as (H1 & H2 & H3 & H4).
    split; [exact H1|]. split; [exact H2|]. split; [exact H3|]. apply IH. exact H4.
Qed.

(** The value of the first segment may be replaced by an equal one. *)
Lemma geo_eq_v (d : dir) (c : Q) (a : nat) (v v' : Q) (rest : list (nat * Q))
    (e : nat) (t : Q) :
  v == v' -> geo d y lambda c ((a, v) :: rest) e t ->
  geo d y lambda c ((a, v') :: rest) e t.
Proof.
  intros Hv H. destruct rest as [|p rest].
  - rewrite geo_single in *. destruct H as (H1 & H2 & H3).
    split; [exact H1|]. split.
    + eapply seg_ok_eq; eauto. reflexivity.
    + rewrite <- H3. apply off_eq_v. symmetry. exact Hv.
  - rewrite geo_cons in *. destruct H as (H1 & H2 & H3 & H4).
    split; [exact H1|]. split; [|split; [|exact H4]].
    + eapply seg_ok_eq; eauto. reflexivity.
    + rewrite <- H3. apply off_eq_v. symmetry. exact Hv.
Qed.

(** The last two segments of a chain. *)
Lemma geo_last2 (d : dir) (L : list (nat * Q)) (ind a : nat) (v c : Q) :
  forall (c0 : Q) (e : nat) (t : Q),
    geo d y lambda c0 (L ++ [(ind, v); (a, c)]) e t ->
    (ind < a < e)%nat.
Proof.
  induction L as [|[a0 v0] L IH]; intros c0 e t H.
  - cbn in H. lia.
  - destruct L as [|p L]; cbn [app] in H; rewrite geo_cons in H;
      destruct H as (_ & _ & _ & H); eapply IH; exact H.
Qed.

Lemma geo_merge2 (d : dir) (c1 : Q) (ind a : nat) (v c m : Q) (e : nat) (t : Q) :
  geo d y lambda c1 [(ind, v); (a, c)] e t ->
  merged m v c ind a e -> sg d * c <= sg d * v ->
  geo d y lambda c1 [(ind, m)] e t.
Proof.
  intros H Hm Hcv. cbn in H. destruct H as (H1 & H2 & H3 & H4 & H5 & H6).
  destruct (merged_between d m v c ind a e Hm ltac:(lia) H4 Hcv) as [B1 B2].
  rewrite geo_single. split; [lia|]. split.
  - intros k Hk. destruct (Nat.le_gt_cases k a) as [Hka|Hka].
    + apply (seg_ok_mono y lambda d c1 ind v m a B2 H2). lia.
    + specialize (H5 k ltac:(lia)).
      assert (E : off y c1 ind m k
                  == off y (sg d * lambda) a c k + (c - m) * (dbl e - dbl k)).
      { unfold off in *. unfold merged in Hm.
        ring_simplify. ring_simplify in Hm. ring_simplify in H3. lra. }
      rewrite E.
      assert (D : 0 <= dbl e - dbl k).
      { pose proof (dbl_le k e ltac:(lia)). lra. }
      assert (P : 0 <= (sg d * m - sg d * c) * (dbl e - dbl k))
        by (apply Qmult_le_0_compat; lra).
      destruct (sg_cases d) as [[E1 _]|[E1 _]]; rewrite E1 in *; lra.
  - unfold off in *. unfold merged in Hm.
    ring_simplify. ring_simplify in Hm. ring_simplify in H3.
    ring_simplify in H6. lra.
Qed.

Lemma geo_merge (d : dir) (L : list (nat * Q)) (ind a : nat) (v c m : Q)
    (e : nat) (t : Q) :
  merged m v c ind a e -> sg d * c <= sg d * v ->
  forall c0, geo d y lambda c0 (L ++ [(ind, v); (a, c)]) e t ->
             geo d y lambda c0 (L ++ [(ind, m)]) e t.
Proof.
  intros Hm Hcv. induction L as [|[a0 v0] L IH]; intros c0 H.
  - eapply geo_merge2; eauto.
  - destruct L as [|p L]; cbn [app] in *; rewrite geo_cons in *;
      destruct H as (H1 & H2 & H3 & H4);
      (split; [exact H1|]; split; [exact H2|]; split; [exact H3|]);
      apply IH; exact H4.
Qed.

(** One more sample: a segment from [i] to [i+1]. *)
Lemma geo_push (d : dir) (L : list (nat * Q)) (a : nat) (c x : Q) (i : nat) (t : Q) :
  t == sg d * lambda + x - y i -> sg d * t <= lambda ->
  forall c0, geo d y lambda c0 (L ++ [(a, c)]) i (sg d * lambda) ->
             geo d y lambda c0 (L ++ [(a, c); (i, x)]) (S i) t.
Proof.
  intros Ht Hl. induction L as [|[a0 v0] L IH]; intros c0 H.
  - cbn [app] in *. rewrite geo_single in H. destruct H as (H1 & H2 & H3).
    rewrite geo_cons. cbn [fst]. split; [exact H1|]. split; [exact H2|].
    split; [exact H3|]. rewrite geo_single. split; [lia|].
    assert (E : off y (sg d * lambda) i x (S i) == t).
    { rewrite off_S, off_start. lra. }
    split; [|exact E].
    intros k Hk. replace k with (S i) by lia. rewrite E. exact Hl.
  - destruct L as [|p L]; cbn [app] in *; rewrite geo_cons in *;
      destruct H as (H1 & H2 & H3 & H4);
      (split; [exact H1|]; split; [exact H2|]; split; [exact H3|]);
      apply IH; exact H4.
Qed.

(** A chain lies inside the line through its first segment. *)
Lemma geo_tangent (d : dir) (segs : list (nat * Q)) (e : nat) (t : Q) :
  forall (c : Q) (a : nat) (v : Q),
    geo d y lambda c ((a, v) :: segs) e t ->
    mono d (v :: map snd segs) ->
    seg_ok d y lambda c a v e.
Proof.
  induction segs as [|[a' v'] segs IH]; intros c a v H Hm.
  - rewrite geo_single in H. tauto.
  - rewrite geo_cons in H. cbn [fst] in H. destruct H as (H1 & H2 & H3 & H4).
    cbn [map snd] in Hm. rewrite mono_cons in Hm. destruct Hm as [Hm1 Hm2].
    specialize (IH _ _ _ H4 Hm2).
    intros k Hk. destruct (Nat.le_gt_cases k a') as [Hka|Hka].
    + apply H2. lia.
    + rewrite <- (off_rebase y c a v a' k).
      rewrite (off_eq_c y _ _ a' v k H3).
      apply (seg_ok_mono y lambda d (sg d * lambda) a' v' v e); [lra|exact IH|lia].
Qed.

End Chains.

(** ** The segments of an envelope *)

Lemma effr_decomp (s : nat) (f : Q) (rm : list (nat * Q)) (c : Q) :
  effr s f rm c = eff_init s f rm ++ [(eff_last s rm, c)].
Proof.
  destruct rm as [|[a w] rest]; [reflexivity|].
  cbn. reflexivity.
Qed.

Lemma eff_init_cons (s : nat) (f : Q) (a : nat) (w : Q) (rest : list (nat * Q)) :
  eff_init s f ((a, w) :: rest)
  = eff_init s f rest ++ [match rest with [] => (s, f) | p :: _ => p end].
Proof.
  destruct rest as [|p rest]; [reflexivity|].
  cbn. reflexivity.
Qed.

Lemma eff_last_prev (s : nat) (f : Q) (rest : list (nat * Q)) :
  eff_last s rest = fst (match rest with [] => (s, f) | p :: _ => p end).
Proof. destruct rest as [|[a w] rest]; reflexivity. Qed.

Lemma last_start_rev (s : nat) (m : list (nat * Q)) :
  last_start s m = eff_last s (rev m).
Proof.
  unfold last_start. destruct m as [|[a w] m] using rev_ind; [reflexivity|].
  rewrite last_last, rev_app_distr. reflexivity.
Qed.

Section Unwind.

Variable y : nat -> Q.
Variable lambda : Q.

Lemma unwind_a_chain (d : dir) (i s : nat) (f c0 t : Q) :
  forall (rm : list (nat * Q)) (c : Q),
    geo d y lambda c0 (effr s f rm c) (S i) t ->
    mono d (map snd (eff_init s f rm)) ->
    geo d y lambda c0
      (effr s f (fst (unwind_a d i s f rm c)) (snd (unwind_a d i s f rm c)))
      (S i) t /\
    mono d (map snd
      (effr s f (fst (unwind_a d i s f rm c)) (snd (unwind_a d i s f rm c)))) /\
    (fst (unwind_a d i s f rm c) = [] -> rm <> [] ->
       sg d * snd (unwind_a d i s f rm c) <= sg d * f) /\
    sg d * c <= sg d * snd (unwind_a d i s f rm c) /\
    exists pre, rm = pre ++ fst (unwind_a d i s f rm c).
Proof.
  induction rm as [|[a w] rest IH]; intros c Hg Hm.
  - cbn. split; [exact Hg|]. split; [exact I|]. split; [congruence|].
    split; [lra|]. exists []. reflexivity.
  - cbn [unwind_a].
    rewrite effr_decomp, eff_init_cons in Hg. rewrite eff_init_cons in Hm.
    rewrite <- app_assoc in Hg. cbn [app eff_last] in Hg.
    pose proof (eff_last_prev s f rest) as El.
    destruct (match rest with [] => (s, f) | p :: _ => p end) as [ind v] eqn:Ep.
    cbn [fst] in El.
    pose proof (geo_last2 _ _ _ _ _ _ _ _ _ _ _ Hg) as Hidx.
    destruct (cmp d c v) eqn:Ec.
    + apply cmp_true in Ec.
      assert (Hmg : merged (c + (v - c) * (dbl (a - ind) / dbl (i - ind + 1)))
                      v c ind a (S i))
        by (apply merged_unwind; lia).
      pose proof (merged_between d _ _ _ _ _ _ Hmg ltac:(lia) ltac:(lia) Ec)
        as [B1 B2].
      pose proof (geo_merge y lambda d _ _ _ _ _ _ _ _ Hmg Ec _ Hg) as Hg'.
      set (c' := c + (v - c) * (dbl (a - ind) / dbl (i - ind + 1))) in *.
      assert (Hg'' : geo d y lambda c0 (effr s f rest c') (S i) t)
        by (rewrite effr_decomp, El; exact Hg').
      clear Hg'. rename Hg'' into Hg'.
      rewrite map_app in Hm. apply mono_app_l in Hm.
      destruct (IH _ Hg' Hm) as (I1 & I2 & I3 & I4 & pre & I5).
      split; [exact I1|]. split; [exact I2|]. split; [|split].
      * intros E _. destruct rest as [|p rest'].
        -- injection Ep as <- <-. cbn in *. lra.
        -- apply I3; [exact E | discriminate].
      * lra.
      * exists ((a, w) :: pre). cbn. rewrite <- I5. reflexivity.
    + apply cmp_false in Ec. cbn [fst snd].
      rewrite effr_decomp, eff_init_cons, Ep, <- app_assoc. cbn [app eff_last].
      split; [exact Hg|]. split; [|split; [|split]].
      * rewrite map_app. cbn [map snd]. rewrite map_app in Hm. cbn [map snd] in Hm.
        apply mono_snoc; assumption.
      * discriminate.
      * lra.
      * exists []. reflexivity.
Qed.

End Unwind.

Section Extend.

Variable y : nat -> Q.
Variable lambda : Q.

Lemma geo_last1 (d : dir) (L : list (nat * Q)) (a : nat) (c : Q) :
  forall (c0 : Q) (e : nat) (t : Q),
    geo d y lambda c0 (L ++ [(a, c)]) e t -> (a < e)%nat.
Proof.
  induction L as [|[a0 v0] L IH]; intros c0 e t H.
  - cbn in H. tauto.
  - destruct L as [|p L]; cbn [app] in H; rewrite geo_cons in H;
      destruct H as (_ & _ & _ & H); eapply IH; exact H.
Qed.

Lemma extend_a_done (d : dir) (i : nat) (x : Q) (a : astate) :
  done (extend_a d i x a) = done a.
Proof.
  unfold extend_a. destruct (unwind_a _ _ _ _ _ _). destruct d; reflexivity.
Qed.

Lemma extend_a_other (d : dir) (i : nat) (x : Q) (a : astate) :
  aside (flip d) (extend_a d i x a) = aside (flip d) a.
Proof.
  unfold extend_a. destruct (unwind_a _ _ _ _ _ _). destruct d; reflexivity.
Qed.

Lemma extend_a_afirst (d : dir) (i : nat) (x : Q) (a : astate) :
  afirst (aside d (extend_a d i x a)) = afirst (aside d a).
Proof.
  unfold extend_a. destruct (unwind_a _ _ _ _ _ _). destruct d; reflexivity.
Qed.

Lemma extend_a_chain (d : dir) (i : nat) (x : Q) (a : astate) (c0 t : Q) :
  chain d y lambda c0 (eff (length (done a)) (aside d a)) i (sg d * lambda) ->
  normal (aside d a) ->
  sg d * x <= sg d * acurr (aside d a) ->
  t == sg d * lambda + x - y i -> sg d * t <= lambda ->
  chain d y lambda c0
    (eff (length (done a)) (aside d (extend_a d i x a))) (S i) t /\
  (mids (aside d (extend_a d i x a)) = [] ->
     sg d * acurr (aside d (extend_a d i x a)) <= sg d * afirst (aside d a)) /\
  sg d * x <= sg d * acurr (aside d (extend_a d i x a)) /\
  exists post,
    mids (aside d a) = mids (aside d (extend_a d i x a)) ++ post.
Proof.
  intros [Hg Hm] Hn Hx Ht Hl.
  unfold extend_a. rewrite last_start_rev.
  set (s := length (done a)) in *.
  destruct (aside d a) as [m f c] eqn:Ea. cbn [mids afirst acurr] in *.
  unfold eff in Hg, Hm. cbn [mids afirst acurr] in Hg, Hm.
  rewrite effr_decomp in Hg, Hm.
  pose proof (geo_last1 _ _ _ _ _ _ _ Hg) as Hlast.
  set (c1 := c + (x - c) / dbl (i - eff_last s (rev m) + 1)).
  assert (Hmg : merged c1 c x (eff_last s (rev m)) i (S i))
    by (apply merged_extend; lia).
  pose proof (merged_between d _ _ _ _ _ _ Hmg ltac:(lia) ltac:(lia) Hx)
    as [B1 B2].
  pose proof (geo_push y lambda d _ _ _ _ _ _ Ht Hl _ Hg) as Hg1.
  pose proof (geo_merge y lambda d _ _ _ _ _ _ _ _ Hmg Hx _ Hg1) as Hg2.
  rewrite <- effr_decomp in Hg2.
  rewrite map_app in Hm. apply mono_app_l in Hm.
  destruct (unwind_a_chain y lambda d i s f c0 t (rev m) c1 Hg2 Hm)
    as (U1 & U2 & U3 & U4 & pre & U5).
  destruct (unwind_a d i s f (rev m) c1) as [rm c'] eqn:Eu.
  cbn [fst snd] in *.
  rewrite aside_set_same. unfold eff. cbn [mids afirst acurr].
  rewrite rev_involutive.
  split; [split; assumption|]. split; [|split].
  - intros E. apply (f_equal (@rev _)) in E. rewrite rev_involutive in E.
    cbn in E. subst rm. destruct m as [|p m].
    + cbn in Eu. injection Eu as <-. unfold normal in Hn. cbn in Hn.
      destruct (sg_cases d) as [[E1 _]|[E1 _]]; rewrite E1 in *; lra.
    + apply U3; auto. intros E. apply (f_equal (@rev _)) in E.
      rewrite rev_involutive in E. discriminate.
  - lra.
  - exists (rev pre). apply (f_equal (@rev _)) in U5.
    rewrite rev_involutive, rev_app_distr in U5. exact U5.
Qed.

End Extend.

(** * Certificates of finished prefixes *)

Lemma sumQ_app (l1 l2 : list Q) : sumQ (l1 ++ l2) == sumQ l1 + sumQ l2.
Proof.
  induction l1 as [|x l1 IH]; cbn; [ring|]. rewrite IH. ring.
Qed.

Lemma sumQ_repeat (v : Q) (n : nat) : sumQ (repeat v n) == v * dbl n.
Proof.
  induction n as [|n IH]; cbn [repeat sumQ].
  - rewrite dbl_0. ring.
  - rewrite IH, dbl_S. ring.
Qed.

Lemma lastv_app_repeat (dn : list Q) (v : Q) (n : nat) :
  (0 < n)%nat -> lastv (dn ++ repeat v n) = v.
Proof.
  intros Hn. unfold lastv. destruct n as [|n]; [lia|].
  replace (repeat v (S n)) with (repeat v n ++ [v])
    by (rewrite <- repeat_cons; reflexivity).
  rewrite app_assoc, last_last. reflexivity.
Qed.

Section Cert.

Variable y : nat -> Q.
Variable lambda : Q.

Lemma cert_eq_u (k : nat) (u u' prev : Q) (l : list Q) :
  u == u' -> cert y lambda k u prev l -> cert y lambda k u' prev l.
Proof.
  revert k u u' prev. induction l as [|x l IH]; intros k u u' prev Hu H; [exact I|].
  cbn [cert] in *. destruct H as (H1 & H2 & H3 & H4 & H5).
  split; [lra|]. split; [lra|].
  split; [intros Hlt; specialize (H3 Hlt); lra|].
  split; [intros Hlt; specialize (H4 Hlt); lra|].
  eapply IH; [|exact H5]. lra.
Qed.

(** A run of the value [v] from [k] on, starting with offset [u]. *)
Lemma cert_run (n : nat) :
  forall (k : nat) (u v : Q),
    (forall j, (k <= j < k + n)%nat ->
       - lambda <= off y u k v j /\ off y u k v j <= lambda) ->
    cert y lambda k u v (repeat v n).
Proof.
  induction n as [|n IH]; intros k u v H; [exact I|].
  cbn [repeat cert].
  pose proof (H k ltac:(lia)) as [H1 H2]. rewrite off_start in H1, H2.
  split; [exact H1|]. split; [exact H2|].
  split; [intros Hlt; lra|]. split; [intros Hlt; lra|].
  apply (cert_eq_u (S k) (off y u k v (S k))).
  - rewrite off_S, off_start. ring.
  - apply IH. intros j Hj. rewrite off_rebase. apply H. lia.
Qed.

Lemma cert_app (l1 l2 : list Q) :
  forall (k : nat) (u prev : Q),
    cert y lambda k u prev l1 ->
    cert y lambda (k + length l1)
      (u + sumQ l1 - (G y (k + length l1) - G y k)) (last l1 prev) l2 ->
    cert y lambda k u prev (l1 ++ l2).
Proof.
  induction l1 as [|x l1 IH]; intros k u prev H1 H2.
  - cbn in *. rewrite Nat.add_0_r in H2.
    eapply cert_eq_u; [|exact H2]. ring.
  - cbn [app cert] in *. destruct H1 as (A1 & A2 & A3 & A4 & A5).
    repeat split; auto. apply IH; [exact A5|].
    rewrite last_cons_default in H2.
    replace (k + length (x :: l1))%nat with (S k + length l1)%nat in H2
      by (cbn; lia).
    eapply cert_eq_u; [|exact H2].
    cbn [sumQ]. rewrite (G_S y k). ring.
Qed.

Lemma knot_app_run (dn : list Q) (v : Q) (n : nat) :
  knot y (dn ++ repeat v n)
  == off y (knot y dn) (length dn) v (length dn + n).
Proof.
  unfold knot, off. rewrite sumQ_app, sumQ_repeat, length_app, repeat_length.
  assert (E : dbl (length dn + n) == dbl (length dn) + dbl n).
  { unfold dbl. rewrite Nat2Z.inj_add, inject_Z_plus. reflexivity. }
  rewrite E. ring.
Qed.

(** A run of the value [v] after the finished prefix. *)
Lemma cert_list_run (dn : list Q) (v : Q) (n : nat) :
  0 <= lambda ->
  cert_list y lambda dn -> jump_ok y lambda dn v ->
  (forall k, (length dn < k < length dn + n)%nat ->
     - lambda <= off y (knot y dn) (length dn) v k /\
     off y (knot y dn) (length dn) v k <= lambda) ->
  cert_list y lambda (dn ++ repeat v n).
Proof.
  intros Hl Hc Hj Hb. destruct dn as [|x0 l].
  - destruct n as [|n]; [exact I|]. cbn [app repeat cert_list].
    apply cert_run. intros j Hj'.
    specialize (Hb j ltac:(cbn; lia)).
    unfold knot, off in *. cbn [sumQ length G] in Hb.
    rewrite dbl_0 in Hb. unfold off.
    assert (E : dbl 1 == 1) by reflexivity. rewrite E.
    assert (E0 : G y 1 == y 0%nat) by (cbn; ring). rewrite E0.
    split; [destruct Hb as [Hb _]|destruct Hb as [_ Hb]]; lra.
  - cbn [app cert_list] in *. apply cert_app; [exact Hc|].
    destruct n as [|n]; [exact I|].
    assert (Ek : x0 - y 0%nat + sumQ l - (G y (1 + length l) - G y 1)
                 == knot y (x0 :: l)).
    { unfold knot. cbn [sumQ length G Nat.add]. ring. }
    apply (cert_eq_u _ (knot y (x0 :: l))); [rewrite Ek; reflexivity|].
    change (last l x0) with (last l x0).
    assert (El : last l x0 = lastv (x0 :: l)).
    { unfold lastv. rewrite last_cons_default. reflexivity. }
    rewrite El.
    destruct Hj as [Hj|[[Hj1 Hj2]|[Hj1 Hj2]]]; [discriminate| |].
    + cbn [repeat cert]. split; [lra|]. split; [lra|].
      split; [intros; lra|]. split; [intros; lra|].
      apply (cert_eq_u _ (off y (knot y (x0 :: l)) (1 + length l) v
                            (S (1 + length l)))).
      { rewrite off_S, off_start. ring. }
      apply cert_run. intros j Hj'. rewrite off_rebase.
      apply Hb. cbn [length]. lia.
    + cbn [repeat cert]. split; [lra|]. split; [lra|].
      split; [intros; lra|]. split; [intros; lra|].
      apply (cert_eq_u _ (off y (knot y (x0 :: l)) (1 + length l) v
                            (S (1 + length l)))).
      { rewrite off_S, off_start. ring. }
      apply cert_run. intros j Hj'. rewrite off_rebase.
      apply Hb. cbn [length]. lia.
Qed.

End Cert.

(** * The segments of an envelope, from the front *)

Lemma eff_cons (s a1 : nat) (v1 : Q) (om : list (nat * Q)) (fo co : Q) :
  eff s (mkA ((a1, v1) :: om) fo co) = (s, fo) :: eff a1 (mkA om v1 co).
Proof.
  unfold eff. cbn [mids afirst acurr rev].
  destruct (rev om) as [|[a w] rest] eqn:E; cbn.
  - reflexivity.
  - rewrite rev_app_distr. cbn. reflexivity.
Qed.

Lemma eff_hd (s : nat) (e : aenv) :
  exists rest, eff s e = (s, eff_first e) :: rest.
Proof.
  destruct e as [m f c]. unfold eff_first. cbn [mids afirst acurr].
  destruct m as [|[a1 v1] om].
  - exists []. reflexivity.
  - rewrite eff_cons. eexists. reflexivity.
Qed.

Lemma normal_first (e : aenv) : normal e -> eff_first e == afirst e.
Proof.
  unfold normal, eff_first. destruct (mids e) as [|p m]; cbn.
  - intros H. symmetry. exact H.
  - intros _. reflexivity.
Qed.

Lemma normal_cons (a1 : nat) (v1 : Q) (om : list (nat * Q)) (fo co : Q) :
  normal (mkA ((a1, v1) :: om) fo co) -> normal (mkA om v1 co).
Proof.
  unfold normal. cbn [mids afirst acurr rev].
  destruct (rev om) as [|[a w] rest]; cbn; auto.
Qed.

Lemma eff_store_last (s : nat) (m : list (nat * Q)) (f c : Q) :
  eff s (mkA (store_last m c) f c) = eff s (mkA m f c).
Proof.
  unfold eff, store_last. cbn [mids afirst acurr].
  destruct (rev m) as [|[a w] rest] eqn:E; [reflexivity|].
  rewrite rev_involutive. reflexivity.
Qed.

Lemma normal_store_last (m : list (nat * Q)) (f c : Q) :
  m <> [] -> normal (mkA (store_last m c) f c).
Proof.
  intros Hm. unfold normal, store_last. cbn [mids afirst acurr].
  destruct (rev m) as [|[a w] rest] eqn:E.
  - apply (f_equal (@rev _)) in E. rewrite rev_involutive in E. contradiction.
  - rewrite rev_involutive. reflexivity.
Qed.

Section Close.

Variable y : nat -> Q.
Variable lambda : Q.
Hypothesis Hpos : 0 < lambda.

Lemma geo_hd_lt (d : dir) (c : Q) (a : nat) (v : Q) (rest : list (nat * Q))
    (e : nat) (t : Q) :
  geo d y lambda c ((a, v) :: rest) e t -> (a < e)%nat.
Proof.
  revert c a v. induction rest as [|[a' v'] rest IH]; intros c a v H.
  - rewrite geo_single in H. tauto.
  - rewrite geo_cons in H. destruct H as (H1 & _ & _ & H4).
    apply IH in H4. cbn in H1. lia.
Qed.

(** Both bounds hold on a line that is inside for both envelopes. *)
Lemma seg_ok_both (d : dir) (c : Q) (a : nat) (v : Q) (e1 e2 k : nat) :
  seg_ok d y lambda c a v e1 -> seg_ok (flip d) y lambda c a v e2 ->
  (a < k <= e1)%nat -> (k <= e2)%nat ->
  - lambda <= off y c a v k /\ off y c a v k <= lambda.
Proof.
  intros H1 H2 Hk1 Hk2. specialize (H1 k Hk1). specialize (H2 k ltac:(lia)).
  destruct d; cbn [flip sg] in *; split; lra.
Qed.

Lemma close_step (d : dir) (i eo : nat) (co : Q) (dn : list Q) (m fo : Q)
    (a1 : nat) (v1 : Q) (om : list (nat * Q)) :
  (eo <= S i)%nat ->
  CloseInv d y lambda i eo co dn m fo ((a1, v1) :: om) ->
  cmp d m fo = true ->
  CloseInv d y lambda i eo co (dn ++ repeat fo (a1 - length dn))
    (m + (m - fo) * (dbl (a1 - length dn) / dbl (i - a1 + 1))) v1 om.
Proof.
  intros Heo [C1 C2 [C3 C3m] C4 C5 C6 C7 C8] Hcmp.
  apply cmp_true in Hcmp.
  set (s := length dn) in *. set (c := knot y dn) in *.
  rewrite eff_cons in C3, C3m.
  destruct (eff_hd a1 (mkA om v1 co)) as [rest Er]. rewrite Er in C3, C3m.
  pose proof (normal_cons _ _ _ _ _ C4) as C4'.
  pose proof (normal_first _ C4') as Ew. cbn [afirst] in Ew.
  set (w := eff_first (mkA om v1 co)) in *.
  rewrite geo_cons in C3. cbn [fst] in C3. destruct C3 as (I1 & S1 & O1 & G1).
  cbn [map snd] in C3m. rewrite mono_cons in C3m. destruct C3m as [M1 M2].
  pose proof (geo_hd_lt _ _ _ _ _ _ _ G1) as Ha1.
  rewrite geo_single in C2. destruct C2 as (I2 & S2 & O2).
  set (m' := m + (m - fo) * (dbl (a1 - s) / dbl (i - a1 + 1))).
  set (dn' := dn ++ repeat fo (a1 - s)).
  assert (Hlen : length dn' = a1).
  { unfold dn'. rewrite length_app, repeat_length. unfold s. lia. }
  assert (Ek : knot y dn' == off y c s fo a1).
  { unfold dn'. rewrite knot_app_run. fold s. fold c.
    replace (s + (a1 - s))%nat with a1 by lia. reflexivity. }
  assert (Ek' : knot y dn' == sg (flip d) * lambda) by (rewrite Ek; exact O1).
  assert (Hm : merged m fo m' s a1 (S i)) by (apply merged_close; lia).
  assert (Hsf : sg (flip d) == - sg d) by apply sg_flip.
  pose proof (dbl_lt s a1 I1) as D1. pose proof (dbl_lt a1 (S i) ltac:(lia)) as D2.
  assert (Hm'm : sg d * m' <= sg d * m).
  { unfold merged in Hm.
    assert (E : (m' - m) * (dbl (S i) - dbl a1) == (m - fo) * (dbl a1 - dbl s))
      by (ring_simplify; ring_simplify in Hm; lra).
    destruct (sg_cases d) as [[E1 _]|[E1 _]]; rewrite E1 in *.
    - assert (0 <= (fo - m) * (dbl a1 - dbl s)) by (apply Qmult_le_0_compat; lra).
      destruct (Qlt_le_dec m m') as [Hlt|]; [|lra].
      assert (0 < (m' - m) * (dbl (S i) - dbl a1))
        by (apply Qmult_lt_0_compat; lra).
      lra.
    - assert (0 <= (m - fo) * (dbl a1 - dbl s)) by (apply Qmult_le_0_compat; lra).
      destruct (Qlt_le_dec m' m) as [Hlt|]; [|lra].
      assert (0 < (m - m') * (dbl (S i) - dbl a1))
        by (apply Qmult_lt_0_compat; lra).
      lra. }
  assert (Hend : off y (knot y dn') a1 m' (S i) == sg d * lambda).
  { rewrite (off_eq_c y _ _ a1 m' (S i) Ek).
    unfold off in *. unfold merged in Hm.
    ring_simplify. ring_simplify in Hm. ring_simplify in O2. lra. }
  assert (Hlv : lastv dn' = fo)
    by (unfold dn'; apply lastv_app_repeat; lia).
  constructor; fold dn' m'; rewrite ?Hlen.
  - unfold dn'. apply cert_list_run; auto; [lra|].
    fold s c. intros k Hk.
    apply (seg_ok_both d c s fo i a1 k); auto; lia.
  - rewrite geo_single. split; [lia|]. split; [|exact Hend].
    intros k Hk. destruct (Nat.eq_dec k (S i)) as [->|Hne].
    + rewrite Hend. destruct (sg_cases d) as [[E1 _]|[E1 _]]; rewrite E1; lra.
    + specialize (C5 k ltac:(lia)).
      assert (E : off y (knot y dn') a1 m' k
                  == off y c s fo k + (m' - fo) * (dbl k - dbl a1)).
      { rewrite (off_eq_c y _ _ a1 m' k Ek). unfold off. ring. }
      rewrite E.
      assert (Dk : 0 <= dbl k - dbl a1).
      { pose proof (dbl_le a1 k ltac:(lia)). lra. }
      assert (P : 0 <= (sg d * fo - sg d * m') * (dbl k - dbl a1))
        by (apply Qmult_le_0_compat; lra).
      destruct (sg_cases d) as [[E1 _]|[E1 _]]; rewrite E1 in *; lra.
  - split.
    + rewrite Er. eapply geo_eq_c; [|exact G1]. symmetry. exact Ek'.
    + rewrite Er. exact M2.
  - exact C4'.
  - apply (seg_ok_mono y lambda d _ a1 fo v1).
    + rewrite Hsf in M1. rewrite Ew in M1. lra.
    + eapply seg_ok_rebase; [| |exact C5]; [lia|exact Ek].
  - right. rewrite Hlv.
    rewrite Hsf in M1, Ek'. rewrite Ew in M1.
    destruct (sg_cases d) as [[E1 _]|[E1 _]]; rewrite E1 in *.
    + left. split; lra.
    + right. split; lra.
  - intros _ _. rewrite Hlv. lra.
  - right. rewrite Ek', Hsf. ring.
Qed.

End Close.

Section CloseLoop.

Variable y : nat -> Q.
Variable lambda : Q.
Hypothesis Hpos : 0 < lambda.

(** When the other envelope has one segment left, the envelope being
    updated lies strictly beyond it. *)
Lemma close_gap (d : dir) (i eo : nat) (co : Q) (dn : list Q) (m fo : Q) :
  (eo = S i \/ (eo = i /\ sg d * co <= sg d * y i)) ->
  CloseInv d y lambda i eo co dn m fo [] ->
  sg d * fo < sg d * m.
Proof.
  intros Hgap [C1 C2 [C3 C3m] C4 C5 C6 C7 C8].
  unfold normal in C4. cbn in C4.
  unfold eff in C3. cbn in C3. destruct C3 as (I1 & S1 & O1).
  rewrite geo_single in C2. destruct C2 as (I2 & S2 & O2).
  set (s := length dn) in *. set (c := knot y dn) in *.
  assert (Hsf : sg (flip d) == - sg d) by apply sg_flip.
  assert (E : (sg d * m - sg d * co) * (dbl (S i) - dbl s)
              == lambda - sg d * off y c s co (S i)).
  { rewrite (off_diff y c s m co (S i)) in O2.
    destruct (sg_cases d) as [[E1 _]|[E1 _]]; rewrite E1 in *; lra. }
  assert (P : 0 < lambda - sg d * off y c s co (S i)).
  { destruct Hgap as [->|[-> Hco]].
    - rewrite O1, Hsf.
      destruct (sg_cases d) as [[E1 _]|[E1 _]]; rewrite E1 in *; lra.
    - rewrite off_S, O1, Hsf.
      destruct (sg_cases d) as [[E1 _]|[E1 _]]; rewrite E1 in *; lra. }
  pose proof (dbl_lt s (S i) I2) as D.
  destruct (Qlt_le_dec (sg d * co) (sg d * m)) as [Hlt|Hge].
  - rewrite C4. exact Hlt.
  - assert (0 <= (sg d * co - sg d * m) * (dbl (S i) - dbl s))
      by (apply Qmult_le_0_compat; lra).
    lra.
Qed.

Lemma close_a_inv (d : dir) (i eo : nat) (co : Q) :
  (eo <= S i)%nat ->
  (eo = S i \/ (eo = i /\ sg d * co <= sg d * y i)) ->
  forall (om : list (nat * Q)) (dn : list Q) (m fo : Q),
    CloseInv d y lambda i eo co dn m fo om ->
    CloseInv d y lambda i eo co
      (fst (fst (fst (close_a d i dn m fo om))))
      (snd (fst (fst (close_a d i dn m fo om))))
      (snd (fst (close_a d i dn m fo om)))
      (snd (close_a d i dn m fo om)) /\
    sg d * snd (fst (close_a d i dn m fo om))
      < sg d * snd (fst (fst (close_a d i dn m fo om))).
Proof.
  intros Heo Hgap om. induction om as [|[a1 v1] om IH]; intros dn m fo CI.
  - cbn. split; [exact CI|]. eapply close_gap; eauto.
  - cbn [close_a]. destruct (cmp d m fo) eqn:Ec.
    + apply IH. apply close_step; auto.
    + cbn. split; [exact CI|]. apply cmp_false in Ec. exact Ec.
Qed.

End CloseLoop.

(** * The invariant of the main loop *)

Lemma Inv_InvD (d : dir) (y : nat -> Q) (lambda : Q) (ed eo : nat) (a : astate) :
  Inv y lambda (fst (ends d ed eo)) (snd (ends d ed eo)) a <->
  InvD d y lambda ed eo a.
Proof.
  split.
  - intros [I1 I2 I3 I4 I5 I6 I7].
    destruct d; cbn [ends fst snd flip aside sg] in *; constructor;
      cbn [flip aside sg]; auto; try lra.
    + destruct I7 as [H|[[H1 H2]|[H1 H2]]]; [left; auto | |].
      * right. right. split; lra.
      * right. left. split; lra.
    + destruct I7 as [H|[[H1 H2]|[H1 H2]]]; [left; auto | |].
      * right. left. split; lra.
      * right. right. split; lra.
  - intros [I1 I2 I3 I4 I5 I6 I7].
    destruct d; cbn [ends fst snd flip aside sg] in *; constructor; auto; try lra.
    + destruct I7 as [H|[[H1 H2]|[H1 H2]]]; [left; auto | |].
      * right. right. split; lra.
      * right. left. split; lra.
    + destruct I7 as [H|[[H1 H2]|[H1 H2]]]; [left; auto | |].
      * right. left. split; lra.
      * right. right. split; lra.
Qed.

Lemma InvD_flip (d : dir) (y : nat -> Q) (lambda : Q) (ed eo : nat) (a : astate) :
  InvD d y lambda ed eo a -> InvD (flip d) y lambda eo ed a.
Proof.
  intros H. apply Inv_InvD. apply Inv_InvD in H.
  destruct d; exact H.
Qed.

Section Update.

Variable y : nat -> Q.
Variable lambda : Q.
Hypothesis Hpos : 0 < lambda.

(** When [close] has brought the finished prefix up to [i], both envelopes
    are one segment from [i] to [i+1]. *)
Lemma close_knot_at_i (d : dir) (i eo : nat) (co : Q) (dn : list Q) (m fo : Q)
    (om : list (nat * Q)) :
  (eo <= S i)%nat -> length dn = i ->
  CloseInv d y lambda i eo co dn m fo om ->
  m == fo + sg d * (2 * lambda).
Proof.
  intros Heo Hlen [C1 C2 [C3 C3m] C4 C5 C6 C7 C8].
  rewrite Hlen in *. destruct C8 as [C8|C8]; [lia|].
  assert (Hsf : sg (flip d) == - sg d) by apply sg_flip.
  rewrite geo_single in C2. destruct C2 as (_ & _ & O2).
  rewrite off_S, off_start in O2.
  destruct om as [|[a1 v1] om].
  - unfold eff in C3. cbn in C3. destruct C3 as (I1 & _ & O1).
    assert (eo = S i) by lia. subst eo.
    rewrite off_S, off_start in O1. unfold normal in C4. cbn in C4.
    rewrite Hsf in O1.
    destruct (sg_cases d) as [[E1 _]|[E1 _]]; rewrite E1 in *; lra.
  - exfalso. rewrite eff_cons in C3.
    destruct (eff_hd a1 (mkA om v1 co)) as [rest Er]. rewrite Er in C3.
    rewrite geo_cons in C3. cbn [fst] in C3. destruct C3 as (I1 & _ & _ & G1).
    apply geo_hd_lt in G1. lia.
Qed.

Lemma update_a_other_curr (d : dir) (checked : bool) (i : nat) (x tl : Q)
    (a : astate) :
  acurr (aside (flip d) (update_a d checked i x tl a))
  = acurr (aside (flip d) a).
Proof.
  unfold update_a, settle_a.
  rewrite (extend_a_other d i x a).
  destruct (mids (aside d (extend_a d i x a))) as [|p m].
  - destruct (close_a d i _ _ _ _) as [[[dn m'] fo'] om'].
    rewrite aside_set_flip, aside_set_same. reflexivity.
  - rewrite aside_set_flip. apply (f_equal acurr). apply extend_a_other.
Qed.

Lemma update_a_inv (d : dir) (checked : bool) (i eo : nat) (x : Q) (a : astate) :
  InvD d y lambda i eo a ->
  (eo = S i \/ (eo = i /\ sg d * acurr (aside (flip d) a) <= sg d * y i)) ->
  x == y i -> sg d * x <= sg d * acurr (aside d a) ->
  InvD d y lambda (S i) eo (update_a d checked i x (2 * lambda) a).
Proof.
  intros [I1 I2 I3 I4 I5 I6 I7] Hgap Hx Hle.
  assert (Heo : (eo <= S i)%nat) by lia.
  assert (Ht : sg d * lambda == sg d * lambda + x - y i) by lra.
  assert (Hl : sg d * (sg d * lambda) <= lambda)
    by (destruct (sg_cases d) as [[E1 _]|[E1 _]]; rewrite E1; lra).
  destruct (extend_a_chain y lambda d i x a _ _ I2 I4 Hle Ht Hl)
    as (E1 & E2 & E3 & post & E4).
  pose proof (extend_a_done d i x a) as Ed.
  pose proof (extend_a_other d i x a) as Eo.
  pose proof (extend_a_afirst d i x a) as Ef.
  unfold update_a, settle_a.
  set (a1 := extend_a d i x a) in *.
  destruct (mids (aside d a1)) as [|p m] eqn:Em.
  - (* the envelope is one segment: segments of the other one are closed *)
    rewrite Eo, Ed.
    destruct (aside (flip d) a) as [om fo co] eqn:Eot.
    cbn [mids afirst acurr] in *.
    assert (CI : CloseInv d y lambda i eo co (done a) (acurr (aside d a1)) fo om).
    { destruct (eff_hd (length (done a)) (aside d a)) as [rest Er].
      pose proof (normal_first _ I4) as Enf.
      destruct I2 as [I2g I2m]. rewrite Er in I2g, I2m.
      pose proof (geo_tangent y lambda d _ _ _ _ _ _ I2g I2m) as Htb.
      pose proof (geo_hd_lt y lambda _ _ _ _ _ _ _ I2g) as Hs.
      constructor; auto.
      - destruct E1 as [E1g _]. unfold eff in E1g. rewrite Em in E1g.
        cbn in E1g. rewrite geo_single. exact E1g.
      - apply (seg_ok_mono y lambda d _ _ (afirst (aside d a))); [lra|].
        eapply seg_ok_eq; [reflexivity|exact Enf|exact Htb].
      - destruct I7 as [H|[[H1 H2]|[H1 H2]]]; [left; exact H| |].
        + right. destruct (sg_cases d) as [[E _]|[E _]]; rewrite E in *.
          * left. split; lra.
          * right. split; lra.
        + right. destruct (sg_cases d) as [[E _]|[E _]]; rewrite E in *.
          * right. split; lra.
          * left. split; lra.
      - intros Hne Hk. specialize (E2 eq_refl).
        destruct I7 as [H|[[H1 H2]|[H1 H2]]]; [contradiction| |].
        + lra.
        + exfalso.
          destruct (sg_cases d) as [[E _]|[E _]]; rewrite E in *; lra. }
    destruct (close_a_inv y lambda Hpos d i eo co Heo Hgap om (done a) _ fo CI)
      as [CI' Hex].
    destruct (close_a d i (done a) (acurr (aside d a1)) fo om)
      as [[[dn m'] fo'] om'] eqn:Ec.
    cbn [fst snd] in CI', Hex.
    assert (Hf : (if checked && (length dn =? i)%nat
                  then match d with
                       | Low => fo' - 2 * lambda
                       | Up => fo' + 2 * lambda
                       end
                  else m') == m').
    { destruct (checked && (length dn =? i)%nat) eqn:Eb; [|reflexivity].
      apply andb_true_iff in Eb. destruct Eb as [_ Eb].
      apply Nat.eqb_eq in Eb.
      rewrite (close_knot_at_i d i eo co dn m' fo' om' Heo Eb CI').
      destruct d; cbn [sg]; ring. }
    set (f' := if checked && (length dn =? i)%nat then _ else m') in *.
    destruct CI' as [C1 C2 C3 C4 C5 C6 C7 C8].
    constructor; st.
    + exact C1.
    + split; [|exact I]. unfold eff. cbn. exact C2.
    + exact C3.
    + unfold normal. cbn. exact Hf.
    + exact C4.
    + rewrite Hf. lra.
    + rewrite Hf. destruct C6 as [H|[[H1 H2]|[H1 H2]]]; [left; exact H| |].
      * right. assert (Hn : dn <> []).
        { intros ->. unfold knot in H1. cbn in H1. lra. }
        destruct (sg_cases d) as [[E _]|[E _]]; rewrite E in *.
        -- left. split; [lra|]. apply C7; [exact Hn | lra].
        -- right. split; lra.
      * right. assert (Hn : dn <> []).
        { intros ->. unfold knot in H1. cbn in H1. lra. }
        destruct (sg_cases d) as [[E _]|[E _]]; rewrite E in *.
        -- right. split; lra.
        -- left. split; [lra|]. apply C7; [exact Hn | lra].
  - (* the value of the last segment is stored *)
    rewrite <- Em.
    constructor; st.
    + rewrite Ed. exact I1.
    + rewrite eff_store_last, Ed.
      destruct (aside d a1) as [m1 f1 c1]. exact E1.
    + rewrite Ed, Eo. exact I3.
    + apply normal_store_last. rewrite Em. discriminate.
    + rewrite Eo. exact I5.
    + rewrite Eo, Ef. exact I6.
    + rewrite Ed, Eo, Ef. exact I7.
Qed.

End Update.

Section Step.

Variable y : nat -> Q.
Variable lambda : Q.
Hypothesis Hpos : 0 < lambda.

Lemma geo_eq_last (d : dir) (L : list (nat * Q)) (a : nat) (v v' : Q)
    (e : nat) (t : Q) :
  v == v' ->
  forall c0, geo d y lambda c0 (L ++ [(a, v)]) e t ->
             geo d y lambda c0 (L ++ [(a, v')]) e t.
Proof.
  intros Hv. induction L as [|[a0 v0] L IH]; intros c0 H.
  - cbn [app] in *. eapply geo_eq_v; eauto.
  - destruct L as [|p L]; cbn [app] in *; rewrite geo_cons in *;
      destruct H as (H1 & H2 & H3 & H4);
      (split; [exact H1|]; split; [exact H2|]; split; [exact H3|]);
      apply IH; exact H4.
Qed.

Lemma mono_eq_last (d : dir) (l : list Q) (v v' : Q) :
  v == v' -> mono d (l ++ [v]) -> mono d (l ++ [v']).
Proof.
  intros Hv. induction l as [|u l IH]; intros H; [exact I|].
  destruct l as [|u' l].
  - cbn in *. split; [|exact I]. destruct H as [H _]. rewrite <- Hv. exact H.
  - change (mono d (u :: u' :: (l ++ [v]))) in H.
    change (mono d (u :: u' :: (l ++ [v']))).
    rewrite mono_cons in *. destruct H as [H1 H2]. split; auto.
Qed.

(** The segments of an envelope between two passes: the stored values are
    the values of the segments. *)
Lemma normal_eff (s : nat) (e : aenv) :
  normal e ->
  exists L a v,
    (s, afirst e) :: mids e = L ++ [(a, v)] /\
    eff s e = L ++ [(a, acurr e)] /\ v == acurr e.
Proof.
  destruct e as [m f c]. unfold normal, eff. cbn [mids afirst acurr].
  destruct m as [|p m] using rev_ind.
  - cbn. intros H. exists [], s, f. auto.
  - clear IHm. rewrite rev_app_distr. cbn [rev app]. destruct p as [a v].
    intros H. exists ((s, f) :: m), a, v. cbn [effr].
    rewrite rev_involutive. auto.
Qed.

Lemma eff_reset (s : nat) (m : list (nat * Q)) (f c : Q) (i : nat) (x : Q) :
  eff s (mkA (m ++ [(i, x)]) f x) = ((s, f) :: m) ++ [(i, x)].
Proof.
  unfold eff. cbn [mids afirst acurr]. rewrite rev_app_distr. cbn.
  rewrite rev_involutive. reflexivity.
Qed.

Lemma reset_a_inv (d : dir) (i eo : nat) (x : Q) (a : astate) :
  InvD d y lambda i eo a ->
  x == y i -> sg d * acurr (aside d a) < sg d * x ->
  InvD d y lambda (S i) eo (reset_a d i x a).
Proof.
  intros [I1 [I2 I2m] I3 I4 I5 I6 I7] Hx Hlt. unfold reset_a.
  destruct (normal_eff (length (done a)) _ I4) as (L & a0 & v & E1 & E2 & E3).
  rewrite E2 in I2, I2m.
  assert (Ht : sg d * lambda == sg d * lambda + x - y i) by lra.
  assert (Hl : sg d * (sg d * lambda) <= lambda)
    by (destruct (sg_cases d) as [[E _]|[E _]]; rewrite E; lra).
  constructor; st; auto.
  - rewrite eff_reset; [|exact 0]. rewrite E1, <- app_assoc. cbn [app].
    split.
    + apply geo_push; auto. eapply geo_eq_last; [|exact I2].
      symmetry. exact E3.
    + rewrite map_app in *. cbn [map snd] in *.
      apply mono_snoc.
      * eapply mono_eq_last; [|exact I2m]. symmetry. exact E3.
      * rewrite E3. exact Hlt.
  - unfold normal. cbn [mids afirst acurr]. rewrite rev_app_distr. cbn.
    reflexivity.
Qed.

Lemma reset_a_other (d : dir) (i : nat) (x : Q) (a : astate) :
  aside (flip d) (reset_a d i x a) = aside (flip d) a.
Proof. unfold reset_a. apply aside_set_flip. Qed.

(** The last value of the lower envelope is below the one of the upper. *)
Lemma InvD_first_curr (d : dir) (ed eo : nat) (a : astate) :
  InvD d y lambda ed eo a ->
  sg d * afirst (aside d a) <= sg d * acurr (aside d a).
Proof.
  intros [I1 [I2 I2m] I3 I4 I5 I6 I7].
  destruct (eff_hd (length (done a)) (aside d a)) as [rest Er].
  pose proof (normal_first _ I4) as Ef.
  assert (Hin : In (acurr (aside d a))
                   (map snd (eff (length (done a)) (aside d a)))).
  { unfold eff. rewrite effr_decomp, map_app. apply in_or_app. right.
    left. reflexivity. }
  rewrite Er in I2m, Hin. cbn [map snd] in I2m, Hin.
  pose proof (mono_first_le d _ _ _ I2m Hin).
  destruct (sg_cases d) as [[E _]|[E _]]; rewrite E in *; lra.
Qed.

Lemma Inv_curr_le (el eu : nat) (a : astate) :
  Inv y lambda el eu a -> acurr (alow a) <= acurr (aup a).
Proof.
  intros H.
  assert (HU : InvD Up y lambda eu el a) by (apply Inv_InvD; exact H).
  pose proof (InvD_first_curr _ _ _ _ HU) as H1.
  pose proof (InvD_first_curr _ _ _ _ (InvD_flip _ _ _ _ _ _ HU)) as H2.
  pose proof (id_first _ _ _ _ _ _ HU) as H3.
  cbn [sg flip aside] in *. lra.
Qed.

Lemma step_a_inv (i : nat) (x : Q) (a : astate) :
  Inv y lambda i i a -> x == y i ->
  Inv y lambda (S i) (S i) (step_a i x (2 * lambda) a).
Proof.
  intros HI Hx. unfold step_a.
  pose proof (Inv_curr_le _ _ _ HI) as Hcc.
  assert (HU : InvD Up y lambda i i a) by (apply Inv_InvD; exact HI).
  assert (HL : InvD Low y lambda i i a) by (apply Inv_InvD; exact HI).
  destruct (Qle_bool (acurr (alow a)) x) eqn:E1.
  - apply Qle_bool_iff in E1.
    apply (Inv_InvD Low y lambda (S i) (S i)).
    destruct (Qle_bool x (acurr (aup a))) eqn:E2.
    + apply Qle_bool_iff in E2.
      assert (H1 : InvD Up y lambda (S i) i
                     (update_a Up false i x (2 * lambda) a)).
      { apply update_a_inv; auto; cbn [sg flip aside]; [|lra].
        right. split; [reflexivity|lra]. }
      apply InvD_flip in H1. cbn [flip] in H1.
      apply update_a_inv; auto.
      pose proof (update_a_other_curr Up false i x (2 * lambda) a) as Ec.
      cbn [flip aside] in Ec |- *. rewrite Ec. cbn [sg]. lra.
    + assert (E2' : acurr (aup a) < x).
      { destruct (Qlt_le_dec (acurr (aup a)) x) as [|Hle]; auto.
        apply Qle_bool_iff in Hle. congruence. }
      assert (H1 : InvD Up y lambda (S i) i (reset_a Up i x a)).
      { apply reset_a_inv; auto. cbn [sg aside]. lra. }
      apply InvD_flip in H1. cbn [flip] in H1.
      apply update_a_inv; auto.
      cbn [sg aside reset_a set_aside alow]. lra.
  - assert (E1' : x < acurr (alow a)).
    { destruct (Qlt_le_dec x (acurr (alow a))) as [|Hle]; auto.
      apply Qle_bool_iff in Hle. congruence. }
    apply (Inv_InvD Up y lambda (S i) (S i)).
    assert (H1 : InvD Low y lambda (S i) i (reset_a Low i x a)).
    { apply reset_a_inv; auto. cbn [sg aside]. lra. }
    apply InvD_flip in H1. cbn [flip] in H1.
    apply update_a_inv; auto.
    cbn [sg aside reset_a set_aside aup]. lra.
Qed.

Lemma main_a_inv (xs : list Q) :
  forall (i : nat) (a : astate),
    Inv y lambda i i a ->
    (forall k x, nth_error xs k = Some x -> x == y (i + k)%nat) ->
    Inv y lambda (i + length xs) (i + length xs) (main_a xs i (2 * lambda) a).
Proof.
  induction xs as [|x xs IH]; intros i a HI Hy.
  - cbn. rewrite Nat.add_0_r. exact HI.
  - cbn [main_a length].
    replace (i + S (length xs))%nat with (S i + length xs)%nat by lia.
    apply IH.
    + apply step_a_inv; auto.
      specialize (Hy 0%nat x eq_refl). rewrite Nat.add_0_r in Hy. exact Hy.
    + intros k z Hk. replace (S i + k)%nat with (i + S k)%nat by lia.
      apply Hy. exact Hk.
Qed.

Lemma init_a_inv (x0 : Q) :
  x0 == y 0%nat -> Inv y lambda 1 1 (init_a x0 lambda).
Proof.
  intros Hx. unfold init_a.
  assert (E1 : dbl 1 == 1) by reflexivity.
  constructor; cbn [done alow aup afirst acurr mids length]; unfold knot;
    cbn [sumQ length G].
  - exact I.
  - split; [|exact I]. unfold eff. cbn. split; [lia|]. split.
    + intros k Hk. replace k with 1%nat by lia. unfold off. cbn [G sg].
      rewrite E1, dbl_0. lra.
    + unfold off. cbn [G sg]. rewrite E1, dbl_0. lra.
  - split; [|exact I]. unfold eff. cbn. split; [lia|]. split.
    + intros k Hk. replace k with 1%nat by lia. unfold off. cbn [G sg].
      rewrite E1, dbl_0. lra.
    + unfold off. cbn [G sg]. rewrite E1, dbl_0. lra.
  - unfold normal. cbn. reflexivity.
  - unfold normal. cbn. reflexivity.
  - lra.
  - left. reflexivity.
Qed.

End Step.

(** * The right edge *)

Section Finish.

Variable y : nat -> Q.
Variable lambda : Q.
Hypothesis Hpos : 0 < lambda.

Lemma jump_ok_eq (dn : list Q) (v v' : Q) :
  v == v' -> jump_ok y lambda dn v -> jump_ok y lambda dn v'.
Proof.
  intros Hv [H|[[H1 H2]|[H1 H2]]]; [left; exact H| |].
  - right. left. split; [exact H1|lra].
  - right. right. split; [exact H1|lra].
Qed.

(** [flush] on lists: the segments but the last are written out. *)
Lemma flush_a_spec (d : dir) (e E : nat) (t co : Q) :
  (e <= S E)%nat ->
  forall (m : list (nat * Q)) (dn : list Q) (f : Q),
    cert_list y lambda dn ->
    chain d y lambda (knot y dn) (eff (length dn) (mkA m f co)) e t ->
    seg_ok (flip d) y lambda (knot y dn) (length dn)
      (eff_first (mkA m f co)) E ->
    jump_ok y lambda dn (eff_first (mkA m f co)) ->
    cert_list y lambda (fst (flush_a dn f m)) /\
    geo d y lambda (knot y (fst (flush_a dn f m)))
      [(length (fst (flush_a dn f m)), co)] e t /\
    seg_ok (flip d) y lambda (knot y (fst (flush_a dn f m)))
      (length (fst (flush_a dn f m))) co E /\
    jump_ok y lambda (fst (flush_a dn f m)) co /\
    (normal (mkA m f co) -> snd (flush_a dn f m) == co).
Proof.
  intros HeE m. induction m as [|[a1 v1] om IH]; intros dn f Hc [Hg Hm] Htb Hj.
  - cbn [flush_a fst snd]. unfold eff in Hg. cbn in Hg.
    unfold eff_first in Htb, Hj. cbn in Htb, Hj.
    split; [exact Hc|]. split; [rewrite geo_single; exact Hg|].
    split; [exact Htb|]. split; [exact Hj|].
    unfold normal. cbn. auto.
  - cbn [flush_a]. unfold eff_first in Htb, Hj. cbn [mids afirst] in Htb, Hj.
    set (s := length dn) in *. set (c := knot y dn) in *.
    rewrite eff_cons in Hg, Hm.
    destruct (eff_hd a1 (mkA om v1 co)) as [rest Er]. rewrite Er in Hg, Hm.
    set (w := eff_first (mkA om v1 co)) in *.
    rewrite geo_cons in Hg. cbn [fst] in Hg. destruct Hg as (I1 & S1 & O1 & G1).
    cbn [map snd] in Hm. rewrite mono_cons in Hm. destruct Hm as [M1 M2].
    pose proof (geo_hd_lt y lambda _ _ _ _ _ _ _ G1) as Ha1.
    set (dn' := dn ++ repeat f (a1 - s)).
    assert (Hlen : length dn' = a1).
    { unfold dn'. rewrite length_app, repeat_length. unfold s. lia. }
    assert (Ek : knot y dn' == off y c s f a1).
    { unfold dn'. rewrite knot_app_run. fold s. fold c.
      replace (s + (a1 - s))%nat with a1 by lia. reflexivity. }
    assert (Hlv : lastv dn' = f)
      by (unfold dn'; apply lastv_app_repeat; lia).
    assert (Hsf : sg (flip d) == - sg d) by apply sg_flip.
    destruct (IH dn' v1) as (R1 & R2 & R3 & R4 & R5).
    + unfold dn'. apply cert_list_run; auto; [lra|].
      fold s c. intros k Hk.
      apply (seg_ok_both y lambda d c s f a1 E k); auto; lia.
    + rewrite Hlen, Er. split; [|exact M2].
      eapply geo_eq_c; [|exact G1]. rewrite Ek, O1. reflexivity.
    + rewrite Hlen. fold w.
      apply (seg_ok_mono y lambda (flip d) _ a1 f w).
      * rewrite Hsf. destruct (sg_cases d) as [[E1 _]|[E1 _]]; rewrite E1 in *; lra.
      * eapply seg_ok_rebase; [| |exact Htb]; [lia|exact Ek].
    + fold w. right. rewrite Hlv. rewrite Ek, O1.
      destruct (sg_cases d) as [[E1 _]|[E1 _]]; rewrite E1 in *.
      * right. split; lra.
      * left. split; lra.
    + split; [exact R1|]. split; [exact R2|]. split; [exact R3|].
      split; [exact R4|]. intros Hn. apply R5.
      eapply normal_cons. exact Hn.
Qed.

(** The segments of [d] are written out, the last one up to the end. *)
Lemma tail_cert (d : dir) (i : nat) (e : aenv) (dn : list Q) :
  cert_list y lambda dn ->
  chain d y lambda (knot y dn) (eff (length dn) e) (S i) 0 ->
  seg_ok (flip d) y lambda (knot y dn) (length dn) (eff_first e) i ->
  jump_ok y lambda dn (eff_first e) ->
  cert_list y lambda
    (fst (flush_a dn (afirst e) (mids e))
     ++ repeat (acurr e) (S i - length (fst (flush_a dn (afirst e) (mids e)))))
  /\
  knot y
    (fst (flush_a dn (afirst e) (mids e))
     ++ repeat (acurr e) (S i - length (fst (flush_a dn (afirst e) (mids e)))))
  == 0.
Proof.
  intros Hc Hch Htb Hj. destruct e as [m f co]. cbn [mids afirst acurr].
  destruct (flush_a_spec d (S i) i 0 co (Nat.le_refl _) m dn f Hc Hch Htb Hj)
    as (R1 & R2 & R3 & R4 & _).
  set (dn' := fst (flush_a dn f m)) in *.
  rewrite geo_single in R2. destruct R2 as (I1 & S1 & O1).
  split.
  - apply cert_list_run; auto; [lra|]. intros k Hk.
    apply (seg_ok_both y lambda d _ _ co (S i) i k); auto; lia.
  - rewrite knot_app_run.
    replace (length dn' + (S i - length dn'))%nat with (S i) by lia.
    exact O1.
Qed.

(** The segments of [d] are written out up to [i], and the last sample
    gets the value [x']. *)
Lemma all_cert (d : dir) (i : nat) (e : aenv) (dn : list Q) (x' : Q) :
  cert_list y lambda dn ->
  chain d y lambda (knot y dn) (eff (length dn) e) i (sg d * lambda) ->
  normal e ->
  seg_ok (flip d) y lambda (knot y dn) (length dn) (eff_first e) i ->
  jump_ok y lambda dn (eff_first e) ->
  sg d * acurr e <= sg d * x' -> x' == y i - sg d * lambda ->
  cert_list y lambda
    (fst (flush_a dn (afirst e) (mids e))
     ++ repeat (snd (flush_a dn (afirst e) (mids e)))
          (i - length (fst (flush_a dn (afirst e) (mids e))))
     ++ [x'])
  /\
  knot y
    (fst (flush_a dn (afirst e) (mids e))
     ++ repeat (snd (flush_a dn (afirst e) (mids e)))
          (i - length (fst (flush_a dn (afirst e) (mids e))))
     ++ [x'])
  == 0.
Proof.
  intros Hc Hch Hn Htb Hj Hle Hx. destruct e as [m f co].
  cbn [mids afirst acurr] in *.
  destruct (flush_a_spec d i i (sg d * lambda) co ltac:(lia) m dn f Hc Hch Htb Hj)
    as (R1 & R2 & R3 & R4 & R5).
  specialize (R5 Hn).
  set (dn' := fst (flush_a dn f m)) in *.
  set (f' := snd (flush_a dn f m)) in *.
  rewrite geo_single in R2. destruct R2 as (I1 & S1 & O1).
  assert (Ef : co == f') by (symmetry; exact R5).
  set (dn2 := dn' ++ repeat f' (i - length dn')).
  assert (Hc2 : cert_list y lambda dn2).
  { unfold dn2. apply cert_list_run; auto; [lra| |].
    - eapply jump_ok_eq; eauto.
    - intros k Hk.
      apply (seg_ok_both y lambda d _ _ f' i i k); try lia.
      + eapply seg_ok_eq; [reflexivity|exact Ef|exact S1].
      + eapply seg_ok_eq; [reflexivity|exact Ef|exact R3]. }
  assert (Hl2 : length dn2 = i).
  { unfold dn2. rewrite length_app, repeat_length. lia. }
  assert (Ek2 : knot y dn2 == sg d * lambda).
  { unfold dn2. rewrite knot_app_run.
    replace (length dn' + (i - length dn'))%nat with i by lia.
    rewrite <- (off_eq_v y _ _ co f' i Ef). exact O1. }
  assert (Hlv : lastv dn2 = f')
    by (unfold dn2; apply lastv_app_repeat; lia).
  rewrite app_assoc. fold dn2.
  change [x'] with (repeat x' 1).
  split.
  - apply cert_list_run; auto; [lra| |intros k Hk; lia].
    right. rewrite Hlv, Ek2.
    destruct (sg_cases d) as [[E1 _]|[E1 _]]; rewrite E1 in *.
    + right. split; lra.
    + left. split; lra.
  - rewrite knot_app_run, Hl2.
    replace (i + 1)%nat with (S i) by lia.
    rewrite off_S, off_start, Ek2. lra.
Qed.

Lemma InvD_tb (d : dir) (ed eo : nat) (a : astate) :
  InvD d y lambda ed eo a ->
  seg_ok (flip d) y lambda (knot y (done a)) (length (done a))
    (afirst (aside d a)) eo.
Proof.
  intros H. pose proof (InvD_flip _ _ _ _ _ _ H) as H'.
  destruct H as [I1 I2 [I3 I3m] I4 I5 I6 I7].
  destruct (eff_hd (length (done a)) (aside (flip d) a)) as [rest Er].
  rewrite Er in I3, I3m.
  pose proof (geo_tangent y lambda _ _ _ _ _ _ _ I3 I3m) as Ht.
  pose proof (normal_first _ I5) as Ef.
  pose proof (id_first _ _ _ _ _ _ H') as Hf. rewrite flip_flip in Hf.
  apply (seg_ok_mono y lambda (flip d) _ _ (afirst (aside (flip d) a)));
    [exact Hf|].
  eapply seg_ok_eq; [reflexivity|exact Ef|exact Ht].
Qed.

Lemma InvD_tangent (d : dir) (ed eo : nat) (a : astate) :
  InvD d y lambda ed eo a ->
  seg_ok d y lambda (knot y (done a)) (length (done a))
    (afirst (aside d a)) ed.
Proof.
  intros [I1 [I2 I2m] I3 I4 I5 I6 I7].
  destruct (eff_hd (length (done a)) (aside d a)) as [rest Er].
  rewrite Er in I2, I2m.
  pose proof (geo_tangent y lambda _ _ _ _ _ _ _ I2 I2m) as Ht.
  pose proof (normal_first _ I4) as Ef.
  eapply seg_ok_eq; [reflexivity|exact Ef|exact Ht].
Qed.

Lemma InvD_jump (d : dir) (ed eo : nat) (a : astate) :
  InvD d y lambda ed eo a ->
  jump_ok y lambda (done a) (afirst (aside d a)).
Proof.
  intros [I1 I2 I3 I4 I5 I6 I7].
  destruct I7 as [H|[[H1 H2]|[H1 H2]]]; [left; exact H| |]; right;
    destruct (sg_cases d) as [[E _]|[E _]]; rewrite E in *.
  - left. split; lra.
  - right. split; lra.
  - right. split; lra.
  - left. split; lra.
Qed.

Lemma finish_a_cert (i : nat) (x : Q) (a : astate) :
  Inv y lambda i i a -> x == y i ->
  cert_list y lambda (finish_a i x lambda a) /\
  knot y (finish_a i x lambda a) == 0.
Proof.
  intros HI Hx. unfold finish_a.
  assert (HU : InvD Up y lambda i i a) by (apply Inv_InvD; exact HI).
  assert (HL : InvD Low y lambda i i a) by (apply Inv_InvD; exact HI).
  destruct (Qle_bool (x + lambda) (acurr (alow a))) eqn:E1.
  { apply Qle_bool_iff in E1. unfold finish_all_a.
    destruct (flush_a (done a) (afirst (aside Low a)) (mids (aside Low a)))
      as [dn f'] eqn:Ef.
    pose proof (all_cert Low i (aside Low a) (done a) (x + lambda)) as H.
    rewrite Ef in H. cbn [fst snd] in H. apply H; cbn [sg aside]; try lra.
    - apply (id_cert _ _ _ _ _ _ HL).
    - apply (id_me _ _ _ _ _ _ HL).
    - apply (id_nme _ _ _ _ _ _ HL).
    - eapply seg_ok_eq; [reflexivity| |apply (InvD_tb _ _ _ _ HL)].
      symmetry. apply normal_first. apply (id_nme _ _ _ _ _ _ HL).
    - eapply jump_ok_eq; [|apply (InvD_jump _ _ _ _ HL)].
      symmetry. apply normal_first. apply (id_nme _ _ _ _ _ _ HL). }
  destruct (Qle_bool (acurr (aup a)) (x - lambda)) eqn:E2.
  { apply Qle_bool_iff in E2. unfold finish_all_a.
    destruct (flush_a (done a) (afirst (aside Up a)) (mids (aside Up a)))
      as [dn f'] eqn:Ef.
    pose proof (all_cert Up i (aside Up a) (done a) (x - lambda)) as H.
    rewrite Ef in H. cbn [fst snd] in H. apply H; cbn [sg aside]; try lra.
    - apply (id_cert _ _ _ _ _ _ HU).
    - apply (id_me _ _ _ _ _ _ HU).
    - apply (id_nme _ _ _ _ _ _ HU).
    - eapply seg_ok_eq; [reflexivity| |apply (InvD_tb _ _ _ _ HU)].
      symmetry. apply normal_first. apply (id_nme _ _ _ _ _ _ HU).
    - eapply jump_ok_eq; [|apply (InvD_jump _ _ _ _ HU)].
      symmetry. apply normal_first. apply (id_nme _ _ _ _ _ _ HU). }
  assert (E1' : acurr (alow a) < x + lambda).
  { destruct (Qlt_le_dec (acurr (alow a)) (x + lambda)) as [|Hle]; auto.
    apply Qle_bool_iff in Hle. congruence. }
  assert (E2' : x - lambda < acurr (aup a)).
  { destruct (Qlt_le_dec (x - lambda) (acurr (aup a))) as [|Hle]; auto.
    apply Qle_bool_iff in Hle. congruence. }
  clear E1 E2.
  (* the lower envelope is brought to the end point *)
  destruct (extend_a_chain y lambda Low i (x + lambda) a
              (knot y (done a)) 0 (id_me _ _ _ _ _ _ HL)
              (id_nme _ _ _ _ _ _ HL))
    as (L1 & L2 & L3 & postl & L4); cbn [sg aside]; try lra.
  pose proof (extend_a_done Low i (x + lambda) a) as Ed.
  pose proof (extend_a_other Low i (x + lambda) a) as Eo.
  pose proof (extend_a_afirst Low i (x + lambda) a) as Efl.
  cbn [flip aside sg] in *.
  set (a1 := extend_a Low i (x + lambda) a) in *.
  pose proof (InvD_tb _ _ _ _ HU) as TBu. pose proof (InvD_tb _ _ _ _ HL) as TBl.
  pose proof (InvD_jump _ _ _ _ HU) as Ju. pose proof (InvD_jump _ _ _ _ HL) as Jl.
  cbn [flip aside] in TBu, TBl, Ju, Jl.
  destruct (mids (alow a1)) as [|p m] eqn:Em.
  - specialize (L2 eq_refl).
    destruct (Qle_bool (acurr (alow a1)) (afirst (aup a1))) eqn:E3.
    + apply Qle_bool_iff in E3. rewrite Eo in E3.
      pose proof (tail_cert Low i (alow a1) (done a1)) as H.
      rewrite Em in H. cbn [flush_a fst] in H. rewrite Ed.
      rewrite Ed in H. apply H.
      * apply (id_cert _ _ _ _ _ _ HL).
      * exact L1.
      * unfold eff_first. rewrite Em. cbn [flip].
        apply (seg_ok_mono y lambda Up _ _ (afirst (aup a))); [cbn [sg]; lra|].
        apply (InvD_tangent _ _ _ _ HU).
      * unfold eff_first. rewrite Em.
        destruct (id_knot _ _ _ _ _ _ HU) as [K|[[K1 K2]|[K1 K2]]];
          cbn [sg aside flip] in *.
        -- left. exact K.
        -- right. left. split; lra.
        -- right. right. split; lra.
    + assert (E3' : afirst (aup a) < acurr (alow a1)).
      { rewrite Eo in E3.
        destruct (Qlt_le_dec (afirst (aup a)) (acurr (alow a1))) as [|Hle]; auto.
        apply Qle_bool_iff in Hle. congruence. }
      (* the upper envelope is brought to the end point *)
      assert (Hch : chain Up y lambda (knot y (done a1))
                      (eff (length (done a1)) (aside Up a1)) i (sg Up * lambda)).
      { cbn [aside]. rewrite Ed, Eo. apply (id_me _ _ _ _ _ _ HU). }
      assert (Hnu : normal (aside Up a1)).
      { cbn [aside]. rewrite Eo. apply (id_nme _ _ _ _ _ _ HU). }
      destruct (extend_a_chain y lambda Up i (x - lambda) a1
                  (knot y (done a1)) 0 Hch Hnu)
        as (U1 & U2 & U3 & postu & U4); cbn [sg aside]; rewrite ?Eo; try lra.
      pose proof (extend_a_done Up i (x - lambda) a1) as Ed2.
      pose proof (extend_a_afirst Up i (x - lambda) a1) as Efu.
      cbn [flip aside sg] in *.
      set (a2 := extend_a Up i (x - lambda) a1) in *.
      unfold finish_tail_a. cbn [aside].
      assert (Hne : mids (aup a2) <> []).
      { intros En. specialize (U2 En). rewrite Eo in U2.
        destruct L1 as [L1 _]. destruct U1 as [U1 _].
        unfold eff in L1, U1. rewrite Em in L1. rewrite En in U1.
        cbn in L1, U1. destruct L1 as (_ & _ & O1). destruct U1 as (I2 & _ & O2).
        rewrite Ed in O2, I2.
        rewrite (off_diff y _ _ (acurr (aup a2)) (acurr (alow a1))) in O2.
        pose proof (dbl_lt _ _ I2) as D.
        assert (0 < (acurr (alow a1) - acurr (aup a2))
                    * (dbl (S i) - dbl (length (done a))))
          by (apply Qmult_lt_0_compat; lra).
        lra. }
      pose proof (tail_cert Up i (aup a2) (done a2)) as H.
      destruct (flush_a (done a2) (afirst (aup a2)) (mids (aup a2)))
        as [dn f'] eqn:Ef.
      cbn [fst] in H. apply H.
      * rewrite Ed2, Ed. apply (id_cert _ _ _ _ _ _ HU).
      * rewrite Ed2. exact U1.
      * unfold eff_first. destruct (mids (aup a2)); [contradiction|].
        rewrite Ed2, Ed, Efu, Eo. exact TBu.
      * unfold eff_first. destruct (mids (aup a2)); [contradiction|].
        rewrite Ed2, Ed, Efu, Eo. exact Ju.
  - unfold finish_tail_a. cbn [aside].
    pose proof (tail_cert Low i (alow a1) (done a1)) as H.
    destruct (flush_a (done a1) (afirst (alow a1)) (mids (alow a1)))
      as [dn f'] eqn:Ef.
    cbn [fst] in H. apply H.
    + rewrite Ed. apply (id_cert _ _ _ _ _ _ HL).
    + rewrite Ed. exact L1.
    + unfold eff_first. rewrite Em. rewrite Ed, Efl. exact TBl.
    + unfold eff_first. rewrite Em. rewrite Ed, Efl. exact Jl.
Qed.

End Finish.

(** * A certified output is optimal *)

Lemma sq_dist_nonneg (x y : list Q) : 0 <= sq_dist x y.
Proof.
  revert y. induction x as [|a x IH]; intros [|b y]; cbn; try lra.
  specialize (IH y).
  assert (0 <= (a - b) * (a - b)).
  { destruct (Qlt_le_dec (a - b) 0).
    - setoid_replace ((a - b) * (a - b)) with ((b - a) * (b - a)) by ring.
      apply Qmult_le_0_compat; lra.
    - apply Qmult_le_0_compat; lra. }
  lra.
Qed.

Lemma sq_dist_refl (x : list Q) : sq_dist x x == 0.
Proof.
  induction x as [|a x IH]; cbn; [reflexivity|]. rewrite IH. ring.
Qed.

Lemma total_variation_nonneg (x : list Q) : 0 <= total_variation x.
Proof.
  induction x as [|a x IH]; [cbn; lra|].
  destruct x as [|b x]; [cbn; lra|].
  change (0 <= Qabs (b - a) + total_variation (b :: x)).
  pose proof (Qabs_nonneg (b - a)). lra.
Qed.

Lemma total_variation_cons (p x : Q) (l : list Q) :
  total_variation (p :: x :: l) = Qabs (x - p) + total_variation (x :: l).
Proof. reflexivity. Qed.

(** The bound on one step of the output: [u] is the offset there. *)
Lemma step_bound (lambda u px x pz z : Q) :
  - lambda <= u -> u <= lambda ->
  (px < x -> u == lambda) -> (x < px -> u == - lambda) ->
  u * ((z - pz) - (x - px)) <= lambda * Qabs (z - pz) - lambda * Qabs (x - px).
Proof.
  intros H1 H2 H3 H4.
  assert (A : u * (z - pz) <= lambda * Qabs (z - pz)).
  { apply (Qabs_case (z - pz)); intros Hs.
    - assert (0 <= (lambda - u) * (z - pz)) by (apply Qmult_le_0_compat; lra).
      lra.
    - assert (0 <= (lambda + u) * (pz - z)) by (apply Qmult_le_0_compat; lra).
      lra. }
  assert (B : u * (x - px) == lambda * Qabs (x - px)).
  { destruct (Q_dec px x) as [[Hlt|Hgt]|Heq].
    - rewrite (H3 Hlt). rewrite Qabs_pos by lra. reflexivity.
    - rewrite (H4 Hgt). rewrite Qabs_neg by lra. ring.
    - assert (E : x - px == 0) by lra. rewrite E. cbn. ring. }
  lra.
Qed.

Section Optimal.

Variable y : nat -> Q.
Variable lambda : Q.

Lemma gain (xs : list Q) :
  forall (zs ys : list Q) (k : nat) (u px pz : Q),
    length zs = length xs -> length ys = length xs ->
    (forall j v, nth_error ys j = Some v -> y (k + j)%nat == v) ->
    cert y lambda k u px xs ->
    u + sumQ xs - sumQ ys == 0 ->
    (1 # 2) * sq_dist xs ys + lambda * total_variation (px :: xs)
    + (1 # 2) * sq_dist zs xs - u * (pz - px)
    <= (1 # 2) * sq_dist zs ys + lambda * total_variation (pz :: zs).
Proof.
  induction xs as [|x xs IH]; intros zs ys k u px pz Hz Hy Hyk Hc Hu.
  - destruct zs; [|discriminate]. destruct ys; [|discriminate].
    cbn in *. assert (E : u == 0) by lra. rewrite E. lra.
  - destruct zs as [|z zs]; [discriminate|].
    destruct ys as [|v ys]; [discriminate|].
    cbn [cert] in Hc. destruct Hc as (C1 & C2 & C3 & C4 & C5).
    pose proof (Hyk 0%nat v eq_refl) as Ev. rewrite Nat.add_0_r in Ev.
    cbn [sumQ] in Hu.
    assert (C5' : cert y lambda (S k) (u + (x - v)) x xs).
    { eapply cert_eq_u; [|exact C5]. rewrite Ev. reflexivity. }
    specialize (IH zs ys (S k) (u + (x - v)) x z
                  ltac:(cbn in Hz; lia) ltac:(cbn in Hy; lia)).
    assert (IH' := IH
      ltac:(intros j w Hj; replace (S k + j)%nat with (k + S j)%nat by lia;
            apply Hyk; exact Hj) C5' ltac:(lra)).
    clear IH.
    rewrite !total_variation_cons. cbn [sq_dist].
    pose proof (step_bound lambda u px x pz z C1 C2 C3 C4) as Hs.
    ring_simplify in IH'. ring_simplify in Hs. ring_simplify. lra.
Qed.

End Optimal.

(** ** Samples as lists and as functions *)

Lemma G_samples_cons (a : Q) (l : list Q) (k : nat) :
  G (samples (a :: l)) (S k) == a + G (samples l) k.
Proof.
  induction k as [|k IH].
  - cbn. unfold samples. cbn. ring.
  - rewrite G_S, IH, G_S. unfold samples. cbn [nth]. ring.
Qed.

Lemma G_samples (l : list Q) : G (samples l) (length l) == sumQ l.
Proof.
  induction l as [|a l IH]; [reflexivity|].
  cbn [length sumQ]. rewrite G_samples_cons, IH. reflexivity.
Qed.

Lemma samples_nth (l : list Q) (j : nat) (v : Q) :
  nth_error l j = Some v -> samples l j = v.
Proof.
  intros H. unfold samples. apply nth_error_nth. exact H.
Qed.

(** The certificate of an output [out] for the samples [input]. *)
Lemma cert_optimal (input out z : list Q) (lambda : Q) :
  length out = length input -> length z = length input ->
  cert_list (samples input) lambda out ->
  knot (samples input) out == 0 ->
  objective input lambda out + (1 # 2) * sq_dist z out
  <= objective input lambda z.
Proof.
  intros Ho Hz Hc Hk. unfold objective.
  destruct out as [|x0 xs].
  - destruct input; [|discriminate]. destruct z; [|discriminate]. cbn. lra.
  - destruct input as [|y0 ys]; [discriminate|].
    destruct z as [|z0 zs]; [discriminate|].
    cbn [cert_list] in Hc. unfold knot in Hk. rewrite Ho, G_samples in Hk.
    cbn [sumQ] in Hk.
    assert (E0 : samples (y0 :: ys) 0 = y0) by reflexivity. rewrite E0 in Hc.
    pose proof (gain (samples (y0 :: ys)) lambda xs zs ys 1 (x0 - y0) x0 z0
                  ltac:(cbn in *; lia) ltac:(cbn in *; lia)) as H.
    assert (H' := H
      ltac:(intros j v Hj; rewrite (samples_nth (y0 :: ys) (1 + j) v Hj);
            reflexivity) Hc ltac:(lra)).
    clear H. cbn [sq_dist].
    ring_simplify in H'. ring_simplify. lra.
Qed.

(** ** The computation on segment lists returns a certified output *)

Lemma denoise_a_cert (x0 : Q) (xs : list Q) (xl lambda : Q) :
  0 < lambda ->
  cert_list (samples (x0 :: xs ++ [xl])) lambda (denoise_a x0 xs xl lambda) /\
  knot (samples (x0 :: xs ++ [xl])) (denoise_a x0 xs xl lambda) == 0.
Proof.
  intros Hpos. unfold denoise_a.
  set (input := x0 :: xs ++ [xl]).
  apply finish_a_cert; auto.
  - apply (main_a_inv (samples input) lambda Hpos xs 1).
    + apply init_a_inv; [exact Hpos|reflexivity].
    + intros k x Hk. unfold input.
      rewrite (samples_nth _ (1 + k) x); [reflexivity|].
      cbn [Nat.add nth_error]. rewrite nth_error_app1; [exact Hk|].
      apply nth_error_Some. congruence.
  - unfold input. rewrite (samples_nth _ (S (length xs)) xl); [reflexivity|].
    cbn [nth_error]. rewrite nth_error_app2 by lia.
    rewrite Nat.sub_diag. reflexivity.
Qed.

(** ** The shape of an input *)

Lemma list_shape (l : list Q) :
  l = [] \/ (exists v, l = [v]) \/ (exists x0 xs xl, l = x0 :: xs ++ [xl]).
Proof.
  destruct l as [|x0 r]; [left; reflexivity|right].
  destruct r as [|x1 r'] eqn:E; [left; exists x0; reflexivity|right].
  assert (Hne : x1 :: r' <> []) by discriminate.
  destruct (exists_last Hne) as (xs & xl & ->).
  exists x0, xs, xl. reflexivity.
Qed.

(** The routine on every input it has an output for. *)
Lemma denoise_cases (input : list Q) (lambda : Q) :
  fits (length input) ->
  (Qeq_bool lambda 0 = true /\ denoise input lambda = Ok input) \/
  (Qeq_bool lambda 0 = false /\ input = [] /\
   denoise input lambda = Err OutOfBounds) \/
  (Qeq_bool lambda 0 = false /\ (exists v, input = [v]) /\
   denoise input lambda = Ok input) \/
  (Qeq_bool lambda 0 = false /\
   exists x0 xs xl, input = x0 :: xs ++ [xl] /\
     denoise input lambda = Ok (denoise_a x0 xs xl lambda) /\
     length (denoise_a x0 xs xl lambda) = length input).
Proof.
  intros HW. destruct (Qeq_bool lambda 0) eqn:E0.
  - left. split; [reflexivity|]. apply denoise_zero; assumption.
  - right. destruct (list_shape input) as [->|[[v ->]|(x0 & xs & xl & ->)]].
    + left. split; [reflexivity|]. split; [reflexivity|].
      rewrite denoise_nil, E0. reflexivity.
    + right. left. split; [reflexivity|]. split; [exists v; reflexivity|].
      apply denoise_one.
    + right. right. split; [reflexivity|]. exists x0, xs, xl.
      split; [reflexivity|]. apply denoise_general; assumption.
Qed.

(** * The routine over exact numbers is the model of the claims

    [Gen], read over the arithmetic [exact], computes what [TV1D_denoise]
    computes: the two embeddings are the same program, and differ in the
    arithmetic only. *)

Ltac ex :=
  unfold exact_state in *; unfold exact_env in *;
  unfold set_indstart, set_j, set_first, set_curr,
    set_side, set_output, set_jseg, set_indjseg, Gen.set_indstart,
    Gen.set_j, Gen.set_first, Gen.set_curr, Gen.set_side, Gen.set_output,
    Gen.set_jseg, Gen.set_indjseg in *;
  cbn [Gen.sample Gen.real Gen.promote Gen.store Gen.add Gen.sub Gen.mul
       Gen.div Gen.of_uint Gen.le Gen.is_zero Gen.two exact
       Gen.indstart Gen.j Gen.first Gen.curr Gen.output Gen.low Gen.up
       Gen.jseg Gen.indjseg Gen.set_indstart Gen.set_j Gen.set_first
       Gen.set_curr Gen.side Gen.set_side Gen.set_output Gen.set_jseg
       Gen.set_indjseg Gen.cmp cmp
       indstart j first curr output low up jseg indjseg set_indstart set_j
       set_first set_curr side set_side set_output set_jseg set_indjseg
       exact_env exact_state bind rmap flip fst snd] in *.

(** Both sides run the same reads and writes: split on each result. *)
Ltac run :=
  repeat (ex; match goal with
          | |- context [bind ?r _] =>
              match r with
              | rd _ _ => destruct r eqn:?
              | wr _ _ _ => destruct r eqn:?
              | rd_in _ _ => destruct r eqn:?
              | Gen.rd_in _ _ _ => destruct r eqn:?
              end
          | |- context [if ?b then _ else _] =>
              match b with
              | Nat.ltb _ _ => destruct b eqn:?
              | Nat.leb _ _ => destruct b eqn:?
              | Nat.eqb _ _ => destruct b eqn:?
              | Qle_bool _ _ => destruct b eqn:?
              | Qeq_bool _ _ => destruct b eqn:?
              | andb _ _ => destruct b eqn:?
              end
          end); ex; try reflexivity.

Lemma fill_exact (fuel : nat) (out : list (option Q)) (k k2 : nat) (v : Q) :
  Gen.fill exact fuel out k k2 v = fill fuel out k k2 v.
Proof. reflexivity. Qed.

Lemma fill_le_exact (fuel : nat) (out : list (option Q)) (k i : nat) (v : Q) :
  Gen.fill_le exact fuel out k i v = fill_le fuel out k i v.
Proof. reflexivity. Qed.

Lemma rd_in_exact (input : list Q) (k : nat) :
  Gen.rd_in exact input k = rd_in input k.
Proof. reflexivity. Qed.

Lemma collect_exact (a : list (option Q)) : Gen.collect exact a = collect a.
Proof. reflexivity. Qed.

Lemma copy_exact (fuel : nat) (input : list Q) (out : list (option Q))
    (i width : nat) :
  Gen.copy exact fuel input out i width = copy fuel input out i width.
Proof. reflexivity. Qed.

Lemma unwind_exact (d : dir) (fuel : nat) (i jseg0 : nat)
    (out : list (option Q)) :
  forall e : Gen.env exact,
    rmap exact_env (Gen.unwind exact d fuel i jseg0 out e)
    = unwind d fuel i jseg0 out (exact_env e).
Proof.
  induction fuel as [|f IH]; intros [ist jj fi cu];
    cbn [Gen.unwind unwind]; run; destruct d; run;
    apply (IH (Gen.mkEnv exact ist (usub jj 1) fi _)).
Qed.

Lemma bind_rmap {X Y Z W : Type} (f : X -> Y) (g : Z -> W)
    (r : result X) (k : X -> result Z) (k' : Y -> result W) :
  (forall a, rmap g (k a) = k' (f a)) ->
  rmap g (bind r k) = bind (rmap f r) k'.
Proof. intros H. destruct r; cbn; auto. Qed.

Ltac run2 :=
  repeat (ex; rewrite ?fill_exact, ?fill_le_exact, ?rd_in_exact;
          match goal with
          | |- context [bind ?r _] =>
              match r with
              | rd _ _ => destruct r eqn:?
              | wr _ _ _ => destruct r eqn:?
              | rd_in _ _ => destruct r eqn:?
              | fill _ _ _ _ _ => destruct r as [[? ?]|] eqn:?
              end
          | |- context [if ?b then _ else _] =>
              match b with
              | Nat.ltb _ _ => destruct b eqn:?
              | Nat.leb _ _ => destruct b eqn:?
              | Nat.eqb _ _ => destruct b eqn:?
              | Qle_bool _ _ => destruct b eqn:?
              | Qeq_bool _ _ => destruct b eqn:?
              | andb _ _ => destruct b eqn:?
              end
          end); ex; try reflexivity.

Lemma close_exact (d : dir) (fuel W i : nat) :
  forall s : Gen.state exact,
    rmap exact_state (Gen.close exact d fuel W i s)
    = close d fuel W i (exact_state s).
Proof.
  induction fuel as [|f IH]; intros [out [il jl fl cl] [iu ju fu cu] js ij];
    destruct d; cbn [Gen.close close]; run2; apply IH.
Qed.

Lemma flush_exact (d : dir) (fuel W : nat) :
  forall s : Gen.state exact,
    rmap exact_state (Gen.flush exact d fuel W s)
    = flush d fuel W (exact_state s).
Proof.
  induction fuel as [|f IH]; intros [out [il jl fl cl] [iu ju fu cu] js ij];
    destruct d; cbn [Gen.flush flush]; run2; apply IH.
Qed.

Lemma extend_exact (d : dir) (W i : nat) (x : Q) (s : Gen.state exact) :
  rmap exact_state (Gen.extend exact d W i x s)
  = extend d W i x (exact_state s).
Proof.
  destruct s as [out [il jl fl cl] [iu ju fu cu] js ij];
    destruct d; unfold Gen.extend, extend; run2;
    match goal with
    | |- context [Gen.unwind exact ?d ?W ?i ?js ?o ?e] =>
        pose proof (unwind_exact d W i js o e) as H;
        destruct (Gen.unwind exact d W i js o e)
    end; ex; rewrite <- H; reflexivity.
Qed.

(** A block that is already linked: split on its result. *)
Ltac linked H r :=
  destruct r as [[? [? ? ? ?] [? ? ? ?] ? ?]|]; ex; rewrite <- H; clear H; ex.

Ltac chain :=
  match goal with
  | |- context [bind ?r _] =>
      match r with
      | Gen.close exact ?d ?f ?W ?i ?s =>
          let H := fresh "H" in
          pose proof (close_exact d f W i s) as H; linked H r
      | Gen.flush exact ?d ?f ?W ?s =>
          let H := fresh "H" in
          pose proof (flush_exact d f W s) as H; linked H r
      | Gen.extend exact ?d ?W ?i ?x ?s =>
          let H := fresh "H" in
          pose proof (extend_exact d W i x s) as H; linked H r
      end
  end.

Lemma settle_exact (d : dir) (checked : bool) (W i : nat) (twolambda : Q)
    (s : Gen.state exact) :
  rmap exact_state (Gen.settle exact d checked W i twolambda s)
  = settle d checked W i twolambda (exact_state s).
Proof.
  destruct s as [out [il jl fl cl] [iu ju fu cu] js ij];
    destruct d; unfold Gen.settle, settle; ex;
    (destruct (_ =? _)%nat; [chain; run2 | run2]).
Qed.

Lemma update_exact (d : dir) (checked : bool) (W i : nat) (x twolambda : Q)
    (s : Gen.state exact) :
  rmap exact_state (Gen.update exact d checked W i x twolambda s)
  = update d checked W i x twolambda (exact_state s).
Proof.
  unfold Gen.update, update. rewrite <- extend_exact.
  destruct (Gen.extend exact d W i x s) as [s1|]; [|reflexivity].
  cbn [bind rmap]. apply settle_exact.
Qed.

Lemma reset_exact (d : dir) (input : list Q) (i : nat) (s : Gen.state exact) :
  rmap exact_state (Gen.reset exact d input i s)
  = reset d input i (exact_state s).
Proof.
  destruct s as [out [il jl fl cl] [iu ju fu cu] js ij];
    destruct d; unfold Gen.reset, reset; run2.
Qed.

Lemma step_exact (input : list Q) (W i : nat) (twolambda : Q)
    (s : Gen.state exact) :
  rmap exact_state (Gen.step exact input W i twolambda s)
  = step input W i twolambda (exact_state s).
Proof.
  unfold Gen.step, step. rewrite rd_in_exact.
  destruct (rd_in input i) as [x|]; [|reflexivity]. cbn [bind].
  assert (El : curr (low (exact_state s)) = Gen.curr exact (Gen.low exact s))
    by (destruct s as [out [il jl fl cl] [iu ju fu cu] js ij]; reflexivity).
  assert (Eu : curr (up (exact_state s)) = Gen.curr exact (Gen.up exact s))
    by (destruct s as [out [il jl fl cl] [iu ju fu cu] js ij]; reflexivity).
  rewrite El, Eu.
  cbn [Gen.le Gen.promote Gen.real Gen.sample exact].
  destruct (Qle_bool (Gen.curr exact (Gen.low exact s)) x).
  - destruct (Qle_bool x (Gen.curr exact (Gen.up exact s))).
    + rewrite <- update_exact.
      destruct (Gen.update exact Up false W i x twolambda s) as [s1|];
        [|reflexivity].
      cbn [bind rmap]. apply update_exact.
    + rewrite <- reset_exact.
      destruct (Gen.reset exact Up input i s) as [s1|]; [|reflexivity].
      cbn [bind rmap]. apply update_exact.
  - rewrite <- reset_exact.
    destruct (Gen.reset exact Low input i s) as [s1|]; [|reflexivity].
    cbn [bind rmap]. rewrite update_exact.
    destruct s1 as [out [il jl fl cl] [iu ju fu cu] js ij]. reflexivity.
Qed.

Lemma main_loop_exact (fuel : nat) (input : list Q) (W width : nat)
    (twolambda : Q) :
  forall (i : nat) (s : Gen.state exact),
    rmap (fun p => (exact_state (fst p), snd p))
      (Gen.main_loop exact fuel input W i width twolambda s)
    = main_loop fuel input W i width twolambda (exact_state s).
Proof.
  induction fuel as [|f IH]; intros i s; cbn [Gen.main_loop main_loop];
    destruct (i <? width)%nat; try reflexivity.
  rewrite <- step_exact.
  destruct (Gen.step exact input W i twolambda s) as [s1|]; [|reflexivity].
  cbn [bind rmap]. apply IH.
Qed.

Lemma finish_all_exact (d : dir) (W i : nat) (x : Q) (s : Gen.state exact) :
  Gen.finish_all exact d W i x s = finish_all d W i x (exact_state s).
Proof.
  unfold Gen.finish_all, finish_all. rewrite <- flush_exact.
  destruct (Gen.flush exact d W W s) as [s1|]; [|reflexivity].
  destruct s1 as [out [il jl fl cl] [iu ju fu cu] js ij].
  destruct d; reflexivity.
Qed.

Lemma finish_tail_exact (d : dir) (W i : nat) (s : Gen.state exact) :
  Gen.finish_tail exact d W i s = finish_tail d W i (exact_state s).
Proof.
  unfold Gen.finish_tail, finish_tail. rewrite <- flush_exact.
  destruct (Gen.flush exact d W W s) as [s1|]; [|reflexivity].
  destruct s1 as [out [il jl fl cl] [iu ju fu cu] js ij].
  destruct d; reflexivity.
Qed.

Lemma finish_exact (input : list Q) (W i : nat) (lambda : Q)
    (s : Gen.state exact) :
  Gen.finish exact input W i lambda s
  = finish input W i lambda (exact_state s).
Proof.
  unfold Gen.finish, finish. rewrite rd_in_exact.
  destruct (rd_in input i) as [x|]; [|reflexivity]. cbn [bind].
  rewrite <- !finish_all_exact.
  assert (El : curr (low (exact_state s)) = Gen.curr exact (Gen.low exact s))
    by (destruct s as [out [il jl fl cl] [iu ju fu cu] js ij]; reflexivity).
  assert (Eu : curr (up (exact_state s)) = Gen.curr exact (Gen.up exact s))
    by (destruct s as [out [il jl fl cl] [iu ju fu cu] js ij]; reflexivity).
  rewrite El, Eu.
  cbn [Gen.le Gen.promote Gen.add Gen.sub Gen.real Gen.sample exact].
  destruct (Qle_bool (x + lambda) (Gen.curr exact (Gen.low exact s)));
    [reflexivity|].
  destruct (Qle_bool (Gen.curr exact (Gen.up exact s)) (x - lambda));
    [reflexivity|].
  rewrite <- extend_exact.
  destruct (Gen.extend exact Low W i (x + lambda) s) as [s1|]; [|reflexivity].
  cbn [bind rmap]. rewrite <- finish_tail_exact.
  replace (j (low (exact_state s1)) =? jseg (exact_state s1))%nat
    with (Gen.j exact (Gen.low exact s1) =? Gen.jseg exact s1)%nat
    by (destruct s1 as [out [il jl fl cl] [iu ju fu cu] js ij]; reflexivity).
  destruct (Gen.j exact (Gen.low exact s1) =? Gen.jseg exact s1)%nat;
    [|reflexivity].
  replace (Qle_bool (curr (low (exact_state s1))) (first (up (exact_state s1))))
    with (Qle_bool (Gen.curr exact (Gen.low exact s1))
            (Gen.first exact (Gen.up exact s1)))
    by (destruct s1 as [out [il jl fl cl] [iu ju fu cu] js ij]; reflexivity).
  destruct (Qle_bool (Gen.curr exact (Gen.low exact s1))
              (Gen.first exact (Gen.up exact s1))).
  - destruct s1 as [out [il jl fl cl] [iu ju fu cu] js ij]. reflexivity.
  - rewrite <- extend_exact.
    destruct (Gen.extend exact Up W i (x - lambda) s1) as [s2|];
      [|reflexivity].
    cbn [bind rmap]. apply finish_tail_exact.
Qed.

(** The routine over exact numbers is [TV1D_denoise]. *)
Lemma TV1D_denoise_exact (input : list Q) (width : nat) (lambda : Q) :
  Gen.TV1D_denoise exact input width lambda = TV1D_denoise input width lambda.
Proof.
  unfold Gen.TV1D_denoise, TV1D_denoise.
  cbn [Gen.is_zero Gen.promote Gen.add Gen.sub Gen.mul Gen.two Gen.real
       Gen.sample exact].
  destruct (Qeq_bool lambda 0); [reflexivity|].
  rewrite rd_in_exact.
  destruct (rd_in input 0) as [x0|]; [|reflexivity]. cbn [bind].
  destruct (width =? 1)%nat; [reflexivity|].
  destruct (wr (repeat None width) 0 0%nat) as [il|]; [|reflexivity].
  cbn [bind].
  match goal with
  | |- context [Gen.main_loop exact ?f ?inp ?W ?i ?w ?tl ?s] =>
      pose proof (main_loop_exact f inp W w tl i s) as H;
      destruct (Gen.main_loop exact f inp W i w tl s) as [[s1 i1]|]
  end; cbn [rmap fst snd] in H; unfold exact_state, exact_env in H;
    cbn [Gen.output Gen.low Gen.up Gen.jseg Gen.indjseg Gen.indstart Gen.j
         Gen.first Gen.curr] in H;
    rewrite <- H; [|reflexivity].
  cbn [bind]. rewrite finish_exact. reflexivity.
Qed.

Lemma denoise_exact (input : list Q) (lambda : Q) :
  Gen.denoise exact input lambda = denoise input lambda.
Proof. apply TV1D_denoise_exact. Qed.

(** * The routine and its specification *)

Lemma lambda_pos (lambda : Q) :
  0 <= lambda -> Qeq_bool lambda 0 = false -> 0 < lambda.
Proof.
  intros H0 H. destruct (Qlt_le_dec 0 lambda) as [|Hle]; auto.
  assert (E : lambda == 0) by lra. apply Qeq_bool_iff in E. congruence.
Qed.

Lemma eqlist_refl (l : list Q) : eqlist l l.
Proof. induction l; constructor; auto. reflexivity. Qed.

Lemma total_variation_const (c : Q) (l : list Q) :
  Forall (Qeq c) l -> total_variation l == 0.
Proof.
  induction l as [|a l IH]; intros H; [reflexivity|].
  destruct l as [|b l]; [reflexivity|].
  rewrite total_variation_cons. inversion H as [|? ? Ha Hl]; subst.
  rewrite (IH Hl). inversion Hl as [|? ? Hb _]; subst.
  assert (E : b - a == 0) by lra. rewrite E. reflexivity.
Qed.

Lemma sq_dist_zero (x y : list Q) :
  length x = length y -> sq_dist x y <= 0 -> eqlist x y.
Proof.
  revert y. induction x as [|a x IH]; intros [|b y] Hl H; try discriminate.
  - constructor.
  - cbn [sq_dist] in H. pose proof (sq_dist_nonneg x y) as Hn.
    assert (Hs : 0 <= (a - b) * (a - b)).
    { pose proof (sq_dist_nonneg [a] [b]) as Hq. cbn in Hq. lra. }
    constructor.
    + assert (E : (a - b) * (a - b) == 0) by lra.
      apply Qmult_integral in E. destruct E; lra.
    + apply IH; [cbn in Hl; lia | lra].
Qed.

(** With [lambda > 0] and at least two samples: the routine returns an
    output, and the output carries a certificate of optimality. *)
Lemma denoise_certified (input : list Q) (lambda : Q) :
  fits (length input) -> 0 < lambda -> (2 <= length input)%nat ->
  exists out,
    denoise input lambda = Ok out /\ length out = length input /\
    knot (samples input) out == 0 /\
    forall z, length z = length input ->
      objective input lambda out + (1 # 2) * sq_dist z out
      <= objective input lambda z.
Proof.
  intros HW Hpos Hlen.
  assert (E0 : Qeq_bool lambda 0 = false).
  { destruct (Qeq_bool lambda 0) eqn:E; auto.
    apply Qeq_bool_iff in E. lra. }
  destruct (list_shape input) as [->|[[v ->]|(x0 & xs & xl & ->)]];
    [cbn in Hlen; lia | cbn in Hlen; lia |].
  destruct (denoise_general x0 xs xl lambda HW E0) as [E1 E2].
  destruct (denoise_a_cert x0 xs xl lambda Hpos) as [C1 C2].
  exists (denoise_a x0 xs xl lambda).
  split; [exact E1|]. split; [exact E2|]. split; [exact C2|].
  intros z Hz. apply cert_optimal; auto.
Qed.

(** The routine returns an output on every input that is not empty. *)
Lemma denoise_total (input : list Q) (lambda : Q) :
  fits (length input) -> input <> [] ->
  exists out, denoise input lambda = Ok out /\ length out = length input.
Proof.
  intros HW Hne.
  destruct (denoise_cases input lambda HW)
    as [[_ E]|[(_ & E & _)|[(_ & _ & E)|(_ & x0 & xs & xl & _ & E & El)]]].
  - exists input. auto.
  - contradiction.
  - exists input. auto.
  - eexists. split; [exact E|exact El].
Qed.

Lemma denoise_length (input : list Q) (lambda : Q) (out : list Q) :
  fits (length input) ->
  denoise input lambda = Ok out -> length out = length input.
Proof.
  intros HW H.
  destruct (denoise_cases input lambda HW)
    as [[_ E]|[(_ & _ & E)|[(_ & _ & E)|(_ & x0 & xs & xl & _ & E & El)]]];
    rewrite E in H; try discriminate; injection H as <-; auto.
Qed.

(** C1, as the specification states it, fails: on the input [[0; 4]] with
    [lambda = 1] the routine returns [[1; 3]], and [[1/2; 7/2]] has a smaller
    value of [Sum (x_i - input_i)^2 + lambda * Sum |x_{i+1} - x_i|]. *)
Lemma C1_counterexample :
  exists out z,
    denoise [0; 4] 1 = Ok out /\ length z = length [0; 4] /\
    spec_objective [0; 4] 1 z < spec_objective [0; 4] 1 out.
Proof.
  exists [0 + 1; 4 - 1], [1 # 2; 7 # 2].
  split; [vm_compute; reflexivity|]. split; [reflexivity|].
  vm_compute. reflexivity.
Qed.

(** C1 (amended): for every input of at least two samples and every
    [lambda >= 0], the routine returns the global minimiser of
    [1/2 * Sum_i (x_i - input_i)^2 + lambda * Sum_i |x_{i+1} - x_i|]; every
    other sequence [z] of the same length costs at least
    [1/2 * Sum_i (z_i - x_i)^2] more. *)
Theorem C1_minimizer (input : list Q) (lambda : Q) :
  fits (length input) -> (2 <= length input)%nat -> 0 <= lambda ->
  exists out,
    denoise input lambda = Ok out /\ length out = length input /\
    (forall z, length z = length input ->
       objective input lambda out <= objective input lambda z) /\
    (forall z, length z = length input ->
       objective input lambda out + (1 # 2) * sq_dist z out
       <= objective input lambda z).
Proof.
  intros HW Hlen H0.
  assert (Hstrong : exists out,
    denoise input lambda = Ok out /\ length out = length input /\
    forall z, length z = length input ->
      objective input lambda out + (1 # 2) * sq_dist z out
      <= objective input lambda z).
  { destruct (Qeq_bool lambda 0) eqn:E0.
    - exists input. split; [apply denoise_zero; assumption|].
      split; [reflexivity|]. intros z Hz. unfold objective.
      apply Qeq_bool_iff in E0. rewrite sq_dist_refl, E0. lra.
    - destruct (denoise_certified input lambda HW (lambda_pos _ H0 E0) Hlen)
        as (out & E1 & E2 & _ & E3).
      exists out. auto. }
  destruct Hstrong as (out & E1 & E2 & E3).
  exists out. split; [exact E1|]. split; [exact E2|]. split; [|exact E3].
  intros z Hz. specialize (E3 z Hz).
  pose proof (sq_dist_nonneg z out). lra.
Qed.

Lemma C1_minimizer_witness :
  fits (length [0; 4]) /\ (2 <= length [0; 4])%nat /\ 0 <= 1 /\
  exists out,
    denoise [0; 4] 1 = Ok out /\ length out = length [0; 4] /\
    (forall z, length z = length [0; 4] ->
       objective [0; 4] 1 out <= objective [0; 4] 1 z) /\
    (forall z, length z = length [0; 4] ->
       objective [0; 4] 1 out + (1 # 2) * sq_dist z out
       <= objective [0; 4] 1 z).
Proof.
  assert (H1 : fits (length [0; 4])) by (vm_compute; reflexivity).
  assert (H2 : (2 <= length [0; 4])%nat) by (simpl; lia).
  assert (H3 : 0 <= 1) by (unfold Qle; simpl; lia).
  split; [exact H1|]. split; [exact H2|]. split; [exact H3|].
  exact (C1_minimizer [0; 4] 1 H1 H2 H3).
Defined.

(** C2: with [lambda = 0] the routine returns an exact copy of its input,
    for inputs of every length; the result is that of the copy loop alone,
    which runs before the buffers of segment starts exist. *)
Theorem C2_identity_at_zero (input : list Q) (lambda : Q) :
  fits (length input) -> lambda == 0 ->
  denoise input lambda = Ok input /\
  TV1D_denoise input (length input) lambda
  = (out <- copy (length input) input (repeat None (length input)) 0
              (length input) ;;
     collect out).
Proof.
  intros HW H0. apply Qeq_bool_iff in H0. split.
  - apply denoise_zero; assumption.
  - unfold TV1D_denoise. rewrite H0. reflexivity.
Qed.

Lemma C2_identity_at_zero_witness :
  fits (length [3; 1; 2]) /\ 0 == 0 /\
  denoise [3; 1; 2] 0 = Ok [3; 1; 2] /\
  TV1D_denoise [3; 1; 2] (length [3; 1; 2]) 0
  = (out <- copy (length [3; 1; 2]) [3; 1; 2]
              (repeat None (length [3; 1; 2])) 0 (length [3; 1; 2]) ;;
     collect out).
Proof.
  assert (H1 : fits (length [3; 1; 2])) by (vm_compute; reflexivity).
  assert (H2 : 0 == 0) by reflexivity.
  split; [exact H1|]. split; [exact H2|].
  exact (C2_identity_at_zero [3; 1; 2] 0 H1 H2).
Defined.

(** C3: for every [lambda >= 0], a sequence returned by the routine has the
    length of the input; and the routine returns a sequence for every input
    that is not empty. *)
Theorem C3_output_length (input : list Q) (lambda : Q) :
  fits (length input) -> 0 <= lambda ->
  (forall out, denoise input lambda = Ok out -> length out = length input) /\
  (input <> [] -> exists out, denoise input lambda = Ok out).
Proof.
  intros HW H0. split.
  - intros out H. eapply denoise_length; eauto.
  - intros Hne. destruct (denoise_total input lambda HW Hne) as (out & E & _).
    exists out. exact E.
Qed.

Lemma C3_output_length_witness :
  fits (length [1; 5; 2]) /\ 0 <= 2 /\
  (forall out, denoise [1; 5; 2] 2 = Ok out -> length out = length [1; 5; 2]) /\
  ([1; 5; 2] <> [] -> exists out, denoise [1; 5; 2] 2 = Ok out).
Proof.
  assert (H1 : fits (length [1; 5; 2])) by (vm_compute; reflexivity).
  assert (H2 : 0 <= 2) by (unfold Qle; simpl; lia).
  split; [exact H1|]. split; [exact H2|].
  exact (C3_output_length [1; 5; 2] 2 H1 H2).
Defined.

(** C4, as the specification states it, fails of the program: in the
    arithmetic of the program ([double], with stores into [float]) and on
    the input [[1; 0; 0; 0; 0]] with [lambda = 2^-60], the routine returns
    [[1; -2^-62; -2^-62; -2^-62; -2^-62]], whose total variation
    [1 + 2^-62] is larger than the total variation [1] of the input. *)
Lemma C4_counterexample :
  exists out,
    FP.denoise [FP.float_of 1 0; FP.float_of 0 0; FP.float_of 0 0;
                FP.float_of 0 0; FP.float_of 0 0] (FP.double_of 1 (-60))
    = Ok out /\
    forallb FP.finite out = true /\
    0 <= FP.value (FP.double_of 1 (-60)) /\
    total_variation
      (map FP.value [FP.float_of 1 0; FP.float_of 0 0; FP.float_of 0 0;
                     FP.float_of 0 0; FP.float_of 0 0])
    < total_variation (map FP.value out).
Proof.
  eexists. split; [vm_compute; reflexivity|].
  split; [reflexivity|]. split; vm_compute; [discriminate | reflexivity].
Qed.

(** C4 (amended): over exact real arithmetic, for every input and every
    [lambda >= 0], the total variation of a sequence returned by the
    routine is at most the total variation of the input; and the routine
    returns a sequence for every input that is not empty. *)
Theorem C4_total_variation (input : list Q) (lambda : Q) :
  fits (length input) -> 0 <= lambda ->
  (forall out, denoise input lambda = Ok out ->
     total_variation out <= total_variation input) /\
  (input <> [] -> exists out, denoise input lambda = Ok out).
Proof.
  intros HW H0. split.
  - intros out H.
    destruct (denoise_cases input lambda HW)
      as [[_ E]|[(_ & _ & E)|[(_ & _ & E)|(E0 & x0 & xs & xl & Ei & E & El)]]];
      try (rewrite E in H; try discriminate; injection H as <-; lra).
    pose proof (lambda_pos _ H0 E0) as Hpos.
    assert (Hlen : (2 <= length input)%nat).
    { rewrite Ei. cbn. rewrite length_app. cbn. lia. }
    destruct (denoise_certified input lambda HW Hpos Hlen)
      as (out' & E1 & E2 & _ & E3).
    rewrite E1 in H. injection H as <-.
    specialize (E3 input eq_refl). unfold objective in E3.
    rewrite sq_dist_refl in E3.
    pose proof (sq_dist_nonneg out' input).
    pose proof (sq_dist_nonneg input out').
    assert (Hm : lambda * total_variation out' <= lambda * total_variation input)
      by lra.
    apply Qmult_le_l in Hm; assumption.
  - intros Hne. destruct (denoise_total input lambda HW Hne) as (out & E & _).
    exists out. exact E.
Qed.

Lemma C4_total_variation_witness :
  fits (length [0; 4; 1]) /\ 0 <= 1 /\
  (forall out, denoise [0; 4; 1] 1 = Ok out ->
     total_variation out <= total_variation [0; 4; 1]) /\
  ([0; 4; 1] <> [] -> exists out, denoise [0; 4; 1] 1 = Ok out).
Proof.
  assert (H1 : fits (length [0; 4; 1])) by (vm_compute; reflexivity).
  assert (H2 : 0 <= 1) by (unfold Qle; simpl; lia).
  split; [exact H1|]. split; [exact H2|].
  exact (C4_total_variation [0; 4; 1] 1 H1 H2).
Defined.

(** C5, as the specification states it, fails: with [lambda = -1] the call
    on [[0; 4]] is not refused; it returns [[-1; 5]]. *)
Lemma C5_counterexample :
  - (1) < 0 /\ denoise [0; 4] (- (1)) = Ok [0 + - (1); 4 - - (1)] /\
  ~ rejected (denoise [0; 4] (- (1))).
Proof.
  split; [reflexivity|]. split; [vm_compute; reflexivity|].
  vm_compute. exact (fun H => H).
Qed.

(** C5 (amended): the routine does not check the sign of [lambda]; for
    every input that is not empty and every [lambda < 0] the call is not
    refused and returns a sequence of the length of the input. *)
Theorem C5_negative_lambda (input : list Q) (lambda : Q) :
  fits (length input) -> input <> [] -> lambda < 0 ->
  ~ rejected (denoise input lambda) /\
  exists out, denoise input lambda = Ok out /\ length out = length input.
Proof.
  intros HW Hne Hneg.
  destruct (denoise_total input lambda HW Hne) as (out & E & El).
  split.
  - rewrite E. exact (fun H => H).
  - exists out. auto.
Qed.

Lemma C5_negative_lambda_witness :
  fits (length [0; 4]) /\ [0; 4] <> [] /\ - (1) < 0 /\
  ~ rejected (denoise [0; 4] (- (1))) /\
  exists out, denoise [0; 4] (- (1)) = Ok out /\ length out = length [0; 4].
Proof.
  assert (H1 : fits (length [0; 4])) by (vm_compute; reflexivity).
  assert (H2 : [0; 4] <> []) by discriminate.
  assert (H3 : - (1) < 0) by reflexivity.
  split; [exact H1|]. split; [exact H2|]. split; [exact H3|].
  exact (C5_negative_lambda [0; 4] (- (1)) H1 H2 H3).
Defined.

(** C6: on the empty input the routine is defined only for [lambda = 0]:
    there the copy loop returns the empty sequence.  With [lambda = 1] it
    reads [input[0]], which does not exist. *)
Theorem C6_empty_input :
  denoise [] 0 = Ok [] /\ denoise [] 1 = Err OutOfBounds /\
  forall lambda, ~ lambda == 0 -> denoise [] lambda = Err OutOfBounds.
Proof.
  split; [reflexivity|]. split; [reflexivity|].
  intros lambda Hn. rewrite denoise_nil.
  destruct (Qeq_bool lambda 0) eqn:E; [|reflexivity].
  apply Qeq_bool_iff in E. contradiction.
Qed.

(** C7: for a single sample [v] and every [lambda >= 0] the routine returns
    [[v]]. *)
Theorem C7_single_sample (v lambda : Q) :
  0 <= lambda -> denoise [v] lambda = Ok [v].
Proof. intros _. apply denoise_one. Qed.

Lemma C7_single_sample_witness :
  0 <= 2 /\ denoise [7 # 3] 2 = Ok [7 # 3].
Proof.
  assert (H1 : 0 <= 2) by (unfold Qle; simpl; lia).
  split; [exact H1|].
  exact (C7_single_sample (7 # 3) 2 H1).
Defined.

(** C8, as the specification states it, fails of the program: in the
    arithmetic of the program ([double], with stores into [float]) and on
    the constant input [[0; 0; 0; 0; 0; 0]] with [lambda = 1], the routine
    returns [-2^-55] in every sample, not the input. *)
Lemma C8_counterexample :
  exists out,
    FP.denoise (repeat (FP.float_of 0 0) 6) (FP.double_of 1 0) = Ok out /\
    forallb FP.finite out = true /\
    0 <= FP.value (FP.double_of 1 0) /\
    Forall (Qeq 0) (map FP.value (repeat (FP.float_of 0 0) 6)) /\
    Forall (Qeq (- (1 # 2 ^ 55))) (map FP.value out) /\
    ~ eqlist (map FP.value out) (map FP.value (repeat (FP.float_of 0 0) 6)).
Proof.
  eexists. split; [vm_compute; reflexivity|].
  split; [reflexivity|]. split; [vm_compute; discriminate|].
  split; [repeat constructor|]. split; [repeat constructor|].
  intros H. inversion H as [|? ? ? ? E _]; subst. vm_compute in E. discriminate.
Qed.

(** C8 (amended): over exact real arithmetic, for an input whose samples
    all have the value [c] (at least one sample) and every [lambda >= 0],
    the routine returns a sequence equal, sample by sample, to the
    input. *)
Theorem C8_constant_input (input : list Q) (c lambda : Q) :
  fits (length input) -> input <> [] -> Forall (Qeq c) input ->
  0 <= lambda ->
  exists out, denoise input lambda = Ok out /\ eqlist out input.
Proof.
  intros HW Hne Hc H0.
  destruct (denoise_cases input lambda HW)
    as [[_ E]|[(_ & En & _)|[(_ & _ & E)|(E0 & x0 & xs & xl & Ei & E & El)]]].
  - exists input. split; [exact E|apply eqlist_refl].
  - contradiction.
  - exists input. split; [exact E|apply eqlist_refl].
  - pose proof (lambda_pos _ H0 E0) as Hpos.
    assert (Hlen : (2 <= length input)%nat).
    { rewrite Ei. cbn. rewrite length_app. cbn. lia. }
    destruct (denoise_certified input lambda HW Hpos Hlen)
      as (out & E1 & E2 & _ & E3).
    exists out. split; [exact E1|].
    specialize (E3 input eq_refl). unfold objective in E3.
    rewrite sq_dist_refl, (total_variation_const c input Hc) in E3.
    pose proof (sq_dist_nonneg out input).
    pose proof (sq_dist_nonneg input out).
    pose proof (total_variation_nonneg out).
    assert (0 <= lambda * total_variation out)
      by (apply Qmult_le_0_compat; lra).
    apply sq_dist_zero; [exact E2 | lra].
Qed.

Lemma C8_constant_input_witness :
  fits (length [5; 5; 5; 5; 5]) /\ [5; 5; 5; 5; 5] <> [] /\
  Forall (Qeq 5) [5; 5; 5; 5; 5] /\ 0 <= 3 /\
  exists out, denoise [5; 5; 5; 5; 5] 3 = Ok out /\
              eqlist out [5; 5; 5; 5; 5].
Proof.
  assert (H1 : fits (length [5; 5; 5; 5; 5])) by (vm_compute; reflexivity).
  assert (H2 : [5; 5; 5; 5; 5] <> []) by discriminate.
  assert (H3 : Forall (Qeq 5) [5; 5; 5; 5; 5])
    by (repeat constructor).
  assert (H4 : 0 <= 3) by (unfold Qle; simpl; lia).
  split; [exact H1|]. split; [exact H2|]. split; [exact H3|].
  split; [exact H4|].
  exact (C8_constant_input [5; 5; 5; 5; 5] 5 3 H1 H2 H3 H4).
Defined.

(** C9: for every input and every [lambda >= 0] the routine terminates: no
    loop runs out of fuel, whatever the length of the input, and on every
    input that is not empty the run ends with an output. *)
Theorem C9_termination (input : list Q) (lambda : Q) :
  fits (length input) -> 0 <= lambda ->
  denoise input lambda <> Err OutOfFuel /\
  (input <> [] -> exists out, denoise input lambda = Ok out).
Proof.
  intros HW H0. split.
  - destruct (denoise_cases input lambda HW)
      as [[_ E]|[(_ & _ & E)|[(_ & _ & E)|(_ & x0 & xs & xl & _ & E & _)]]];
      rewrite E; discriminate.
  - intros Hne. destruct (denoise_total input lambda HW Hne) as (out & E & _).
    exists out. exact E.
Qed.

Lemma C9_termination_witness :
  fits (length [1; 5; 2; 8; 3]) /\ 0 <= 2 /\
  denoise [1; 5; 2; 8; 3] 2 <> Err OutOfFuel /\
  ([1; 5; 2; 8; 3] <> [] -> exists out, denoise [1; 5; 2; 8; 3] 2 = Ok out).
Proof.
  assert (H1 : fits (length [1; 5; 2; 8; 3])) by (vm_compute; reflexivity).
  assert (H2 : 0 <= 2) by (unfold Qle; simpl; lia).
  split; [exact H1|]. split; [exact H2|].
  exact (C9_termination [1; 5; 2; 8; 3] 2 H1 H2).
Defined.

(** C10: for every input of at least one sample and every [lambda >= 0],
    the routine returns a sequence whose sum is the sum of the input. *)
Theorem C10_sum_preserved (input : list Q) (lambda : Q) :
  fits (length input) -> (1 <= length input)%nat -> 0 <= lambda ->
  exists out, denoise input lambda = Ok out /\ sumQ out == sumQ input.
Proof.
  intros HW Hl H0.
  destruct (denoise_cases input lambda HW)
    as [[_ E]|[(_ & En & _)|[(_ & _ & E)|(E0 & x0 & xs & xl & Ei & E & El)]]].
  - exists input. split; [exact E|reflexivity].
  - subst input. cbn in Hl. lia.
  - exists input. split; [exact E|reflexivity].
  - pose proof (lambda_pos _ H0 E0) as Hpos.
    assert (Hlen : (2 <= length input)%nat).
    { rewrite Ei. cbn. rewrite length_app. cbn. lia. }
    destruct (denoise_certified input lambda HW Hpos Hlen)
      as (out & E1 & E2 & E3 & _).
    exists out. split; [exact E1|].
    unfold knot in E3. rewrite E2, G_samples in E3. lra.
Qed.

Lemma C10_sum_preserved_witness :
  fits (length [0; 0; 0; 10; 10; 10]) /\
  (1 <= length [0; 0; 0; 10; 10; 10])%nat /\ 0 <= 1 /\
  exists out, denoise [0; 0; 0; 10; 10; 10] 1 = Ok out /\
              sumQ out == sumQ [0; 0; 0; 10; 10; 10].
Proof.
  assert (H1 : fits (length [0; 0; 0; 10; 10; 10])) by (vm_compute; reflexivity).
  assert (H2 : (1 <= length [0; 0; 0; 10; 10; 10])%nat) by (simpl; lia).
  assert (H3 : 0 <= 1) by (unfold Qle; simpl; lia).
  split; [exact H1|]. split; [exact H2|]. split; [exact H3|].
  exact (C10_sum_preserved [0; 0; 0; 10; 10; 10] 1 H1 H2 H3).
Defined.

(** * The certificate, index by index *)

Lemma G_samples_nil (k : nat) : G (samples []) k == 0.
Proof.
  induction k as [|k IH]; [reflexivity|].
  rewrite G_S, IH. unfold samples. destruct k; cbn; lra.
Qed.

Lemma G_firstn (l : list Q) (k : nat) : G (samples l) k == sumQ (firstn k l).
Proof.
  revert l. induction k as [|k IH]; intros l; [reflexivity|].
  destruct l as [|a l].
  - rewrite G_samples_nil. reflexivity.
  - rewrite G_samples_cons, IH. reflexivity.
Qed.

Lemma offset_G (input out : list Q) (k : nat) :
  offset input out k == G (samples out) k - G (samples input) k.
Proof. unfold offset. rewrite !G_firstn. reflexivity. Qed.

Lemma offset_0 (input out : list Q) : offset input out 0 == 0.
Proof. unfold offset. cbn. lra. Qed.

Lemma offset_S (input out : list Q) (k : nat) :
  offset input out (S k)
  == offset input out k + (nth k out 0 - nth k input 0).
Proof. rewrite !offset_G, !G_S. unfold samples. lra. Qed.

Lemma knot_offset (input out : list Q) :
  length out = length input ->
  knot (samples input) out == offset input out (length input).
Proof.
  intros H.
  assert (E1 : firstn (length input) out = out)
    by (rewrite <- H; apply firstn_all).
  assert (E2 : firstn (length input) input = input) by apply firstn_all.
  unfold knot, offset. rewrite G_firstn, H, E1, E2. reflexivity.
Qed.

(** What the certificate asks of one index. *)
Lemma cert_pointwise (y : nat -> Q) (lambda : Q) (l : list Q) :
  forall (k : nat) (u prev : Q),
    cert y lambda k u prev l <->
    (forall j, (j < length l)%nat ->
       let t := u + (sumQ (firstn j l) - (G y (k + j) - G y k)) in
       - lambda <= t /\ t <= lambda /\
       (nth j (prev :: l) 0 < nth j l 0 -> t == lambda) /\
       (nth j l 0 < nth j (prev :: l) 0 -> t == - lambda)).
Proof.
  induction l as [|x l IH]; intros k u prev.
  - cbn. split; [intros _ j Hj; lia | auto].
  - cbn [cert]. rewrite IH. split.
    + intros (C1 & C2 & C3 & C4 & C5) j Hj.
      destruct j as [|j].
      * cbn. rewrite Nat.add_0_r.
        assert (E : u + (0 - (G y k - G y k)) == u) by ring.
        rewrite E. auto.
      * specialize (C5 j ltac:(cbn in Hj; lia)). cbn zeta in C5.
        cbn [firstn sumQ nth].
        replace (k + S j)%nat with (S k + j)%nat by lia.
        assert (E : u + (x + sumQ (firstn j l) - (G y (S k + j) - G y k))
                    == u + (x - y k)
                       + (sumQ (firstn j l) - (G y (S k + j) - G y (S k)))).
        { rewrite (G_S y k). ring. }
        rewrite E. exact C5.
    + intros H.
      pose proof (H 0%nat ltac:(cbn; lia)) as H0. cbn in H0.
      rewrite Nat.add_0_r in H0.
      assert (E : u + (0 - (G y k - G y k)) == u) by ring.
      rewrite E in H0. destruct H0 as (C1 & C2 & C3 & C4).
      split; [exact C1|]. split; [exact C2|]. split; [exact C3|].
      split; [exact C4|].
      intros j Hj. specialize (H (S j) ltac:(cbn; lia)). cbn zeta in H.
      cbn [firstn sumQ nth] in H.
      replace (k + S j)%nat with (S k + j)%nat in H by lia.
      assert (E' : u + (x + sumQ (firstn j l) - (G y (S k + j) - G y k))
                  == u + (x - y k)
                     + (sumQ (firstn j l) - (G y (S k + j) - G y (S k)))).
      { rewrite (G_S y k). ring. }
      rewrite E' in H. exact H.
Qed.

Lemma cert_offset (input : list Q) (x0 : Q) (l : list Q) (j : nat) :
  (x0 - samples input 0)
  + (sumQ (firstn j l)
     - (G (samples input) (1 + j) - G (samples input) 1))
  == offset input (x0 :: l) (S j).
Proof.
  unfold offset. cbn [firstn sumQ]. rewrite <- (G_firstn input (S j)).
  change (1 + j)%nat with (S j). cbn [G]. ring.
Qed.

Lemma cert_list_certified (input out : list Q) (lambda : Q) :
  0 <= lambda -> length out = length input ->
  cert_list (samples input) lambda out ->
  knot (samples input) out == 0 ->
  certified input lambda out.
Proof.
  intros H0 Hl Hc Hk. rewrite (knot_offset _ _ Hl) in Hk.
  destruct out as [|x0 l].
  - destruct input; [|discriminate]. split; [reflexivity|].
    split; [|split].
    + intros k Hk'. cbn in Hk'. assert (k = 0)%nat by lia. subst k.
      rewrite offset_0. lra.
    + intros k Hk'. cbn in Hk'. lia.
    + exact Hk.
  - cbn [cert_list] in Hc.
    pose proof (proj1 (cert_pointwise _ _ _ _ _ _) Hc) as H. cbn zeta in H.
    split; [exact Hl|]. split; [|split].
    + intros k Hk'. destruct k as [|j]; [rewrite offset_0; lra|].
      destruct (Nat.eq_dec (S j) (length input)) as [E|E].
      * rewrite E, Hk. lra.
      * cbn in Hl. specialize (H j ltac:(lia)).
        destruct H as (A & B & _). rewrite cert_offset in A, B. auto.
    + intros k Hk'. cbn in Hl. specialize (H k ltac:(lia)).
      destruct H as (_ & _ & C & D). rewrite cert_offset in C, D.
      split; [exact C|exact D].
    + exact Hk.
Qed.

Lemma certified_cert_list (input out : list Q) (lambda : Q) :
  certified input lambda out ->
  cert_list (samples input) lambda out /\ knot (samples input) out == 0.
Proof.
  intros (Hl & Hb & Hc & Hk). split.
  - destruct out as [|x0 l]; [exact I|]. cbn [cert_list].
    apply cert_pointwise. intros j Hj. cbn zeta. cbn in Hl.
    destruct (Hb (S j) ltac:(lia)) as [A B].
    destruct (Hc j ltac:(lia)) as [C D].
    rewrite cert_offset. auto.
  - rewrite (knot_offset _ _ Hl). exact Hk.
Qed.

(** A certified output is the minimiser, and the only certified output. *)
Lemma certified_optimal (input out z : list Q) (lambda : Q) :
  certified input lambda out -> length z = length input ->
  objective input lambda out + (1 # 2) * sq_dist z out
  <= objective input lambda z.
Proof.
  intros Hc Hz. destruct (certified_cert_list _ _ _ Hc) as [C K].
  apply cert_optimal; auto. apply Hc.
Qed.

Lemma sq_dist_sym (x y : list Q) : sq_dist x y == sq_dist y x.
Proof.
  revert y. induction x as [|a x IH]; intros [|b y]; cbn; try reflexivity.
  rewrite (IH y). ring.
Qed.

Lemma certified_unique (input a b : list Q) (lambda : Q) :
  certified input lambda a -> certified input lambda b -> eqlist a b.
Proof.
  intros Ha Hb.
  pose proof (certified_optimal _ _ b _ Ha (proj1 Hb)) as H1.
  pose proof (certified_optimal _ _ a _ Hb (proj1 Ha)) as H2.
  pose proof (sq_dist_nonneg a b). pose proof (sq_dist_nonneg b a).
  apply sq_dist_zero.
  - rewrite (proj1 Ha), (proj1 Hb). reflexivity.
  - lra.
Qed.

Lemma offset_refl (l : list Q) (k : nat) : offset l l k == 0.
Proof. unfold offset. ring. Qed.

Lemma certified_refl (input : list Q) (lambda : Q) :
  0 <= lambda -> lambda == 0 \/ (length input <= 1)%nat ->
  certified input lambda input.
Proof.
  intros H0 H. split; [reflexivity|]. split; [|split].
  - intros k _. rewrite offset_refl. lra.
  - intros k Hk. rewrite offset_refl. destruct H as [E|E]; [|lia].
    split; intros _; lra.
  - apply offset_refl.
Qed.

(** Every output of the routine, for [lambda >= 0], is certified. *)
Lemma denoise_out_certified (input : list Q) (lambda : Q) (out : list Q) :
  fits (length input) -> 0 <= lambda ->
  denoise input lambda = Ok out -> certified input lambda out.
Proof.
  intros HW H0 H.
  destruct (denoise_cases input lambda HW)
    as [[E0 E]|[(_ & _ & E)|[(_ & [v Ev] & E)|(E0 & x0 & xs & xl & Ei & E & El)]]];
    rewrite E in H; try discriminate; injection H as <-.
  - apply certified_refl; [exact H0|]. left. apply Qeq_bool_iff. exact E0.
  - apply certified_refl; [exact H0|]. right. subst input. cbn. lia.
  - pose proof (lambda_pos _ H0 E0) as Hpos.
    destruct (denoise_a_cert x0 xs xl lambda Hpos) as [C K].
    rewrite <- Ei in C, K. apply cert_list_certified; auto.
Qed.

(** A certified sequence is what the routine returns. *)
Lemma denoise_char (input : list Q) (lambda : Q) (x : list Q) :
  fits (length input) -> 0 <= lambda -> input <> [] ->
  certified input lambda x ->
  exists out, denoise input lambda = Ok out /\ eqlist out x.
Proof.
  intros HW H0 Hne Hx.
  destruct (denoise_total input lambda HW Hne) as (out & E & _).
  exists out. split; [exact E|].
  eapply certified_unique; [|exact Hx].
  eapply denoise_out_certified; eauto.
Qed.

(** * Certificates under changes of the input *)

Lemma certified_length (input out : list Q) (lambda : Q) :
  certified input lambda out -> length out = length input.
Proof. intros H. apply H. Qed.

Lemma certified_lambda_eq (input out : list Q) (lambda lambda' : Q) :
  lambda == lambda' -> certified input lambda out ->
  certified input lambda' out.
Proof.
  intros E (Hl & Hb & Hc & Hk). split; [exact Hl|]. split; [|split].
  - intros k Hk'. destruct (Hb k Hk'). lra.
  - intros k Hk'. destruct (Hc k Hk') as [C D].
    split; intros Hlt; [rewrite (C Hlt)|rewrite (D Hlt)]; lra.
  - exact Hk.
Qed.

Section Affine.

Variable f : Q -> Q.
Variables c t : Q.
Hypothesis Hf : forall v, f v == c * v + t.

Lemma sumQ_map_affine (l : list Q) :
  sumQ (map f l) == c * sumQ l + dbl (length l) * t.
Proof.
  induction l as [|a l IH]; [cbn; unfold dbl; cbn; ring|].
  cbn [map sumQ length]. rewrite IH, Hf, dbl_S. ring.
Qed.

Lemma offset_map_affine (input out : list Q) (k : nat) :
  length out = length input ->
  offset (map f input) (map f out) k == c * offset input out k.
Proof.
  intros Hl. unfold offset. rewrite !firstn_map, !sumQ_map_affine.
  rewrite !length_firstn, Hl. ring.
Qed.

Lemma nth_map_affine (l : list Q) (k : nat) :
  (k < length l)%nat -> nth k (map f l) 0 == c * nth k l 0 + t.
Proof.
  intros Hk. rewrite (nth_indep _ 0 (f 0)) by (rewrite length_map; exact Hk).
  rewrite map_nth. apply Hf.
Qed.

Lemma certified_affine_pos (input out : list Q) (lambda : Q) :
  0 < c -> certified input lambda out ->
  certified (map f input) (c * lambda) (map f out).
Proof.
  intros Hc (Hl & Hb & Hj & Hk).
  split; [rewrite !length_map; exact Hl|]. split; [|split].
  - intros k Hk'. rewrite length_map in Hk'. destruct (Hb k Hk') as [A B].
    rewrite (offset_map_affine _ _ _ Hl).
    apply (Qmult_le_l _ _ _ Hc) in A. apply (Qmult_le_l _ _ _ Hc) in B.
    split; [|exact B]. lra.
  - intros k Hk'. rewrite length_map in Hk'. destruct (Hj k Hk') as [C D].
    rewrite (offset_map_affine _ _ _ Hl).
    rewrite !nth_map_affine by lia.
    split; intros Hlt.
    + rewrite C; [reflexivity|]. apply (Qmult_lt_l _ _ _ Hc). lra.
    + rewrite D; [ring|]. apply (Qmult_lt_l _ _ _ Hc). lra.
  - rewrite length_map, (offset_map_affine _ _ _ Hl), Hk. ring.
Qed.

Lemma certified_affine_neg (input out : list Q) (lambda : Q) :
  c < 0 -> certified input lambda out ->
  certified (map f input) (- c * lambda) (map f out).
Proof.
  intros Hc (Hl & Hb & Hj & Hk).
  assert (Hc' : 0 < - c) by lra.
  split; [rewrite !length_map; exact Hl|]. split; [|split].
  - intros k Hk'. rewrite length_map in Hk'. destruct (Hb k Hk') as [A B].
    rewrite (offset_map_affine _ _ _ Hl).
    apply (Qmult_le_l _ _ _ Hc') in A. apply (Qmult_le_l _ _ _ Hc') in B.
    split; lra.
  - intros k Hk'. rewrite length_map in Hk'. destruct (Hj k Hk') as [C D].
    rewrite (offset_map_affine _ _ _ Hl).
    rewrite !nth_map_affine by lia.
    split; intros Hlt.
    + rewrite D; [ring|]. apply (Qmult_lt_l _ _ _ Hc'). lra.
    + rewrite C; [ring|]. apply (Qmult_lt_l _ _ _ Hc'). lra.
  - rewrite length_map, (offset_map_affine _ _ _ Hl), Hk. ring.
Qed.

End Affine.

(** ** The samples in reverse order *)

Lemma sumQ_rev (l : list Q) : sumQ (rev l) == sumQ l.
Proof.
  induction l as [|a l IH]; [reflexivity|].
  cbn [rev sumQ]. rewrite sumQ_app, IH. cbn. ring.
Qed.

Lemma sumQ_firstn_skipn (l : list Q) (k : nat) :
  sumQ (firstn k l) + sumQ (skipn k l) == sumQ l.
Proof.
  rewrite <- (firstn_skipn k l) at 3. rewrite sumQ_app. reflexivity.
Qed.

Lemma sumQ_firstn_rev (l : list Q) (k : nat) :
  sumQ (firstn k (rev l)) == sumQ l - sumQ (firstn (length l - k) l).
Proof.
  rewrite firstn_rev, sumQ_rev.
  pose proof (sumQ_firstn_skipn l (length l - k)). lra.
Qed.

Lemma offset_all (input out : list Q) :
  length out = length input ->
  offset input out (length input) == sumQ out - sumQ input.
Proof.
  intros Hl. unfold offset. rewrite firstn_all.
  rewrite <- Hl, firstn_all. reflexivity.
Qed.

Lemma offset_rev (input out : list Q) (k : nat) :
  length out = length input ->
  offset (rev input) (rev out) k
  == offset input out (length input) - offset input out (length input - k).
Proof.
  intros Hl. rewrite (offset_all _ _ Hl). unfold offset.
  rewrite !sumQ_firstn_rev, Hl. ring.
Qed.

Lemma nth_rev (l : list Q) (k : nat) :
  (k < length l)%nat -> nth k (rev l) 0 = nth (length l - S k) l 0.
Proof. intros Hk. apply rev_nth. exact Hk. Qed.

Lemma certified_rev (input out : list Q) (lambda : Q) :
  certified input lambda out -> certified (rev input) lambda (rev out).
Proof.
  intros (Hl & Hb & Hj & Hk).
  split; [rewrite !length_rev; exact Hl|]. split; [|split].
  - intros k Hk'. rewrite length_rev in Hk'.
    rewrite (offset_rev _ _ _ Hl), Hk.
    destruct (Hb (length input - k)%nat ltac:(lia)). lra.
  - intros k Hk'. rewrite length_rev in Hk'.
    rewrite (offset_rev _ _ _ Hl), Hk.
    rewrite !nth_rev by lia. rewrite Hl.
    replace (length input - S k)%nat with (S (length input - S (S k)))
      by lia.
    destruct (Hj (length input - S (S k))%nat ltac:(lia)) as [C D].
    split; intros Hlt.
    + rewrite (D Hlt). ring.
    + rewrite (C Hlt). ring.
  - rewrite length_rev, (offset_rev _ _ _ Hl), Hk, Nat.sub_diag, offset_0.
    ring.
Qed.

(** * Consequences of the certificate *)

Lemma Qsquare_nonneg (a : Q) : 0 <= a * a.
Proof.
  destruct (Qlt_le_dec a 0).
  - setoid_replace (a * a) with ((- a) * (- a)) by ring.
    apply Qmult_le_0_compat; lra.
  - apply Qmult_le_0_compat; lra.
Qed.

Lemma sq_dist_four (y : list Q) :
  forall x x' y' : list Q,
    length x = length y -> length x' = length y -> length y' = length y ->
    sq_dist x' y + sq_dist x y' - sq_dist x y - sq_dist x' y'
    <= sq_dist y y' + sq_dist x x'.
Proof.
  induction y as [|b y IH]; intros [|a x] [|a' x'] [|b' y'] H1 H2 H3;
    try discriminate; cbn [sq_dist]; try lra.
  specialize (IH x x' y' ltac:(cbn in H1; lia) ltac:(cbn in H2; lia)
                ltac:(cbn in H3; lia)).
  pose proof (Qsquare_nonneg ((b - b') - (a - a'))) as Hs.
  ring_simplify in Hs. ring_simplify. ring_simplify in IH. lra.
Qed.

(** Two certified outputs are no further apart than their inputs. *)
Lemma certified_nonexpansive (y y' x x' : list Q) (lambda : Q) :
  length y' = length y -> certified y lambda x -> certified y' lambda x' ->
  sq_dist x x' <= sq_dist y y'.
Proof.
  intros Hl Hx Hx'.
  pose proof (certified_length _ _ _ Hx) as L1.
  pose proof (certified_length _ _ _ Hx') as L2.
  pose proof (certified_optimal _ _ x' _ Hx ltac:(congruence)) as H1.
  pose proof (certified_optimal _ _ x _ Hx' ltac:(congruence)) as H2.
  pose proof (sq_dist_four y x x' y' L1 ltac:(congruence) Hl) as H4.
  unfold objective in H1, H2. rewrite (sq_dist_sym x' x) in H1. lra.
Qed.

Lemma total_variation_eqlist (a b : list Q) :
  eqlist a b -> total_variation a == total_variation b.
Proof.
  intros H. induction H as [|p q a b Hpq Hab IH]; [reflexivity|].
  destruct Hab as [|p' q' a b Hpq' Hab]; [reflexivity|].
  rewrite !total_variation_cons, IH, Hpq, Hpq'. reflexivity.
Qed.

(** A larger [lambda] gives an output of smaller total variation, further
    from the input. *)
Lemma certified_lambda_mono (input x1 x2 : list Q) (l1 l2 : Q) :
  0 <= l1 -> l1 <= l2 ->
  certified input l1 x1 -> certified input l2 x2 ->
  total_variation x2 <= total_variation x1 /\
  sq_dist x1 input <= sq_dist x2 input.
Proof.
  intros H0 Hle C1 C2.
  pose proof (certified_length _ _ _ C1) as L1.
  pose proof (certified_length _ _ _ C2) as L2.
  pose proof (certified_optimal _ _ x2 _ C1 L2) as H1.
  pose proof (certified_optimal _ _ x1 _ C2 L1) as H2.
  pose proof (sq_dist_nonneg x2 x1) as N1.
  pose proof (sq_dist_nonneg x1 x2) as N2.
  unfold objective in H1, H2.
  assert (HT : total_variation x2 <= total_variation x1).
  { destruct (Qlt_le_dec l1 l2) as [Hlt|Hge].
    - destruct (Qlt_le_dec (total_variation x1) (total_variation x2))
        as [Hc|]; [|assumption].
      assert (0 < (l2 - l1) * (total_variation x2 - total_variation x1))
        by (apply Qmult_lt_0_compat; lra).
      lra.
    - assert (E : l2 == l1) by lra. rewrite E in H2.
      assert (Hz : sq_dist x2 x1 <= 0) by lra.
      apply sq_dist_zero in Hz; [|congruence].
      rewrite (total_variation_eqlist _ _ Hz). lra. }
  split; [exact HT|].
  assert (0 <= l1 * (total_variation x1 - total_variation x2))
    by (apply Qmult_le_0_compat; lra).
  lra.
Qed.

(** ** Bounds on the samples of the output *)

Lemma Qabs_min_le (c a b : Q) : Qabs (Qmin c b - Qmin c a) <= Qabs (b - a).
Proof.
  apply Qabs_Qle_condition.
  pose proof (Qle_Qabs (b - a)) as E1.
  pose proof (Qle_Qabs (a - b)) as E2.
  rewrite (Qabs_Qminus a b) in E2.
  destruct (Q.min_spec c a) as [[A1 A2]|[A1 A2]];
    destruct (Q.min_spec c b) as [[B1 B2]|[B1 B2]];
    rewrite A2, B2; split; lra.
Qed.

Lemma total_variation_clamp (c : Q) (l : list Q) :
  total_variation (map (Qmin c) l) <= total_variation l.
Proof.
  induction l as [|a l IH]; [cbn; lra|].
  destruct l as [|b l]; [cbn; lra|].
  cbn [map] in *. rewrite !total_variation_cons.
  pose proof (Qabs_min_le c a b). lra.
Qed.

Lemma sq_dist_clamp (c : Q) (x : list Q) :
  forall y, Forall (fun v => v <= c) y ->
    sq_dist (map (Qmin c) x) y <= sq_dist x y.
Proof.
  induction x as [|a x IH]; intros [|b y] Hy; cbn [map sq_dist]; try lra.
  inversion Hy as [|? ? Hb Hy']; subst. specialize (IH y Hy').
  destruct (Q.min_spec c a) as [[A1 A2]|[A1 A2]]; rewrite A2; [|lra].
  assert (0 <= (a - c) * (a + c - 2 * b))
    by (apply Qmult_le_0_compat; lra).
  lra.
Qed.

Lemma eqlist_clamp (c : Q) (l : list Q) :
  eqlist (map (Qmin c) l) l -> Forall (fun v => v <= c) l.
Proof.
  induction l as [|a l IH]; intros H; [constructor|].
  cbn [map] in H. inversion H as [|? ? ? ? Ha Hl]; subst.
  constructor; [|apply IH; exact Hl].
  rewrite <- Ha. apply Q.le_min_l.
Qed.

Lemma certified_upper (input out : list Q) (lambda c : Q) :
  0 <= lambda -> certified input lambda out ->
  Forall (fun v => v <= c) input -> Forall (fun v => v <= c) out.
Proof.
  intros H0 Hc Hin.
  pose proof (certified_length _ _ _ Hc) as Hl.
  pose proof (certified_optimal _ _ (map (Qmin c) out) _ Hc
                ltac:(rewrite length_map; exact Hl)) as H.
  unfold objective in H.
  pose proof (total_variation_clamp c out) as HT.
  pose proof (sq_dist_clamp c out input Hin) as HD.
  assert (0 <= lambda * (total_variation out
                         - total_variation (map (Qmin c) out)))
    by (apply Qmult_le_0_compat; lra).
  apply eqlist_clamp. apply sq_dist_zero; [apply length_map | lra].
Qed.

Lemma certified_opp (input out : list Q) (lambda : Q) :
  certified input lambda out ->
  certified (map Qopp input) lambda (map Qopp out).
Proof.
  intros H.
  apply (certified_lambda_eq _ _ (- - (1) * lambda)); [ring|].
  apply (certified_affine_neg Qopp (- (1)) 0); [intros v; ring | lra | exact H].
Qed.

Lemma certified_lower (input out : list Q) (lambda c : Q) :
  0 <= lambda -> certified input lambda out ->
  Forall (fun v => c <= v) input -> Forall (fun v => c <= v) out.
Proof.
  intros H0 Hc Hin.
  assert (H : Forall (fun v => v <= - c) (map Qopp out)).
  { apply (certified_upper (map Qopp input) _ lambda); auto.
    - apply certified_opp. exact Hc.
    - rewrite Forall_forall in *. intros v Hv.
      apply in_map_iff in Hv. destruct Hv as (w & <- & Hw).
      specialize (Hin w Hw). cbn beta in Hin. lra. }
  rewrite Forall_forall in *. intros v Hv.
  specialize (H (- v) (in_map Qopp _ _ Hv)). cbn beta in H. lra.
Qed.

(** ** What the certificate says of one sample *)

Lemma certified_deviation (input out : list Q) (lambda : Q) (k : nat) :
  certified input lambda out -> (k < length input)%nat ->
  Qabs (nth k out 0 - nth k input 0) <= 2 * lambda.
Proof.
  intros (Hl & Hb & _ & _) Hk.
  destruct (Hb k ltac:(lia)) as [A1 A2].
  destruct (Hb (S k) ltac:(lia)) as [B1 B2].
  rewrite offset_S in B1, B2. apply Qabs_Qle_condition. split; lra.
Qed.

Lemma certified_deviation_first (input out : list Q) (lambda : Q) :
  certified input lambda out -> input <> [] ->
  Qabs (nth 0 out 0 - nth 0 input 0) <= lambda.
Proof.
  intros (Hl & Hb & _ & _) Hne.
  assert (Hn : (1 <= length input)%nat)
    by (destruct input; [contradiction | cbn; lia]).
  destruct (Hb 1%nat Hn) as [B1 B2].
  rewrite offset_S, offset_0 in B1, B2.
  apply Qabs_Qle_condition. split; lra.
Qed.

Lemma certified_deviation_last (input out : list Q) (lambda : Q) :
  certified input lambda out -> input <> [] ->
  Qabs (nth (length input - 1) out 0 - nth (length input - 1) input 0)
  <= lambda.
Proof.
  intros (Hl & Hb & _ & Hk) Hne.
  assert (Hn : (1 <= length input)%nat)
    by (destruct input; [contradiction | cbn; lia]).
  destruct (Hb (length input - 1)%nat ltac:(lia)) as [B1 B2].
  replace (length input) with (S (length input - 1)) in Hk at 1 by lia.
  rewrite offset_S in Hk.
  apply Qabs_Qle_condition. split; lra.
Qed.

(** Where the output steps, the input steps further, in the same
    direction. *)
Lemma certified_step_up (input out : list Q) (lambda : Q) (k : nat) :
  certified input lambda out -> (S k < length input)%nat ->
  nth k out 0 < nth (S k) out 0 ->
  nth k input 0 <= nth k out 0 /\ nth (S k) out 0 <= nth (S k) input 0.
Proof.
  intros (Hl & Hb & Hj & _) Hk Hlt.
  destruct (Hj k Hk) as [C _]. specialize (C Hlt).
  destruct (Hb k ltac:(lia)) as [A1 A2].
  destruct (Hb (S (S k)) ltac:(lia)) as [B1 B2].
  pose proof (offset_S input out k) as E1.
  pose proof (offset_S input out (S k)) as E2. split; lra.
Qed.

Lemma certified_step_down (input out : list Q) (lambda : Q) (k : nat) :
  certified input lambda out -> (S k < length input)%nat ->
  nth (S k) out 0 < nth k out 0 ->
  nth k out 0 <= nth k input 0 /\ nth (S k) input 0 <= nth (S k) out 0.
Proof.
  intros (Hl & Hb & Hj & _) Hk Hlt.
  destruct (Hj k Hk) as [_ D]. specialize (D Hlt).
  destruct (Hb k ltac:(lia)) as [A1 A2].
  destruct (Hb (S (S k)) ltac:(lia)) as [B1 B2].
  pose proof (offset_S input out k) as E1.
  pose proof (offset_S input out (S k)) as E2. split; lra.
Qed.

Lemma certified_step_le (input out : list Q) (lambda : Q) (k : nat) :
  certified input lambda out -> (S k < length input)%nat ->
  Qabs (nth (S k) out 0 - nth k out 0)
  <= Qabs (nth (S k) input 0 - nth k input 0).
Proof.
  intros Hc Hk.
  destruct (Q_dec (nth k out 0) (nth (S k) out 0)) as [[Hlt|Hgt]|Heq].
  - destruct (certified_step_up _ _ _ _ Hc Hk Hlt).
    rewrite !Qabs_pos by lra. lra.
  - destruct (certified_step_down _ _ _ _ Hc Hk Hgt).
    rewrite !Qabs_neg by lra. lra.
  - assert (E : nth (S k) out 0 - nth k out 0 == 0) by lra.
    rewrite E. apply Qabs_nonneg.
Qed.

Lemma certified_nondecreasing (input out : list Q) (lambda : Q) :
  certified input lambda out -> nondecreasing input -> nondecreasing out.
Proof.
  intros Hc Hin k Hk. rewrite (certified_length _ _ _ Hc) in Hk.
  destruct (Qlt_le_dec (nth (S k) out 0) (nth k out 0)) as [Hlt|]; auto.
  destruct (certified_step_down _ _ _ _ Hc Hk Hlt).
  specialize (Hin k Hk). lra.
Qed.

(** ** Outputs that are flat *)

Lemma firstn_repeat_le {A : Type} (a : A) (k n : nat) :
  (k <= n)%nat -> firstn k (repeat a n) = repeat a k.
Proof.
  revert n. induction k as [|k IH]; intros n Hk; [reflexivity|].
  destruct n as [|n]; [lia|]. cbn. rewrite IH by lia. reflexivity.
Qed.

Lemma offset_repeat (input : list Q) (m : Q) (k : nat) :
  (k <= length input)%nat ->
  offset input (repeat m (length input)) k
  == dbl k * m - sumQ (firstn k input).
Proof.
  intros Hk. unfold offset. rewrite firstn_repeat_le by exact Hk.
  rewrite sumQ_repeat. ring.
Qed.

Lemma dbl_pos (n : nat) : (0 < n)%nat -> 0 < dbl n.
Proof.
  intros H. unfold dbl. change 0 with (inject_Z 0).
  rewrite <- Zlt_Qlt. lia.
Qed.

Lemma mean_sum (l : list Q) : l <> [] -> dbl (length l) * mean l == sumQ l.
Proof.
  intros Hne. unfold mean.
  assert (0 < dbl (length l))
    by (apply dbl_pos; destruct l; [contradiction | cbn; lia]).
  field. lra.
Qed.

Lemma certified_flat (input : list Q) (lambda : Q) :
  input <> [] ->
  (forall k, (k <= length input)%nat ->
     Qabs (dbl k * mean input - sumQ (firstn k input)) <= lambda) ->
  certified input lambda (repeat (mean input) (length input)).
Proof.
  intros Hne H. split; [apply repeat_length|]. split; [|split].
  - intros k Hk. rewrite (offset_repeat _ _ _ Hk).
    apply Qabs_Qle_condition. apply H. exact Hk.
  - intros k Hk. rewrite !(nth_repeat_lt _ 0) by lia.
    split; intros Hlt; exfalso; lra.
  - rewrite offset_repeat by lia. rewrite mean_sum by exact Hne.
    rewrite firstn_all. ring.
Qed.

Lemma sumQ_const (m : Q) (l : list Q) :
  Forall (Qeq m) l -> sumQ l == dbl (length l) * m.
Proof.
  induction l as [|a l IH]; intros H; [cbn; rewrite dbl_0; ring|].
  inversion H as [|? ? Ha Hl]; subst. cbn [sumQ length].
  rewrite (IH Hl), dbl_S, <- Ha. ring.
Qed.

Lemma flat_certified (input out : list Q) (lambda : Q) (k : nat) :
  input <> [] -> certified input lambda out ->
  Forall (Qeq (mean input)) out -> (k <= length input)%nat ->
  Qabs (dbl k * mean input - sumQ (firstn k input)) <= lambda.
Proof.
  intros Hne (Hl & Hb & _ & _) Hf Hk.
  destruct (Hb k Hk) as [A B]. unfold offset in A, B.
  assert (Hfk : Forall (Qeq (mean input)) (firstn k out)).
  { rewrite Forall_forall in *. intros v Hv. apply Hf.
    rewrite <- (firstn_skipn k out). apply in_or_app. left. exact Hv. }
  rewrite (sumQ_const _ _ Hfk), length_firstn in A, B.
  rewrite Nat.min_l in A, B by lia.
  apply Qabs_Qle_condition. split; lra.
Qed.

(** * The routine on a buffer and a width *)

Lemma TV1D_width_0 (buf : list Q) (lambda : Q) :
  TV1D_denoise buf 0 lambda
  = if Qeq_bool lambda 0 then Ok [] else Err OutOfBounds.
Proof.
  unfold TV1D_denoise. destruct (Qeq_bool lambda 0); [reflexivity|].
  destruct buf; reflexivity.
Qed.

Lemma TV1D_width_1 (v : Q) (rest : list Q) (lambda : Q) :
  TV1D_denoise (v :: rest) 1 lambda = Ok [v].
Proof. unfold TV1D_denoise. destruct (Qeq_bool lambda 0); reflexivity. Qed.

Lemma copy_prefix (input rest : list Q) :
  fits (length input) ->
  forall (post pre : list Q) (fuel : nat),
    input = pre ++ post -> (length post <= fuel)%nat ->
    copy fuel (input ++ rest) (map Some pre ++ repeat None (length post))
      (length pre) (length input)
    = Ok (map Some input).
Proof.
  intros HW post. induction post as [|x post IH]; intros pre fuel E Hfu.
  - rewrite app_nil_r in E. subst pre. cbn [length repeat].
    rewrite app_nil_r.
    destruct fuel; cbn [copy]; rewrite Nat.ltb_irrefl; reflexivity.
  - destruct fuel as [|fuel]; [cbn in Hfu; lia|].
    cbn [copy].
    assert (Hl : length input = (length pre + S (length post))%nat).
    { rewrite E, length_app. reflexivity. }
    replace (length pre <? length input)%nat with true
      by (symmetry; apply Nat.ltb_lt; lia).
    assert (Hx : nth_error (input ++ rest) (length pre) = Some x).
    { rewrite nth_error_app1 by lia.
      rewrite E, nth_error_app2 by lia. rewrite Nat.sub_diag. reflexivity. }
    rewrite (rd_in_ok _ _ _ Hx). cbn [bind].
    rewrite wr_ok
      by (rewrite length_app, length_map, repeat_length; cbn; lia).
    cbn [bind length repeat].
    replace (length pre) with (length (map (@Some Q) pre)) at 1
      by apply length_map.
    rewrite put_app_length.
    rewrite uadd_small by idx.
    specialize (IH (pre ++ [x]) fuel).
    rewrite length_app, map_app in IH. rewrite <- !app_assoc in IH.
    cbn in IH. apply IH.
    + exact E.
    + cbn in Hfu. lia.
Qed.

Lemma TV1D_prefix_general (x0 : Q) (xs : list Q) (xl lambda : Q)
    (rest : list Q) :
  fits (length (x0 :: xs ++ [xl])) -> Qeq_bool lambda 0 = false ->
  TV1D_denoise ((x0 :: xs ++ [xl]) ++ rest) (length (x0 :: xs ++ [xl])) lambda
  = Ok (denoise_a x0 xs xl lambda).
Proof.
  intros HW H0. unfold TV1D_denoise. rewrite H0.
  set (input := x0 :: xs ++ [xl]) in *.
  set (W := length input) in *.
  assert (HWl : W = (length xs + 2)%nat).
  { unfold W, input. cbn. rewrite length_app. cbn. lia. }
  assert (E0 : rd_in (input ++ rest) 0 = Ok x0) by reflexivity.
  rewrite E0. cbn [bind].
  replace (W =? 1)%nat with false by (symmetry; apply Nat.eqb_neq; lia).
  rewrite !wr_ok by (rewrite repeat_length; lia). cbn [bind].
  rewrite usub_small by idx.
  destruct (main_loop_sim W (input ++ rest) (2 * lambda) HW xs 1
              (mkState (repeat None W)
                 (mkEnv (put (repeat None W) 0 (Some 0%nat)) 0
                    (x0 - lambda) (x0 - lambda))
                 (mkEnv (put (repeat None W) 0 (Some 0%nat)) 0
                    (x0 + lambda) (x0 + lambda)) 0 0)
              (init_a x0 lambda) W (W - 1)%nat)
    as (s' & E1 & R1); try lia.
  - intros k x Hk. unfold input. change (1 + k)%nat with (S k).
    cbn [app nth_error].
    assert (k < length xs)%nat by (apply nth_error_Some; congruence).
    rewrite nth_error_app1 by (rewrite length_app; cbn; lia).
    rewrite nth_error_app1 by lia. exact Hk.
  - apply Rep_init. lia.
  - rewrite E1. cbn [bind].
    assert (Hxl : nth_error (input ++ rest) (W - 1) = Some xl).
    { rewrite nth_error_app1 by (fold W; lia).
      unfold input. replace (W - 1)%nat with (S (length xs)) by lia.
      cbn [nth_error]. rewrite nth_error_app2 by lia.
      rewrite Nat.sub_diag. reflexivity. }
    destruct (finish_sim W (W - 1) (input ++ rest) xl lambda s' _ HW
                ltac:(lia) Hxl R1) as (out & E2 & El & E3).
    rewrite E2. cbn [bind]. rewrite E3.
    unfold denoise_a. replace (W - 1)%nat with (S (length xs)) in * by lia.
    replace (1 + length xs)%nat with (S (length xs)) in * by lia.
    reflexivity.
Qed.

(** The routine reads its buffer below [width] only. *)
Lemma TV1D_prefix (input rest : list Q) (lambda : Q) :
  fits (length input) ->
  TV1D_denoise (input ++ rest) (length input) lambda = denoise input lambda.
Proof.
  intros HW. destruct (Qeq_bool lambda 0) eqn:E0.
  - rewrite (denoise_zero _ _ HW E0). unfold TV1D_denoise. rewrite E0.
    pose proof (copy_prefix input rest HW input [] (length input) eq_refl
                  (Nat.le_refl _)) as H.
    cbn in H. rewrite H. cbn [bind]. apply collect_map_Some.
  - destruct (list_shape input) as [->|[[v ->]|(x0 & xs & xl & ->)]].
    + cbn [length app]. rewrite TV1D_width_0, denoise_nil. reflexivity.
    + cbn [length app]. rewrite TV1D_width_1, denoise_one. reflexivity.
    + rewrite TV1D_prefix_general by assumption.
      symmetry. apply denoise_general; assumption.
Qed.

(** ** A buffer shorter than [width] *)

Lemma rd_in_out (buf : list Q) (k : nat) :
  (length buf <= k)%nat -> rd_in buf k = Err OutOfBounds.
Proof.
  intros H. unfold rd_in. apply nth_error_None in H. rewrite H. reflexivity.
Qed.

Lemma rd_in_in (buf : list Q) (k : nat) :
  (k < length buf)%nat -> exists v, nth_error buf k = Some v.
Proof.
  intros H. destruct (nth_error buf k) as [v|] eqn:E; [exists v; reflexivity|].
  apply nth_error_None in E. lia.
Qed.

Lemma copy_short (buf : list Q) (width : nat) :
  fits width -> (length buf < width)%nat ->
  forall (n i : nat) (out : list (option Q)) (fuel : nat),
    length buf = (i + n)%nat -> length out = width -> (n < fuel)%nat ->
    copy fuel buf out i width = Err OutOfBounds.
Proof.
  intros HW Hs n. induction n as [|n IH]; intros i out fuel Hb Ho Hfu;
    (destruct fuel as [|fuel]; [lia|]); cbn [copy];
    replace (i <? width)%nat with true by (symmetry; apply Nat.ltb_lt; lia).
  - rewrite rd_in_out by lia. reflexivity.
  - destruct (rd_in_in buf i ltac:(lia)) as [x Hx].
    rewrite (rd_in_ok _ _ _ Hx). cbn [bind].
    rewrite wr_ok by lia. cbn [bind]. rewrite uadd_small by idx.
    apply IH; [lia | rewrite length_put; exact Ho | lia].
Qed.

Lemma main_loop_short (W : nat) (input : list Q) (twolambda : Q) :
  fits W ->
  forall (xs : list Q) (i : nat) (s : state) (a : astate)
         (fuel width' : nat),
    (forall k x, nth_error xs k = Some x -> nth_error input (i + k) = Some x) ->
    length input = (i + length xs)%nat ->
    (i + length xs < width')%nat -> (width' < W)%nat ->
    Rep W i i s a -> (length xs < fuel)%nat ->
    main_loop fuel input W i width' twolambda s = Err OutOfBounds.
Proof.
  intros HW xs.
  induction xs as [|x xs IH]; intros i s a fuel w' Hin Hl Hw HwW HR Hfu;
    (destruct fuel as [|fuel]; [cbn in Hfu; lia|]); cbn [main_loop];
    cbn [length] in *;
    replace (i <? w')%nat with true by (symmetry; apply Nat.ltb_lt; lia).
  - unfold step. rewrite rd_in_out by lia. reflexivity.
  - assert (Hx : nth_error input i = Some x).
    { specialize (Hin 0%nat x eq_refl). rewrite Nat.add_0_r in Hin. exact Hin. }
    destruct (step_sim W i input x twolambda s a HW ltac:(lia) Hx HR)
      as (s1 & E1 & R1).
    rewrite E1. cbn [bind]. rewrite uadd_small by idx.
    replace (i + 1)%nat with (S i) by lia.
    apply (IH (S i) s1 (step_a i x twolambda a)); auto; try lia.
    intros k y Hk. replace (S i + k)%nat with (i + S k)%nat by lia.
    apply Hin. exact Hk.
Qed.

(** With fewer than [width] samples in the buffer, the routine reads past
    its end. *)
Lemma TV1D_short (buf : list Q) (width : nat) (lambda : Q) :
  fits width -> (length buf < width)%nat ->
  TV1D_denoise buf width lambda = Err OutOfBounds.
Proof.
  intros HW Hs. unfold TV1D_denoise. destruct (Qeq_bool lambda 0).
  - rewrite (copy_short buf width HW Hs (length buf) 0); auto.
    apply repeat_length.
  - destruct buf as [|x0 tl]; [reflexivity|]. cbn [length] in Hs.
    assert (E0 : rd_in (x0 :: tl) 0 = Ok x0) by reflexivity.
    rewrite E0. cbn [bind].
    replace (width =? 1)%nat with false by (symmetry; apply Nat.eqb_neq; lia).
    rewrite !wr_ok by (rewrite repeat_length; lia). cbn [bind].
    rewrite usub_small by idx.
    assert (Hin : forall k x, nth_error tl k = Some x ->
                    nth_error (x0 :: tl) (1 + k) = Some x)
      by (intros k x Hk; exact Hk).
    assert (HR := Rep_init width x0 lambda ltac:(lia)).
    destruct (Nat.eq_dec (1 + length tl) (width - 1)) as [E|E].
    + destruct (main_loop_sim width (x0 :: tl) (2 * lambda) HW tl 1 _ _
                  width (width - 1)%nat Hin ltac:(lia) ltac:(lia) HR
                  ltac:(lia)) as (s' & E1 & _).
      rewrite E1. cbn [bind]. unfold finish.
      rewrite rd_in_out by (cbn [length]; lia). reflexivity.
    + rewrite (main_loop_short width (x0 :: tl) (2 * lambda) HW tl 1 _ _
                 width (width - 1)%nat Hin ltac:(cbn [length]; lia)
                 ltac:(lia) ltac:(lia) HR ltac:(lia)).
      reflexivity.
Qed.

(** The errors of the routine. *)
Lemma TV1D_errors (buf : list Q) (width : nat) (lambda : Q) (e : error) :
  fits width -> TV1D_denoise buf width lambda = Err e ->
  e = OutOfBounds /\
  ((length buf < width)%nat \/ (width = 0%nat /\ Qeq_bool lambda 0 = false)).
Proof.
  intros HW H.
  destruct (Nat.lt_ge_cases (length buf) width) as [Hs|Hge].
  - rewrite (TV1D_short _ _ _ HW Hs) in H. injection H as <-. auto.
  - assert (El : length (firstn width buf) = width)
      by (rewrite length_firstn; lia).
    rewrite <- (firstn_skipn width buf) in H.
    remember (firstn width buf) as p eqn:Ep.
    remember (skipn width buf) as r eqn:Er.
    rewrite <- El in H, HW. rewrite (TV1D_prefix _ _ _ HW) in H.
    destruct (denoise_cases p lambda HW)
      as [[_ E]|[(E0 & En & E)|[(_ & _ & E)|(_ & x0 & xs & xl & _ & E & _)]]];
      rewrite E in H; try discriminate.
    injection H as <-. split; [reflexivity|]. right.
    rewrite En in El. cbn in El. auto.
Qed.

(** * Further consequences of the certificate *)

(** The distance between output and input is paid for by the total
    variation that is removed. *)
Lemma certified_gap (input out : list Q) (lambda : Q) :
  certified input lambda out ->
  sq_dist out input
  <= lambda * (total_variation input - total_variation out).
Proof.
  intros Hc.
  pose proof (certified_optimal _ _ input _ Hc eq_refl) as H.
  unfold objective in H. rewrite sq_dist_refl, (sq_dist_sym input out) in H.
  ring_simplify in H. ring_simplify. lra.
Qed.

Lemma sumQ_firstn_eqlist (a b : list Q) :
  eqlist a b -> forall k, sumQ (firstn k a) == sumQ (firstn k b).
Proof.
  intros H. induction H as [|p q a b Hpq Hab IH]; intros k.
  - reflexivity.
  - destruct k as [|k]; [reflexivity|]. cbn [firstn sumQ].
    rewrite Hpq, (IH k). reflexivity.
Qed.

Lemma nth_eqlist (a b : list Q) :
  eqlist a b -> forall k, nth k a 0 == nth k b 0.
Proof.
  intros H. induction H as [|p q a b Hpq Hab IH]; intros k.
  - reflexivity.
  - destruct k as [|k]; [exact Hpq | apply IH].
Qed.

Lemma total_variation_steps (l : list Q) :
  (forall k, (S k < length l)%nat -> nth k l 0 == nth (S k) l 0) ->
  total_variation l == 0.
Proof.
  induction l as [|a l IH]; intros H; [reflexivity|].
  destruct l as [|b l]; [reflexivity|].
  rewrite total_variation_cons, IH.
  - pose proof (H 0%nat ltac:(cbn; lia)) as E. cbn in E.
    assert (E' : b - a == 0) by lra. rewrite E'. reflexivity.
  - intros k Hk. apply (H (S k)). cbn in *. lia.
Qed.

(** With [lambda > 0], an output that equals its input has no steps. *)
Lemma certified_fixed (input out : list Q) (lambda : Q) :
  0 < lambda -> certified input lambda out -> eqlist out input ->
  total_variation input == 0.
Proof.
  intros Hpos (Hl & Hb & Hj & _) He.
  rewrite <- (total_variation_eqlist _ _ He).
  apply total_variation_steps. intros k Hk. rewrite Hl in Hk.
  assert (E : offset input out (S k) == 0).
  { unfold offset. rewrite (sumQ_firstn_eqlist _ _ He). ring. }
  destruct (Hj k Hk) as [C D].
  destruct (Q_dec (nth k out 0) (nth (S k) out 0)) as [[Hlt|Hgt]|Heq].
  - specialize (C Hlt). lra.
  - specialize (D Hgt). lra.
  - exact Heq.
Qed.

(** ** Inputs of two samples *)

Lemma certified_pair_flat (a b lambda : Q) :
  Qabs (b - a) <= 2 * lambda ->
  certified [a; b] lambda [(a + b) / 2; (a + b) / 2].
Proof.
  intros H. apply Qabs_Qle_condition in H. destruct H as [H1 H2].
  assert (E : (a + b) / 2 == (1 # 2) * (a + b)) by (field; lra).
  split; [reflexivity|]. split; [|split].
  - intros k Hk. cbn [length] in Hk.
    destruct k as [|[|[|k]]]; try lia; unfold offset; cbn; rewrite ?E;
      split; lra.
  - intros k Hk. cbn [length] in Hk. assert (k = 0)%nat by lia. subst k.
    cbn. split; intros Hlt; exfalso; lra.
  - unfold offset. cbn. rewrite E. lra.
Qed.

Lemma certified_pair_up (a b lambda : Q) :
  0 <= lambda -> 2 * lambda < b - a ->
  certified [a; b] lambda [a + lambda; b - lambda].
Proof.
  intros H0 H. split; [reflexivity|]. split; [|split].
  - intros k Hk. cbn [length] in Hk.
    destruct k as [|[|[|k]]]; try lia; unfold offset; cbn; split; lra.
  - intros k Hk. cbn [length] in Hk. assert (k = 0)%nat by lia. subst k.
    unfold offset. cbn. split; intros Hlt; [lra | exfalso; lra].
  - unfold offset. cbn. lra.
Qed.

Lemma certified_pair_down (a b lambda : Q) :
  0 <= lambda -> 2 * lambda < a - b ->
  certified [a; b] lambda [a - lambda; b + lambda].
Proof.
  intros H0 H. split; [reflexivity|]. split; [|split].
  - intros k Hk. cbn [length] in Hk.
    destruct k as [|[|[|k]]]; try lia; unfold offset; cbn; split; lra.
  - intros k Hk. cbn [length] in Hk. assert (k = 0)%nat by lia. subst k.
    unfold offset. cbn. split; intros Hlt; [exfalso; lra | lra].
  - unfold offset. cbn. lra.
Qed.

Lemma certified_const (c lambda : Q) (n : nat) :
  0 <= lambda -> certified (repeat c n) lambda (repeat c n).
Proof.
  intros H0. split; [reflexivity|]. split; [|split].
  - intros k _. rewrite offset_refl. lra.
  - intros k Hk. rewrite repeat_length in Hk.
    rewrite !(nth_repeat_lt _ 0) by lia.
    split; intros Hlt; exfalso; lra.
  - apply offset_refl.
Qed.

(** * The run of the routine on an input that is not empty *)

Lemma denoise_run (input : list Q) (lambda : Q) :
  fits (length input) -> input <> [] -> 0 <= lambda ->
  exists out, denoise input lambda = Ok out /\ certified input lambda out.
Proof.
  intros HW Hne H0.
  destruct (denoise_total input lambda HW Hne) as (out & E & _).
  exists out. split; [exact E|].
  eapply denoise_out_certified; eauto.
Qed.

Lemma eqlist_sym (a b : list Q) : eqlist a b -> eqlist b a.
Proof.
  intros H. induction H; constructor; auto. symmetry. assumption.
Qed.

Lemma eqlist_repeat (m : Q) (l : list Q) :
  eqlist l (repeat m (length l)) -> Forall (Qeq m) l.
Proof.
  induction l as [|a l IH]; intros H; [constructor|].
  cbn in H. inversion H as [|? ? ? ? Ha Hl]; subst.
  constructor; [symmetry; exact Ha | apply IH; exact Hl].
Qed.

Lemma map_not_nil {A B : Type} (f : A -> B) (l : list A) :
  l <> [] -> map f l <> [].
Proof. destruct l; [contradiction | discriminate]. Qed.

Lemma rev_not_nil {A : Type} (l : list A) : l <> [] -> rev l <> [].
Proof.
  intros H E. apply H. rewrite <- (rev_involutive l), E. reflexivity.
Qed.

(** * Two runs in a row *)

Lemma offset_compose (y x1 x2 : list Q) (k : nat) :
  offset y x2 k == offset y x1 k + offset x1 x2 k.
Proof. unfold offset. ring. Qed.

(** A certified output of a certified output is a certified output, for
    the sum of the two values of [lambda]. *)
Lemma certified_compose (y x1 x2 : list Q) (l1 l2 : Q) :
  certified y l1 x1 -> certified x1 l2 x2 -> certified y (l1 + l2) x2.
Proof.
  intros C1 C2.
  pose proof C1 as (L1 & B1 & J1 & K1). pose proof C2 as (L2 & B2 & J2 & K2).
  split; [congruence|]. split; [|split].
  - intros k Hk. rewrite (offset_compose y x1 x2).
    destruct (B1 k Hk). destruct (B2 k ltac:(lia)). split; lra.
  - intros k Hk. rewrite (offset_compose y x1 x2).
    destruct (J1 k Hk) as [U1 D1].
    destruct (J2 k ltac:(lia)) as [U2 D2].
    split; intros Hlt.
    + destruct (certified_step_up x1 x2 l2 k C2 ltac:(lia) Hlt) as [A B].
      assert (Hlt1 : nth k x1 0 < nth (S k) x1 0) by lra.
      rewrite (U2 Hlt), (U1 Hlt1). reflexivity.
    + destruct (certified_step_down x1 x2 l2 k C2 ltac:(lia) Hlt) as [A B].
      assert (Hlt1 : nth (S k) x1 0 < nth k x1 0) by lra.
      rewrite (D2 Hlt), (D1 Hlt1). ring.
  - rewrite (offset_compose y x1 x2), K1. rewrite <- L1, K2. ring.
Qed.

(** With a larger [lambda] every step of the output is smaller. *)
Lemma certified_steps_shrink (input x1 x2 : list Q) (l1 l2 : Q) (k : nat) :
  fits (length input) -> input <> [] -> l1 <= l2 ->
  certified input l1 x1 -> certified input l2 x2 ->
  (S k < length input)%nat ->
  Qabs (nth (S k) x2 0 - nth k x2 0) <= Qabs (nth (S k) x1 0 - nth k x1 0).
Proof.
  intros HW Hne Hle C1 C2 Hk.
  pose proof (certified_length _ _ _ C1) as L1.
  assert (Hne1 : x1 <> [])
    by (intros ->; destruct input; [contradiction | discriminate]).
  destruct (denoise_run x1 (l2 - l1) ltac:(rewrite L1; exact HW) Hne1
              ltac:(lra)) as (x12 & _ & C12).
  pose proof (certified_compose _ _ _ _ _ C1 C12) as C.
  apply (certified_lambda_eq _ _ _ l2) in C; [|ring].
  pose proof (certified_unique _ _ _ _ C C2) as He.
  pose proof (certified_step_le x1 x12 (l2 - l1) k C12 ltac:(lia)) as H.
  rewrite !(nth_eqlist _ _ He) in H. exact H.
Qed.

(** * Two samples and a negative [lambda] *)

Lemma denoise_pair_negative (a b lambda : Q) :
  lambda < 0 ->
  denoise [a; b] lambda
  = Ok (if Qle_bool (b + lambda) (a - lambda)
        then [a - lambda; b + lambda]
        else [a + lambda; b - lambda]).
Proof.
  intros Hneg.
  assert (E0 : Qeq_bool lambda 0 = false).
  { destruct (Qeq_bool lambda 0) eqn:E; [|reflexivity].
    apply Qeq_bool_iff in E. lra. }
  destruct (denoise_general a [] b lambda ltac:(vm_compute; reflexivity) E0)
    as [E _].
  cbn [app] in E. rewrite E. unfold denoise_a, finish_a.
  cbn [main_a init_a length alow aup acurr].
  destruct (Qle_bool (b + lambda) (a - lambda)) eqn:E1; [reflexivity|].
  assert (E2 : Qle_bool (a + lambda) (b - lambda) = true).
  { apply Qle_bool_iff.
    destruct (Qlt_le_dec (a - lambda) (b + lambda)) as [H|H]; [lra|].
    apply Qle_bool_iff in H. congruence. }
  rewrite E2. reflexivity.
Qed.

(** * The copy loop, over every arithmetic *)

Lemma collect_map_Some_gen (A : Gen.arith) (l : list (Gen.sample A)) :
  Gen.collect A (map Some l) = Ok l.
Proof.
  induction l as [|x l IH]; cbn; [reflexivity|]. rewrite IH. reflexivity.
Qed.

Lemma copy_ok_gen (A : Gen.arith) (input : list (Gen.sample A)) :
  fits (length input) ->
  forall (post pre : list (Gen.sample A)) (fuel : nat),
    input = pre ++ post -> (length post <= fuel)%nat ->
    Gen.copy A fuel input (map Some pre ++ repeat None (length post))
      (length pre) (length input)
    = Ok (map Some input).
Proof.
  intros HW post. induction post as [|x post IH]; intros pre fuel E Hfu.
  - rewrite app_nil_r in E. subst pre. cbn [length repeat].
    rewrite app_nil_r.
    destruct fuel; cbn [Gen.copy]; rewrite Nat.ltb_irrefl; reflexivity.
  - destruct fuel as [|fuel]; [cbn in Hfu; lia|].
    cbn [Gen.copy].
    assert (Hl : length input = (length pre + S (length post))%nat).
    { rewrite E, length_app. reflexivity. }
    replace (length pre <? length input)%nat with true
      by (symmetry; apply Nat.ltb_lt; lia).
    assert (Hx : nth_error input (length pre) = Some x).
    { rewrite E, nth_error_app2 by lia. rewrite Nat.sub_diag. reflexivity. }
    unfold Gen.rd_in. rewrite Hx. cbn [bind].
    rewrite wr_ok
      by (rewrite length_app, length_map, repeat_length; cbn; lia).
    cbn [bind length repeat].
    replace (length pre) with (length (map (@Some (Gen.sample A)) pre)) at 1
      by apply length_map.
    rewrite put_app_length.
    rewrite uadd_small by idx.
    specialize (IH (pre ++ [x]) fuel).
    rewrite length_app, map_app in IH. rewrite <- !app_assoc in IH.
    cbn in IH. apply IH.
    + exact E.
    + cbn in Hfu. lia.
Qed.

(** With [lambda == 0] the routine copies its input, whatever the
    arithmetic and whatever the cells hold. *)
Lemma denoise_zero_gen (A : Gen.arith) (input : list (Gen.sample A))
    (lambda : Gen.real A) :
  fits (length input) -> Gen.is_zero A lambda = true ->
  Gen.denoise A input lambda = Ok input.
Proof.
  intros HW H0. unfold Gen.denoise, Gen.TV1D_denoise. rewrite H0.
  pose proof (copy_ok_gen A input HW input [] (length input) eq_refl
                (Nat.le_refl _)) as H.
  cbn in H. rewrite H. cbn [bind]. apply collect_map_Some_gen.
Qed.

(** * Further properties of the routine

    X1 to X17 and X21 to X25 are properties of the result over exact real
    arithmetic: they are stated of [denoise], the routine with its
    arithmetic read without rounding.  The program computes in [double]
    and stores into [float], and rounding can break each of them there.
    X18 to X20 are about indices and bounds and do not depend on the
    values; X26 is about the program in its own arithmetic. *)

(** X1, over exact real arithmetic: for every input that is not empty and
    every [lambda >= 0], the output is the only minimiser of the objective:
    a sequence of the same length that costs no more than the output equals
    it, sample by sample. *)
Theorem X1_unique_minimizer (input : list Q) (lambda : Q) :
  fits (length input) -> input <> [] -> 0 <= lambda ->
  exists out,
    denoise input lambda = Ok out /\
    forall z, length z = length input ->
      objective input lambda z <= objective input lambda out ->
      eqlist z out.
Proof.
  intros HW Hne H0.
  destruct (denoise_run input lambda HW Hne H0) as (out & E & Hc).
  exists out. split; [exact E|]. intros z Hz Hle.
  pose proof (certified_optimal _ _ z _ Hc Hz) as H.
  apply sq_dist_zero.
  - rewrite Hz. symmetry. apply (certified_length _ _ _ Hc).
  - lra.
Qed.

Lemma X1_unique_minimizer_witness :
  fits (length [0; 4; 1]) /\ [0; 4; 1] <> [] /\ 0 <= 1 /\
  exists out,
    denoise [0; 4; 1] 1 = Ok out /\
    forall z, length z = length [0; 4; 1] ->
      objective [0; 4; 1] 1 z <= objective [0; 4; 1] 1 out ->
      eqlist z out.
Proof.
  assert (H1 : fits (length [0; 4; 1])) by (vm_compute; reflexivity).
  assert (H2 : [0; 4; 1] <> []) by discriminate.
  assert (H3 : 0 <= 1) by (unfold Qle; simpl; lia).
  split; [exact H1|]. split; [exact H2|]. split; [exact H3|].
  exact (X1_unique_minimizer [0; 4; 1] 1 H1 H2 H3).
Defined.

(** X2, over exact real arithmetic: for every input that is not empty and
    every [lambda >= 0], the running sum of the output stays within [lambda]
    of the running sum of the input; where the output steps up the
    difference of the running sums is [lambda], and where it steps down it
    is [- lambda]. *)
Theorem X2_tube (input : list Q) (lambda : Q) :
  fits (length input) -> input <> [] -> 0 <= lambda ->
  exists out,
    denoise input lambda = Ok out /\
    (forall k, (k <= length input)%nat ->
       Qabs (offset input out k) <= lambda) /\
    (forall k, (S k < length input)%nat ->
       (nth k out 0 < nth (S k) out 0 ->
        offset input out (S k) == lambda) /\
       (nth (S k) out 0 < nth k out 0 ->
        offset input out (S k) == - lambda)).
Proof.
  intros HW Hne H0.
  destruct (denoise_run input lambda HW Hne H0)
    as (out & E & Hl & Hb & Hj & Hk).
  exists out. split; [exact E|]. split; [|exact Hj].
  intros k Hk'. apply Qabs_Qle_condition. apply Hb. exact Hk'.
Qed.

Lemma X2_tube_witness :
  fits (length [0; 4; 1]) /\ [0; 4; 1] <> [] /\ 0 <= 1 /\
  exists out,
    denoise [0; 4; 1] 1 = Ok out /\
    (forall k, (k <= length [0; 4; 1])%nat ->
       Qabs (offset [0; 4; 1] out k) <= 1) /\
    (forall k, (S k < length [0; 4; 1])%nat ->
       (nth k out 0 < nth (S k) out 0 ->
        offset [0; 4; 1] out (S k) == 1) /\
       (nth (S k) out 0 < nth k out 0 ->
        offset [0; 4; 1] out (S k) == - (1))).
Proof.
  assert (H1 : fits (length [0; 4; 1])) by (vm_compute; reflexivity).
  assert (H2 : [0; 4; 1] <> []) by discriminate.
  assert (H3 : 0 <= 1) by (unfold Qle; simpl; lia).
  split; [exact H1|]. split; [exact H2|]. split; [exact H3|].
  exact (X2_tube [0; 4; 1] 1 H1 H2 H3).
Defined.

(** X3, over exact real arithmetic: for every input that is not empty and
    every [lambda >= 0], a sequence that meets the conditions of the
    certificate (offsets within [lambda], equal to [lambda] at the steps up
    and to [- lambda] at the steps down, last offset [0]) is the output of
    the routine. *)
Theorem X3_certificate_complete (input x : list Q) (lambda : Q) :
  fits (length input) -> input <> [] -> 0 <= lambda ->
  certified input lambda x ->
  exists out, denoise input lambda = Ok out /\ eqlist out x.
Proof.
  intros HW Hne H0 Hx. apply denoise_char; assumption.
Qed.

Lemma X3_certificate_complete_witness :
  fits (length [0; 4]) /\ [0; 4] <> [] /\ 0 <= 1 /\
  certified [0; 4] 1 [0 + 1; 4 - 1] /\
  exists out, denoise [0; 4] 1 = Ok out /\ eqlist out [0 + 1; 4 - 1].
Proof.
  assert (H1 : fits (length [0; 4])) by (vm_compute; reflexivity).
  assert (H2 : [0; 4] <> []) by discriminate.
  assert (H3 : 0 <= 1) by (unfold Qle; simpl; lia).
  assert (H4 : certified [0; 4] 1 [0 + 1; 4 - 1])
    by (apply certified_pair_up; [exact H3 | reflexivity]).
  split; [exact H1|]. split; [exact H2|]. split; [exact H3|].
  split; [exact H4|].
  exact (X3_certificate_complete [0; 4] [0 + 1; 4 - 1] 1 H1 H2 H3 H4).
Defined.

(** X4, over exact real arithmetic: adding a constant [c] to every sample of
    the input adds [c] to every sample of the output. *)
Theorem X4_shift (input : list Q) (lambda c : Q) :
  fits (length input) -> input <> [] -> 0 <= lambda ->
  exists out out',
    denoise input lambda = Ok out /\
    denoise (map (fun v => v + c) input) lambda = Ok out' /\
    eqlist out' (map (fun v => v + c) out).
Proof.
  intros HW Hne H0.
  destruct (denoise_run input lambda HW Hne H0) as (out & E & Hc).
  assert (Hc' : certified (map (fun v => v + c) input) lambda
                  (map (fun v => v + c) out)).
  { apply (certified_lambda_eq _ _ (1 * lambda)); [ring|].
    apply (certified_affine_pos (fun v => v + c) 1 c);
      [intros v; ring | reflexivity | exact Hc]. }
  destruct (denoise_char _ lambda _
              ltac:(rewrite length_map; exact HW) H0
              (map_not_nil _ _ Hne) Hc') as (out' & E' & He).
  exists out, out'. auto.
Qed.

Lemma X4_shift_witness :
  fits (length [0; 4; 1]) /\ [0; 4; 1] <> [] /\ 0 <= 1 /\
  exists out out',
    denoise [0; 4; 1] 1 = Ok out /\
    denoise (map (fun v => v + 10) [0; 4; 1]) 1 = Ok out' /\
    eqlist out' (map (fun v => v + 10) out).
Proof.
  assert (H1 : fits (length [0; 4; 1])) by (vm_compute; reflexivity).
  assert (H2 : [0; 4; 1] <> []) by discriminate.
  assert (H3 : 0 <= 1) by (unfold Qle; simpl; lia).
  split; [exact H1|]. split; [exact H2|]. split; [exact H3|].
  exact (X4_shift [0; 4; 1] 1 10 H1 H2 H3).
Defined.

(** X5, over exact real arithmetic: the routine treats up and down alike: on
    the input with every sample negated, the output is the negated output.
    *)
Theorem X5_negation (input : list Q) (lambda : Q) :
  fits (length input) -> input <> [] -> 0 <= lambda ->
  exists out out',
    denoise input lambda = Ok out /\
    denoise (map Qopp input) lambda = Ok out' /\
    eqlist out' (map Qopp out).
Proof.
  intros HW Hne H0.
  destruct (denoise_run input lambda HW Hne H0) as (out & E & Hc).
  destruct (denoise_char _ lambda _
              ltac:(rewrite length_map; exact HW) H0
              (map_not_nil _ _ Hne) (certified_opp _ _ _ Hc))
    as (out' & E' & He).
  exists out, out'. auto.
Qed.

Lemma X5_negation_witness :
  fits (length [0; 4; 1]) /\ [0; 4; 1] <> [] /\ 0 <= 1 /\
  exists out out',
    denoise [0; 4; 1] 1 = Ok out /\
    denoise (map Qopp [0; 4; 1]) 1 = Ok out' /\
    eqlist out' (map Qopp out).
Proof.
  assert (H1 : fits (length [0; 4; 1])) by (vm_compute; reflexivity).
  assert (H2 : [0; 4; 1] <> []) by discriminate.
  assert (H3 : 0 <= 1) by (unfold Qle; simpl; lia).
  split; [exact H1|]. split; [exact H2|]. split; [exact H3|].
  exact (X5_negation [0; 4; 1] 1 H1 H2 H3).
Defined.

(** X6, over exact real arithmetic: multiplying every sample of the input
    and [lambda] by the same [c > 0] multiplies every sample of the output
    by [c]. *)
Theorem X6_scaling (input : list Q) (lambda c : Q) :
  fits (length input) -> input <> [] -> 0 <= lambda -> 0 < c ->
  exists out out',
    denoise input lambda = Ok out /\
    denoise (map (Qmult c) input) (c * lambda) = Ok out' /\
    eqlist out' (map (Qmult c) out).
Proof.
  intros HW Hne H0 Hc0.
  destruct (denoise_run input lambda HW Hne H0) as (out & E & Hc).
  assert (Hc' : certified (map (Qmult c) input) (c * lambda)
                  (map (Qmult c) out)).
  { apply (certified_affine_pos (Qmult c) c 0);
      [intros v; ring | exact Hc0 | exact Hc]. }
  assert (H0' : 0 <= c * lambda) by (apply Qmult_le_0_compat; lra).
  destruct (denoise_char _ (c * lambda) _
              ltac:(rewrite length_map; exact HW) H0'
              (map_not_nil _ _ Hne) Hc') as (out' & E' & He).
  exists out, out'. auto.
Qed.

Lemma X6_scaling_witness :
  fits (length [0; 4; 1]) /\ [0; 4; 1] <> [] /\ 0 <= 1 /\ 0 < 3 /\
  exists out out',
    denoise [0; 4; 1] 1 = Ok out /\
    denoise (map (Qmult 3) [0; 4; 1]) (3 * 1) = Ok out' /\
    eqlist out' (map (Qmult 3) out).
Proof.
  assert (H1 : fits (length [0; 4; 1])) by (vm_compute; reflexivity).
  assert (H2 : [0; 4; 1] <> []) by discriminate.
  assert (H3 : 0 <= 1) by (unfold Qle; simpl; lia).
  assert (H4 : 0 < 3) by reflexivity.
  split; [exact H1|]. split; [exact H2|]. split; [exact H3|].
  split; [exact H4|].
  exact (X6_scaling [0; 4; 1] 1 3 H1 H2 H3 H4).
Defined.

(** X7, over exact real arithmetic: the routine works from left to right,
    but its output does not depend on the direction: on the reversed input,
    the output is the reversed output. *)
Theorem X7_reversal (input : list Q) (lambda : Q) :
  fits (length input) -> input <> [] -> 0 <= lambda ->
  exists out out',
    denoise input lambda = Ok out /\
    denoise (rev input) lambda = Ok out' /\
    eqlist out' (rev out).
Proof.
  intros HW Hne H0.
  destruct (denoise_run input lambda HW Hne H0) as (out & E & Hc).
  destruct (denoise_char _ lambda _
              ltac:(rewrite length_rev; exact HW) H0
              (rev_not_nil _ Hne) (certified_rev _ _ _ Hc))
    as (out' & E' & He).
  exists out, out'. auto.
Qed.

Lemma X7_reversal_witness :
  fits (length [0; 4; 1]) /\ [0; 4; 1] <> [] /\ 0 <= 1 /\
  exists out out',
    denoise [0; 4; 1] 1 = Ok out /\
    denoise (rev [0; 4; 1]) 1 = Ok out' /\
    eqlist out' (rev out).
Proof.
  assert (H1 : fits (length [0; 4; 1])) by (vm_compute; reflexivity).
  assert (H2 : [0; 4; 1] <> []) by discriminate.
  assert (H3 : 0 <= 1) by (unfold Qle; simpl; lia).
  split; [exact H1|]. split; [exact H2|]. split; [exact H3|].
  exact (X7_reversal [0; 4; 1] 1 H1 H2 H3).
Defined.

(** X8, over exact real arithmetic: the routine does not expand distances:
    for two inputs of the same length and the same [lambda >= 0], the
    squared distance between the outputs is at most the squared distance
    between the inputs. *)
Theorem X8_nonexpansive (input input' : list Q) (lambda : Q) :
  fits (length input) -> input <> [] -> length input' = length input ->
  0 <= lambda ->
  exists out out',
    denoise input lambda = Ok out /\ denoise input' lambda = Ok out' /\
    sq_dist out out' <= sq_dist input input'.
Proof.
  intros HW Hne Hl H0.
  assert (Hne' : input' <> [])
    by (intros ->; destruct input; [contradiction | discriminate]).
  destruct (denoise_run input lambda HW Hne H0) as (out & E & Hc).
  destruct (denoise_run input' lambda ltac:(rewrite Hl; exact HW) Hne' H0)
    as (out' & E' & Hc').
  exists out, out'. split; [exact E|]. split; [exact E'|].
  eapply certified_nonexpansive; eauto.
Qed.

Lemma X8_nonexpansive_witness :
  fits (length [0; 4; 1]) /\ [0; 4; 1] <> [] /\
  length [1; 3; 3] = length [0; 4; 1] /\ 0 <= 1 /\
  exists out out',
    denoise [0; 4; 1] 1 = Ok out /\ denoise [1; 3; 3] 1 = Ok out' /\
    sq_dist out out' <= sq_dist [0; 4; 1] [1; 3; 3].
Proof.
  assert (H1 : fits (length [0; 4; 1])) by (vm_compute; reflexivity).
  assert (H2 : [0; 4; 1] <> []) by discriminate.
  assert (H3 : length [1; 3; 3] = length [0; 4; 1]) by reflexivity.
  assert (H4 : 0 <= 1) by (unfold Qle; simpl; lia).
  split; [exact H1|]. split; [exact H2|]. split; [exact H3|].
  split; [exact H4|].
  exact (X8_nonexpansive [0; 4; 1] [1; 3; 3] 1 H1 H2 H3 H4).
Defined.

(** X9, over exact real arithmetic: with a larger [lambda] the output has no
    more total variation and lies no closer to the input. *)
Theorem X9_lambda_monotone (input : list Q) (lambda1 lambda2 : Q) :
  fits (length input) -> input <> [] -> 0 <= lambda1 -> lambda1 <= lambda2 ->
  exists out1 out2,
    denoise input lambda1 = Ok out1 /\ denoise input lambda2 = Ok out2 /\
    total_variation out2 <= total_variation out1 /\
    sq_dist out1 input <= sq_dist out2 input.
Proof.
  intros HW Hne H0 Hle.
  destruct (denoise_run input lambda1 HW Hne H0) as (out1 & E1 & C1).
  destruct (denoise_run input lambda2 HW Hne ltac:(lra)) as (out2 & E2 & C2).
  exists out1, out2. split; [exact E1|]. split; [exact E2|].
  eapply certified_lambda_mono; eauto.
Qed.

Lemma X9_lambda_monotone_witness :
  fits (length [0; 4; 1]) /\ [0; 4; 1] <> [] /\ 0 <= 1 /\ 1 <= 2 /\
  exists out1 out2,
    denoise [0; 4; 1] 1 = Ok out1 /\ denoise [0; 4; 1] 2 = Ok out2 /\
    total_variation out2 <= total_variation out1 /\
    sq_dist out1 [0; 4; 1] <= sq_dist out2 [0; 4; 1].
Proof.
  assert (H1 : fits (length [0; 4; 1])) by (vm_compute; reflexivity).
  assert (H2 : [0; 4; 1] <> []) by discriminate.
  assert (H3 : 0 <= 1) by (unfold Qle; simpl; lia).
  assert (H4 : 1 <= 2) by (unfold Qle; simpl; lia).
  split; [exact H1|]. split; [exact H2|]. split; [exact H3|].
  split; [exact H4|].
  exact (X9_lambda_monotone [0; 4; 1] 1 2 H1 H2 H3 H4).
Defined.

(** X10, over exact real arithmetic: the output stays in the range of the
    input: when every sample of the input lies in [[lo, hi]], so does every
    sample of the output. *)
Theorem X10_range (input : list Q) (lambda lo hi : Q) :
  fits (length input) -> input <> [] -> 0 <= lambda ->
  Forall (fun v => lo <= v /\ v <= hi) input ->
  exists out,
    denoise input lambda = Ok out /\
    Forall (fun v => lo <= v /\ v <= hi) out.
Proof.
  intros HW Hne H0 Hin.
  destruct (denoise_run input lambda HW Hne H0) as (out & E & Hc).
  exists out. split; [exact E|].
  assert (Hlo : Forall (fun v => lo <= v) out).
  { apply (certified_lower input out lambda lo H0 Hc).
    eapply Forall_impl; [|exact Hin]. cbn. intros v [A _]. exact A. }
  assert (Hhi : Forall (fun v => v <= hi) out).
  { apply (certified_upper input out lambda hi H0 Hc).
    eapply Forall_impl; [|exact Hin]. cbn. intros v [_ B]. exact B. }
  rewrite Forall_forall in *. intros v Hv. split; [apply Hlo | apply Hhi]; auto.
Qed.

Lemma X10_range_witness :
  fits (length [0; 4; 1]) /\ [0; 4; 1] <> [] /\ 0 <= 1 /\
  Forall (fun v => 0 <= v /\ v <= 4) [0; 4; 1] /\
  exists out,
    denoise [0; 4; 1] 1 = Ok out /\
    Forall (fun v => 0 <= v /\ v <= 4) out.
Proof.
  assert (H1 : fits (length [0; 4; 1])) by (vm_compute; reflexivity).
  assert (H2 : [0; 4; 1] <> []) by discriminate.
  assert (H3 : 0 <= 1) by (unfold Qle; simpl; lia).
  assert (H4 : Forall (fun v => 0 <= v /\ v <= 4) [0; 4; 1])
    by (repeat constructor; unfold Qle; simpl; lia).
  split; [exact H1|]. split; [exact H2|]. split; [exact H3|].
  split; [exact H4|].
  exact (X10_range [0; 4; 1] 1 0 4 H1 H2 H3 H4).
Defined.

(** X11, over exact real arithmetic: no sample is moved by more than [2 *
    lambda], and the first and the last sample by no more than [lambda]. *)
Theorem X11_deviation (input : list Q) (lambda : Q) :
  fits (length input) -> input <> [] -> 0 <= lambda ->
  exists out,
    denoise input lambda = Ok out /\
    (forall k, (k < length input)%nat ->
       Qabs (nth k out 0 - nth k input 0) <= 2 * lambda) /\
    Qabs (nth 0 out 0 - nth 0 input 0) <= lambda /\
    Qabs (nth (length input - 1) out 0 - nth (length input - 1) input 0)
    <= lambda.
Proof.
  intros HW Hne H0.
  destruct (denoise_run input lambda HW Hne H0) as (out & E & Hc).
  exists out. split; [exact E|]. split; [|split].
  - intros k Hk. apply certified_deviation; assumption.
  - apply certified_deviation_first; assumption.
  - apply certified_deviation_last; assumption.
Qed.

Lemma X11_deviation_witness :
  fits (length [0; 4; 1]) /\ [0; 4; 1] <> [] /\ 0 <= 1 /\
  exists out,
    denoise [0; 4; 1] 1 = Ok out /\
    (forall k, (k < length [0; 4; 1])%nat ->
       Qabs (nth k out 0 - nth k [0; 4; 1] 0) <= 2 * 1) /\
    Qabs (nth 0 out 0 - nth 0 [0; 4; 1] 0) <= 1 /\
    Qabs (nth (length [0; 4; 1] - 1) out 0
          - nth (length [0; 4; 1] - 1) [0; 4; 1] 0) <= 1.
Proof.
  assert (H1 : fits (length [0; 4; 1])) by (vm_compute; reflexivity).
  assert (H2 : [0; 4; 1] <> []) by discriminate.
  assert (H3 : 0 <= 1) by (unfold Qle; simpl; lia).
  split; [exact H1|]. split; [exact H2|]. split; [exact H3|].
  exact (X11_deviation [0; 4; 1] 1 H1 H2 H3).
Defined.

(** X12, over exact real arithmetic: where the output steps, the input steps
    at least as far in the same direction: the two output samples lie
    between the two input samples. So no step of the output is larger than
    the step of the input at the same place. *)
Theorem X12_steps (input : list Q) (lambda : Q) :
  fits (length input) -> input <> [] -> 0 <= lambda ->
  exists out,
    denoise input lambda = Ok out /\
    forall k, (S k < length input)%nat ->
      (nth k out 0 < nth (S k) out 0 ->
       nth k input 0 <= nth k out 0 /\
       nth (S k) out 0 <= nth (S k) input 0) /\
      (nth (S k) out 0 < nth k out 0 ->
       nth k out 0 <= nth k input 0 /\
       nth (S k) input 0 <= nth (S k) out 0) /\
      Qabs (nth (S k) out 0 - nth k out 0)
      <= Qabs (nth (S k) input 0 - nth k input 0).
Proof.
  intros HW Hne H0.
  destruct (denoise_run input lambda HW Hne H0) as (out & E & Hc).
  exists out. split; [exact E|]. intros k Hk. split; [|split].
  - apply certified_step_up with lambda; assumption.
  - apply certified_step_down with lambda; assumption.
  - apply certified_step_le with lambda; assumption.
Qed.

Lemma X12_steps_witness :
  fits (length [0; 4; 1]) /\ [0; 4; 1] <> [] /\ 0 <= 1 /\
  exists out,
    denoise [0; 4; 1] 1 = Ok out /\
    forall k, (S k < length [0; 4; 1])%nat ->
      (nth k out 0 < nth (S k) out 0 ->
       nth k [0; 4; 1] 0 <= nth k out 0 /\
       nth (S k) out 0 <= nth (S k) [0; 4; 1] 0) /\
      (nth (S k) out 0 < nth k out 0 ->
       nth k out 0 <= nth k [0; 4; 1] 0 /\
       nth (S k) [0; 4; 1] 0 <= nth (S k) out 0) /\
      Qabs (nth (S k) out 0 - nth k out 0)
      <= Qabs (nth (S k) [0; 4; 1] 0 - nth k [0; 4; 1] 0).
Proof.
  assert (H1 : fits (length [0; 4; 1])) by (vm_compute; reflexivity).
  assert (H2 : [0; 4; 1] <> []) by discriminate.
  assert (H3 : 0 <= 1) by (unfold Qle; simpl; lia).
  split; [exact H1|]. split; [exact H2|]. split; [exact H3|].
  exact (X12_steps [0; 4; 1] 1 H1 H2 H3).
Defined.

(** X13, over exact real arithmetic: the output of an input that never
    decreases never decreases. *)
Theorem X13_monotone (input : list Q) (lambda : Q) :
  fits (length input) -> input <> [] -> 0 <= lambda ->
  nondecreasing input ->
  exists out, denoise input lambda = Ok out /\ nondecreasing out.
Proof.
  intros HW Hne H0 Hin.
  destruct (denoise_run input lambda HW Hne H0) as (out & E & Hc).
  exists out. split; [exact E|].
  eapply certified_nondecreasing; eauto.
Qed.

Lemma X13_monotone_witness :
  fits (length [0; 1; 5]) /\ [0; 1; 5] <> [] /\ 0 <= 1 /\
  nondecreasing [0; 1; 5] /\
  exists out, denoise [0; 1; 5] 1 = Ok out /\ nondecreasing out.
Proof.
  assert (H1 : fits (length [0; 1; 5])) by (vm_compute; reflexivity).
  assert (H2 : [0; 1; 5] <> []) by discriminate.
  assert (H3 : 0 <= 1) by (unfold Qle; simpl; lia).
  assert (H4 : nondecreasing [0; 1; 5]).
  { intros k Hk. simpl in Hk.
    destruct k as [|[|k]]; [| |lia]; unfold Qle; simpl; lia. }
  split; [exact H1|]. split; [exact H2|]. split; [exact H3|].
  split; [exact H4|].
  exact (X13_monotone [0; 1; 5] 1 H1 H2 H3 H4).
Defined.

(** X14, over exact real arithmetic: the output is flat, every sample equal
    to the mean of the input, exactly when [lambda] is at least the largest
    distance between a running sum of the input and the running sum of its
    mean. *)
Theorem X14_flat (input : list Q) (lambda : Q) :
  fits (length input) -> input <> [] -> 0 <= lambda ->
  exists out,
    denoise input lambda = Ok out /\
    (Forall (Qeq (mean input)) out <->
     forall k, (k <= length input)%nat ->
       Qabs (dbl k * mean input - sumQ (firstn k input)) <= lambda).
Proof.
  intros HW Hne H0.
  destruct (denoise_run input lambda HW Hne H0) as (out & E & Hc).
  exists out. split; [exact E|]. split.
  - intros Hf k Hk. eapply flat_certified; eauto.
  - intros H. apply eqlist_repeat.
    rewrite (certified_length _ _ _ Hc).
    apply (certified_unique input _ _ lambda Hc).
    apply certified_flat; assumption.
Qed.

Lemma X14_flat_witness :
  fits (length [0; 4; 2]) /\ [0; 4; 2] <> [] /\ 0 <= 2 /\
  exists out,
    denoise [0; 4; 2] 2 = Ok out /\
    (Forall (Qeq (mean [0; 4; 2])) out <->
     forall k, (k <= length [0; 4; 2])%nat ->
       Qabs (dbl k * mean [0; 4; 2] - sumQ (firstn k [0; 4; 2])) <= 2).
Proof.
  assert (H1 : fits (length [0; 4; 2])) by (vm_compute; reflexivity).
  assert (H2 : [0; 4; 2] <> []) by discriminate.
  assert (H3 : 0 <= 2) by (unfold Qle; simpl; lia).
  split; [exact H1|]. split; [exact H2|]. split; [exact H3|].
  exact (X14_flat [0; 4; 2] 2 H1 H2 H3).
Defined.

(** X15, over exact real arithmetic: with [lambda > 0] the routine returns
    its input unchanged exactly when the input has no steps (its total
    variation is [0]). *)
Theorem X15_fixed_points (input : list Q) (lambda : Q) :
  fits (length input) -> input <> [] -> 0 < lambda ->
  exists out,
    denoise input lambda = Ok out /\
    (eqlist out input <-> total_variation input == 0).
Proof.
  intros HW Hne Hpos.
  destruct (denoise_run input lambda HW Hne ltac:(lra)) as (out & E & Hc).
  exists out. split; [exact E|]. split.
  - intros He. eapply certified_fixed; eauto.
  - intros Ht. pose proof (certified_gap _ _ _ Hc) as Hg.
    pose proof (total_variation_nonneg out) as Hn.
    assert (0 <= lambda * total_variation out)
      by (apply Qmult_le_0_compat; lra).
    rewrite Ht in Hg.
    apply sq_dist_zero; [apply (certified_length _ _ _ Hc) | lra].
Qed.

Lemma X15_fixed_points_witness :
  fits (length [0; 4; 1]) /\ [0; 4; 1] <> [] /\ 0 < 1 /\
  exists out,
    denoise [0; 4; 1] 1 = Ok out /\
    (eqlist out [0; 4; 1] <-> total_variation [0; 4; 1] == 0).
Proof.
  assert (H1 : fits (length [0; 4; 1])) by (vm_compute; reflexivity).
  assert (H2 : [0; 4; 1] <> []) by discriminate.
  assert (H3 : 0 < 1) by reflexivity.
  split; [exact H1|]. split; [exact H2|]. split; [exact H3|].
  exact (X15_fixed_points [0; 4; 1] 1 H1 H2 H3).
Defined.

(** X16, over exact real arithmetic: the squared distance between output and
    input is at most [lambda] times the total variation that the routine
    removes. *)
Theorem X16_gap (input : list Q) (lambda : Q) :
  fits (length input) -> input <> [] -> 0 <= lambda ->
  exists out,
    denoise input lambda = Ok out /\
    sq_dist out input
    <= lambda * (total_variation input - total_variation out).
Proof.
  intros HW Hne H0.
  destruct (denoise_run input lambda HW Hne H0) as (out & E & Hc).
  exists out. split; [exact E|]. apply certified_gap. exact Hc.
Qed.

Lemma X16_gap_witness :
  fits (length [0; 4; 1]) /\ [0; 4; 1] <> [] /\ 0 <= 1 /\
  exists out,
    denoise [0; 4; 1] 1 = Ok out /\
    sq_dist out [0; 4; 1]
    <= 1 * (total_variation [0; 4; 1] - total_variation out).
Proof.
  assert (H1 : fits (length [0; 4; 1])) by (vm_compute; reflexivity).
  assert (H2 : [0; 4; 1] <> []) by discriminate.
  assert (H3 : 0 <= 1) by (unfold Qle; simpl; lia).
  split; [exact H1|]. split; [exact H2|]. split; [exact H3|].
  exact (X16_gap [0; 4; 1] 1 H1 H2 H3).
Defined.

(** X17, over exact real arithmetic: on two samples [a], [b] the main loop
    is not entered and the right edge alone gives the output: both samples
    become the mean when [|b - a| <= 2 * lambda]; otherwise each sample
    moves by [lambda] towards the other. *)
Theorem X17_two_samples (a b lambda : Q) :
  0 <= lambda ->
  exists out,
    denoise [a; b] lambda = Ok out /\
    (Qabs (b - a) <= 2 * lambda ->
     eqlist out [(a + b) / 2; (a + b) / 2]) /\
    (2 * lambda < b - a -> eqlist out [a + lambda; b - lambda]) /\
    (2 * lambda < a - b -> eqlist out [a - lambda; b + lambda]).
Proof.
  intros H0.
  assert (HW : fits (length [a; b])) by (vm_compute; reflexivity).
  assert (Hne : [a; b] <> []) by discriminate.
  destruct (denoise_run [a; b] lambda HW Hne H0) as (out & E & Hc).
  exists out. split; [exact E|]. split; [|split]; intros H;
    apply (certified_unique [a; b] _ _ lambda Hc).
  - apply certified_pair_flat. exact H.
  - apply certified_pair_up; assumption.
  - apply certified_pair_down; assumption.
Qed.

Lemma X17_two_samples_witness :
  0 <= 1 /\
  exists out,
    denoise [0; 4] 1 = Ok out /\
    (Qabs (4 - 0) <= 2 * 1 -> eqlist out [(0 + 4) / 2; (0 + 4) / 2]) /\
    (2 * 1 < 4 - 0 -> eqlist out [0 + 1; 4 - 1]) /\
    (2 * 1 < 0 - 4 -> eqlist out [0 - 1; 4 + 1]).
Proof.
  assert (H1 : 0 <= 1) by (unfold Qle; simpl; lia).
  split; [exact H1|].
  exact (X17_two_samples 0 4 1 H1).
Defined.

(** X18: the routine reads the first [width] samples of its buffer only:
    what lies in the buffer after them does not change the result. *)
Theorem X18_reads_width_samples (input rest : list Q) (lambda : Q) :
  fits (length input) ->
  TV1D_denoise (input ++ rest) (length input) lambda = denoise input lambda.
Proof. intros HW. apply TV1D_prefix. exact HW. Qed.

Lemma X18_reads_width_samples_witness :
  fits (length [0; 4; 1]) /\
  TV1D_denoise ([0; 4; 1] ++ [7; 9]) (length [0; 4; 1]) 1
  = denoise [0; 4; 1] 1.
Proof.
  assert (H1 : fits (length [0; 4; 1])) by (vm_compute; reflexivity).
  split; [exact H1|].
  exact (X18_reads_width_samples [0; 4; 1] [7; 9] 1 H1).
Defined.

(** X19: the call is an error exactly when the buffer holds fewer than
    [width] samples, or [width] is [0] and [lambda] is not [0] (then the
    write [indstart_low[0] = 0] is outside the empty buffer, also when the
    caller's buffer is not empty). *)
Theorem X19_rejected (buf : list Q) (width : nat) (lambda : Q) :
  fits width ->
  (rejected (TV1D_denoise buf width lambda) <->
   (length buf < width)%nat \/ (width = 0%nat /\ ~ lambda == 0)).
Proof.
  intros HW. split.
  - intros H. destruct (TV1D_denoise buf width lambda) as [out|e] eqn:E;
      [contradiction|].
    destruct (TV1D_errors _ _ _ _ HW E) as [_ [A|[A B]]]; [left; exact A|].
    right. split; [exact A|]. apply Qeq_bool_neq. exact B.
  - intros [Hs|[-> Hn]].
    + rewrite (TV1D_short _ _ _ HW Hs). exact I.
    + rewrite TV1D_width_0. destruct (Qeq_bool lambda 0) eqn:E; [|exact I].
      apply Qeq_bool_iff in E. contradiction.
Qed.

Lemma X19_rejected_witness :
  fits 3 /\
  (rejected (TV1D_denoise [0; 4] 3 1) <->
   (length [0; 4] < 3)%nat \/ (3%nat = 0%nat /\ ~ 1 == 0)).
Proof.
  assert (H1 : fits 3) by (vm_compute; reflexivity).
  split; [exact H1|].
  exact (X19_rejected [0; 4] 3 1 H1).
Defined.

(** X20: for every buffer, every [width] and every [lambda], of either
    sign, the only error of the routine is an access outside a buffer: it
    never reads a cell of [output], [indstart_low] or [indstart_up] that it
    has not written, it returns no cell of [output] unwritten, and no loop
    runs on without end. *)
Theorem X20_only_out_of_bounds (buf : list Q) (width : nat) (lambda : Q)
    (e : error) :
  fits width -> TV1D_denoise buf width lambda = Err e -> e = OutOfBounds.
Proof.
  intros HW H. exact (proj1 (TV1D_errors _ _ _ _ HW H)).
Qed.

Lemma X20_only_out_of_bounds_witness :
  fits 3 /\ TV1D_denoise [0; 4] 3 (- (1)) = Err OutOfBounds /\
  OutOfBounds = OutOfBounds.
Proof.
  assert (H1 : fits 3) by (vm_compute; reflexivity).
  assert (H2 : TV1D_denoise [0; 4] 3 (- (1)) = Err OutOfBounds)
    by (vm_compute; reflexivity).
  split; [exact H1|]. split; [exact H2|].
  exact (X20_only_out_of_bounds [0; 4] 3 (- (1)) OutOfBounds H1 H2).
Defined.

(** X21, over exact real arithmetic: the output is no further from a
    constant than the input is: for every [c], [Sum_i (out_i - c)^2 <= Sum_i
    (input_i - c)^2]. *)
Theorem X21_distance_to_constant (input : list Q) (lambda : Q) :
  fits (length input) -> input <> [] -> 0 <= lambda ->
  exists out,
    denoise input lambda = Ok out /\
    forall c, sq_dist out (repeat c (length input))
              <= sq_dist input (repeat c (length input)).
Proof.
  intros HW Hne H0.
  destruct (denoise_run input lambda HW Hne H0) as (out & E & Hc).
  exists out. split; [exact E|]. intros c.
  apply (certified_nonexpansive input _ out _ lambda);
    [apply repeat_length | exact Hc | apply certified_const; exact H0].
Qed.

Lemma X21_distance_to_constant_witness :
  fits (length [0; 4; 1]) /\ [0; 4; 1] <> [] /\ 0 <= 1 /\
  exists out,
    denoise [0; 4; 1] 1 = Ok out /\
    forall c, sq_dist out (repeat c (length [0; 4; 1]))
              <= sq_dist [0; 4; 1] (repeat c (length [0; 4; 1])).
Proof.
  assert (H1 : fits (length [0; 4; 1])) by (vm_compute; reflexivity).
  assert (H2 : [0; 4; 1] <> []) by discriminate.
  assert (H3 : 0 <= 1) by (unfold Qle; simpl; lia).
  split; [exact H1|]. split; [exact H2|]. split; [exact H3|].
  exact (X21_distance_to_constant [0; 4; 1] 1 H1 H2 H3).
Defined.

(** X22, over exact real arithmetic: a negative [lambda] is used as it is:
    on two samples [a], [b] the routine returns [[a - lambda; b + lambda]]
    when [b - a <= - 2 * lambda], and [[a + lambda; b - lambda]] otherwise.
    *)
Theorem X22_negative_lambda_pair (a b lambda : Q) :
  lambda < 0 ->
  (b - a <= - (2) * lambda ->
   denoise [a; b] lambda = Ok [a - lambda; b + lambda]) /\
  (- (2) * lambda < b - a ->
   denoise [a; b] lambda = Ok [a + lambda; b - lambda]).
Proof.
  intros Hneg. rewrite (denoise_pair_negative a b lambda Hneg). split; intros H.
  - assert (E : Qle_bool (b + lambda) (a - lambda) = true)
      by (apply Qle_bool_iff; lra).
    rewrite E. reflexivity.
  - destruct (Qle_bool (b + lambda) (a - lambda)) eqn:E; [|reflexivity].
    apply Qle_bool_iff in E. lra.
Qed.

Lemma X22_negative_lambda_pair_witness :
  - (1) < 0 /\
  (1 - 0 <= - (2) * - (1) ->
   denoise [0; 1] (- (1)) = Ok [0 - - (1); 1 + - (1)]) /\
  (- (2) * - (1) < 1 - 0 ->
   denoise [0; 1] (- (1)) = Ok [0 + - (1); 1 - - (1)]).
Proof.
  assert (H1 : - (1) < 0) by reflexivity.
  split; [exact H1|].
  exact (X22_negative_lambda_pair 0 1 (- (1)) H1).
Defined.

(** X23, over exact real arithmetic: running the routine on its own output
    adds up the values of [lambda]: the output for [lambda2] of the output
    for [lambda1] is the output for [lambda1 + lambda2]. *)
Theorem X23_semigroup (input : list Q) (lambda1 lambda2 : Q) :
  fits (length input) -> input <> [] -> 0 <= lambda1 -> 0 <= lambda2 ->
  exists out1 out2 out,
    denoise input lambda1 = Ok out1 /\ denoise out1 lambda2 = Ok out2 /\
    denoise input (lambda1 + lambda2) = Ok out /\
    eqlist out out2.
Proof.
  intros HW Hne H1 H2.
  destruct (denoise_run input lambda1 HW Hne H1) as (out1 & E1 & C1).
  pose proof (certified_length _ _ _ C1) as L1.
  assert (Hne1 : out1 <> [])
    by (intros ->; destruct input; [contradiction | discriminate]).
  destruct (denoise_run out1 lambda2 ltac:(rewrite L1; exact HW) Hne1 H2)
    as (out2 & E2 & C2).
  destruct (denoise_char input (lambda1 + lambda2) out2 HW ltac:(lra) Hne
              (certified_compose _ _ _ _ _ C1 C2)) as (out & E & He).
  exists out1, out2, out. auto.
Qed.

Lemma X23_semigroup_witness :
  fits (length [0; 4; 1]) /\ [0; 4; 1] <> [] /\ 0 <= 1 /\ 0 <= (1 # 2) /\
  exists out1 out2 out,
    denoise [0; 4; 1] 1 = Ok out1 /\ denoise out1 (1 # 2) = Ok out2 /\
    denoise [0; 4; 1] (1 + (1 # 2)) = Ok out /\
    eqlist out out2.
Proof.
  assert (H1 : fits (length [0; 4; 1])) by (vm_compute; reflexivity).
  assert (H2 : [0; 4; 1] <> []) by discriminate.
  assert (H3 : 0 <= 1) by (unfold Qle; simpl; lia).
  assert (H4 : 0 <= (1 # 2)) by (unfold Qle; simpl; lia).
  split; [exact H1|]. split; [exact H2|]. split; [exact H3|].
  split; [exact H4|].
  exact (X23_semigroup [0; 4; 1] 1 (1 # 2) H1 H2 H3 H4).
Defined.

(** X24, over exact real arithmetic: with a larger [lambda] every step of
    the output is smaller or the same; samples that the routine has made
    equal stay equal. *)
Theorem X24_steps_shrink (input : list Q) (lambda1 lambda2 : Q) :
  fits (length input) -> input <> [] -> 0 <= lambda1 -> lambda1 <= lambda2 ->
  exists out1 out2,
    denoise input lambda1 = Ok out1 /\ denoise input lambda2 = Ok out2 /\
    forall k, (S k < length input)%nat ->
      Qabs (nth (S k) out2 0 - nth k out2 0)
      <= Qabs (nth (S k) out1 0 - nth k out1 0) /\
      (nth k out1 0 == nth (S k) out1 0 -> nth k out2 0 == nth (S k) out2 0).
Proof.
  intros HW Hne H0 Hle.
  destruct (denoise_run input lambda1 HW Hne H0) as (out1 & E1 & C1).
  destruct (denoise_run input lambda2 HW Hne ltac:(lra)) as (out2 & E2 & C2).
  exists out1, out2. split; [exact E1|]. split; [exact E2|].
  intros k Hk.
  pose proof (certified_steps_shrink input out1 out2 lambda1 lambda2 k
                HW Hne Hle C1 C2 Hk) as H.
  split; [exact H|]. intros Heq.
  assert (E : nth (S k) out1 0 - nth k out1 0 == 0) by lra.
  rewrite E in H. change (Qabs 0) with 0 in H.
  pose proof (Qabs_nonneg (nth (S k) out2 0 - nth k out2 0)) as Hn.
  assert (Hz : Qabs (nth (S k) out2 0 - nth k out2 0) == 0) by lra.
  apply Qabs_Qle_condition in H. lra.
Qed.

Lemma X24_steps_shrink_witness :
  fits (length [0; 4; 1]) /\ [0; 4; 1] <> [] /\ 0 <= 1 /\ 1 <= 2 /\
  exists out1 out2,
    denoise [0; 4; 1] 1 = Ok out1 /\ denoise [0; 4; 1] 2 = Ok out2 /\
    forall k, (S k < length [0; 4; 1])%nat ->
      Qabs (nth (S k) out2 0 - nth k out2 0)
      <= Qabs (nth (S k) out1 0 - nth k out1 0) /\
      (nth k out1 0 == nth (S k) out1 0 -> nth k out2 0 == nth (S k) out2 0).
Proof.
  assert (H1 : fits (length [0; 4; 1])) by (vm_compute; reflexivity).
  assert (H2 : [0; 4; 1] <> []) by discriminate.
  assert (H3 : 0 <= 1) by (unfold Qle; simpl; lia).
  assert (H4 : 1 <= 2) by (unfold Qle; simpl; lia).
  split; [exact H1|]. split; [exact H2|]. split; [exact H3|].
  split; [exact H4|].
  exact (X24_steps_shrink [0; 4; 1] 1 2 H1 H2 H3 H4).
Defined.

(** X25, over exact real arithmetic: the objective as the specification
    writes it, with the weight [mu >= 0] on the total variation and no
    factor [1/2], is minimised by the output of the routine for [lambda = mu
    / 2]. *)
Theorem X25_spec_objective_half (input : list Q) (mu : Q) :
  fits (length input) -> input <> [] -> 0 <= mu ->
  exists out,
    denoise input (mu / 2) = Ok out /\
    forall z, length z = length input ->
      spec_objective input mu out <= spec_objective input mu z.
Proof.
  intros HW Hne H0.
  assert (E : mu / 2 == (1 # 2) * mu) by (field; lra).
  destruct (denoise_run input (mu / 2) HW Hne ltac:(lra)) as (out & Eo & Hc).
  exists out. split; [exact Eo|]. intros z Hz.
  pose proof (certified_optimal _ _ z _ Hc Hz) as H.
  pose proof (sq_dist_nonneg z out) as Hn.
  unfold objective in H. unfold spec_objective. rewrite E in H.
  ring_simplify in H. lra.
Qed.

Lemma X25_spec_objective_half_witness :
  fits (length [0; 4]) /\ [0; 4] <> [] /\ 0 <= 1 /\
  exists out,
    denoise [0; 4] (1 / 2) = Ok out /\
    forall z, length z = length [0; 4] ->
      spec_objective [0; 4] 1 out <= spec_objective [0; 4] 1 z.
Proof.
  assert (H1 : fits (length [0; 4])) by (vm_compute; reflexivity).
  assert (H2 : [0; 4] <> []) by discriminate.
  assert (H3 : 0 <= 1) by (unfold Qle; simpl; lia).
  split; [exact H1|]. split; [exact H2|]. split; [exact H3|].
  exact (X25_spec_objective_half [0; 4] 1 H1 H2 H3).
Defined.

(** X26: in the arithmetic of the program ([float] cells, [lambda] a
    [double]) and with [lambda == 0], for either zero of [double], the
    routine returns its input cell by cell, whatever the cells hold, [NaN]
    and the infinities included. *)
Theorem X26_copy_in_floats (input : list FP.float) (lambda : FP.double) :
  fits (length input) -> SFeqb lambda (S754_zero false) = true ->
  FP.denoise input lambda = Ok input.
Proof.
  intros HW H0. apply (denoise_zero_gen FP.binary64); assumption.
Qed.

Lemma X26_copy_in_floats_witness :
  fits (length [S754_nan; S754_infinity false; FP.float_of 1 0]) /\
  SFeqb (S754_zero true) (S754_zero false) = true /\
  FP.denoise [S754_nan; S754_infinity false; FP.float_of 1 0]
    (S754_zero true)
  = Ok [S754_nan; S754_infinity false; FP.float_of 1 0].
Proof.
  assert (H1 : fits (length [S754_nan; S754_infinity false; FP.float_of 1 0]))
    by (vm_compute; reflexivity).
  assert (H2 : SFeqb (S754_zero true) (S754_zero false) = true)
    by reflexivity.
  split; [exact H1|]. split; [exact H2|].
  exact (X26_copy_in_floats [S754_nan; S754_infinity false; FP.float_of 1 0]
           (S754_zero true) H1 H2).
Defined.
